(** * wyoming_vosk/sentences.py: sentence expansion and correction

    A shallow embedding of the grammar sampler
    [sample_expression_with_output], the output resolver [__substitute],
    the corpus builder [generate_sentences] and the corrector
    [correct_sentence], together with the properties of the design
    document that concern them.

    Python objects that are mutated in place (the substitution
    dictionaries) live in an explicit heap; generators are modelled by
    passing the loop body that consumes them. *)

From Stdlib Require Import ZArith Ascii String.
From Stdlib Require QArith.
From stdpp Require Import base list strings gmap.

Set Warnings "-register-all".

(** ** Python values used by the module *)

(** Exceptions that the modelled code can raise. *)
Inductive PyError :=
| MissingListError (list_name : string)
| MissingRuleError (rule_name : string)
| ValueError
| TypeError.

(** The result of running a piece of code: a value, a raised exception,
    or the recursion budget was exhausted. *)
Inductive outcome (A : Type) :=
| Returned (a : A)
| Raised (e : PyError)
| OutOfFuel.
Arguments Returned {A} a.
Arguments Raised {A} e.
Arguments OutOfFuel {A}.

(** A [dict] with string keys.  Python dictionaries iterate in insertion
    order and [__substitute] depends on that order, so the entries are
    kept as a list. *)
Definition dict (V : Type) := list (string * V).

Fixpoint dict_get {V} (d : dict V) (k : string) : option V :=
  match d with
  | [] => None
  | (k', v) :: d' => if String.eqb k' k then Some v else dict_get d' k
  end.

(** [d[k] = v]: an existing key keeps its position, a new one goes last. *)
Fixpoint dict_set {V} (k : string) (v : V) (d : dict V) : dict V :=
  match d with
  | [] => [(k, v)]
  | (k', v') :: d' =>
      if String.eqb k' k then (k', v) :: d' else (k', v') :: dict_set k v d'
  end.

(** [deepmerge.always_merger] on two dictionaries whose values are not
    containers: every entry of [nxt] is written into [base]. *)
Definition dict_merge {V} (base nxt : dict V) : dict V :=
  fold_left (fun b kv => dict_set kv.1 kv.2 b) nxt base.

(** The dictionary threaded through the sampler:
    [{LISTS_KEY: {...}, EXP_RULES_KEY: {...}}] and, inside a rule body,
    [CURR_EXP_RULE_KEY].  A list value is the entry's [value_out], which
    may be [None]. *)
Record UsedSubstitutions := mkUsed {
  lists : dict (option string);
  exp_rules : dict string;
  curr_exp_rule : option string
}.

Definition empty_used : UsedSubstitutions :=
  {| lists := []; exp_rules := []; curr_exp_rule := None |}.

Global Instance UsedSubstitutions_inhabited : Inhabited UsedSubstitutions :=
  populate empty_used.

Definition set_list (name : string) (v : option string)
    (u : UsedSubstitutions) : UsedSubstitutions :=
  {| lists := dict_set name v (lists u);
     exp_rules := exp_rules u;
     curr_exp_rule := curr_exp_rule u |}.

Definition set_exp_rule (name text : string)
    (u : UsedSubstitutions) : UsedSubstitutions :=
  {| lists := lists u;
     exp_rules := dict_set name text (exp_rules u);
     curr_exp_rule := curr_exp_rule u |}.

Definition set_curr_exp_rule (name : string)
    (u : UsedSubstitutions) : UsedSubstitutions :=
  {| lists := lists u;
     exp_rules := exp_rules u;
     curr_exp_rule := Some name |}.

(** [always_merger.merge(base, nxt)] on two substitution dictionaries:
    the nested dictionaries are merged key by key, a scalar of [nxt]
    overrides the one of [base]. *)
Definition merge_used (base nxt : UsedSubstitutions) : UsedSubstitutions :=
  {| lists := dict_merge (lists base) (lists nxt);
     exp_rules := dict_merge (exp_rules base) (exp_rules nxt);
     curr_exp_rule :=
       match curr_exp_rule nxt with
       | Some r => Some r
       | None => curr_exp_rule base
       end |}.

(** ** The heap of substitution dictionaries *)

Abbreviation loc := nat (only parsing).
Abbreviation heap := (list UsedSubstitutions) (only parsing).

(** Computations that read and write the heap and may raise. *)
Definition M (A : Type) : Type := heap -> outcome A * heap.

Definition ret {A} (a : A) : M A := fun h => (Returned a, h).

Definition bind {A B} (m : M A) (f : A -> M B) : M B :=
  fun h =>
    match m h with
    | (Returned a, h') => f a h'
    | (Raised e, h') => (Raised e, h')
    | (OutOfFuel, h') => (OutOfFuel, h')
    end.

Definition raise {A} (e : PyError) : M A := fun h => (Raised e, h).
Definition out_of_fuel {A} : M A := fun h => (OutOfFuel, h).

Notation "'let*' x := m 'in' k" := (bind m (fun x => k))
  (at level 10, x pattern, m at level 100, k at level 200).

Definition read (l : loc) : M UsedSubstitutions :=
  fun h => (Returned (h !!! l), h).

(** In-place update of the object at [l]. *)
Definition modify (l : loc) (f : UsedSubstitutions -> UsedSubstitutions)
    : M unit :=
  fun h => (Returned tt, <[l := f (h !!! l)]> h).

(** [deepcopy(obj)]: a new object with the same content. *)
Definition deepcopy (l : loc) : M loc :=
  fun h => (Returned (List.length h), h ++ [h !!! l]).

(** [for x in xs: acc = body(x, acc)] *)
Fixpoint for_each {X A} (xs : list X) (body : X -> A -> M A) (acc : A)
    : M A :=
  match xs with
  | [] => ret acc
  | x :: xs' => let* acc' := body x acc in for_each xs' body acc'
  end.

(** [[f(x) for x in xs]] *)
Fixpoint map_m {X Y} (f : X -> M Y) (xs : list X) : M (list Y) :=
  match xs with
  | [] => ret []
  | x :: xs' =>
      let* y := f x in
      let* ys := map_m f xs' in
      ret (y :: ys)
  end.

(** ** Strings

    A text is kept as the bytes of its UTF-8 encoding, and Python works
    on its code points.  A code point is kept here as the bytes that
    encode it: a byte that is not a continuation byte ([10xxxxxx]) with
    the continuation bytes that follow it.  Two code points are equal
    exactly when their encodings are. *)
Definition is_continuation (c : ascii) : bool :=
  let n := nat_of_ascii c in
  Nat.leb 128 n && Nat.ltb n 192.

Fixpoint code_points_from (current : string) (s : string) : list string :=
  match s with
  | EmptyString => [current]
  | String c s' =>
      if is_continuation c
      then code_points_from (String.append current (String c EmptyString)) s'
      else current :: code_points_from (String c EmptyString) s'
  end.

(** [list(s)]: the code points of a text, in order. *)
Definition code_points (s : string) : list string :=
  match s with
  | EmptyString => []
  | String c s' => code_points_from (String c EmptyString) s'
  end.

(** The code point with the given UTF-8 bytes. *)
Definition utf8 (bytes : list nat) : string :=
  string_of_list_ascii (map ascii_of_nat bytes).

(** The white space outside ASCII: U+0085, U+00A0, U+1680, U+2000 to
    U+200A, U+2028, U+2029, U+202F, U+205F and U+3000. *)
Definition unicode_spaces : list string :=
  map utf8
    [[194; 133]; [194; 160]; [225; 154; 128];
     [226; 128; 128]; [226; 128; 129]; [226; 128; 130]; [226; 128; 131];
     [226; 128; 132]; [226; 128; 133]; [226; 128; 134]; [226; 128; 135];
     [226; 128; 136]; [226; 128; 137]; [226; 128; 138];
     [226; 128; 168]; [226; 128; 169]; [226; 128; 175]; [226; 129; 159];
     [227; 128; 128]].

(** [c.isspace()] for a code point, which is also what [\s] of [re]
    matches in a [str]: U+0009 to U+000D, U+001C to U+0020, and the
    white space outside ASCII. *)
Definition is_space (c : string) : bool :=
  match c with
  | String b EmptyString =>
      let n := nat_of_ascii b in
      (Nat.leb 9 n && Nat.leb n 13) || (Nat.leb 28 n && Nat.leb n 32)
  | _ => existsb (String.eqb c) unicode_spaces
  end.

(** [hassil.util.normalize_whitespace]: every run of white space becomes
    one space. *)
Fixpoint collapse_spaces (in_run : bool) (s : list string) : string :=
  match s with
  | [] => EmptyString
  | c :: s' =>
      if is_space c then
        if in_run then collapse_spaces true s'
        else String " "%char (collapse_spaces true s')
      else String.append c (collapse_spaces false s')
  end.

Definition normalize_whitespace (text : string) : string :=
  collapse_spaces false (code_points text).

(** [sep.join(parts)] with the empty separator. *)
Definition join (parts : list string) : string :=
  fold_right String.append EmptyString parts.

(** Python truthiness of a [value_out]: [None] and [""] are false. *)
Definition truthy (v : option string) : bool :=
  match v with
  | None => false
  | Some s => negb (String.eqb s "")
  end.

(** ** hassil expressions and slot lists *)

Inductive SequenceType := GROUP | ALTERNATIVE | PERMUTATION.

Inductive Expression :=
| TextChunk (original_text : string)
| Sequence (type : SequenceType) (items : list Expression)
| ListReference (list_name : string)
| RuleReference (rule_name : string).

Record TextSlotValue := mkTextSlotValue {
  text_in : Expression;
  value_out : option string
}.

Inductive SlotList :=
| TextSlotList (values : list TextSlotValue)
| RangeSlotList (start stop : Z).

(** A yielded triple [(input_text, output_text, used_substitutions)];
    the last component is a reference. *)
Definition Triple := (string * option string * loc)%type.

Definition input_of (t : Triple) : string := t.1.1.
Definition output_of (t : Triple) : option string := t.1.2.
Definition used_of (t : Triple) : loc := t.2.

(** [itertools.product] of the pools: the leftmost pool varies slowest. *)
Fixpoint product {X} (pools : list (list X)) : list (list X) :=
  match pools with
  | [] => [[]]
  | pool :: pools' =>
      flat_map (fun x => map (cons x) (product pools')) pool
  end.

(** [functools.reduce(always_merger.merge, ctxs)]: the first object is
    updated in place with every later one and is the result; an empty
    sequence is a [TypeError]. *)
Definition reduce_merge (ctxs : list loc) : M loc :=
  match ctxs with
  | [] => raise TypeError
  | base :: rest =>
      let* _ := for_each rest
                  (fun nxt (_ : unit) =>
                     let* n := read nxt in
                     modify base (fun b => merge_used b n))
                  tt in
      ret base
  end.

(** The loop body that drains a generator into a tuple. *)
Definition collect (t : Triple) (acc : list Triple) : M (list Triple) :=
  ret (acc ++ [t]).

(** ** The sampler *)

Section Sampler.
Variable slot_lists : gmap string SlotList.
Variable expansion_rules : gmap string Expression.

(** [sample_expression_with_output].  The generator is driven by
    [yield_], the body of the loop that consumes it, with [acc] the
    variables that loop carries; [fuel] bounds the recursion depth.
    The argument [used_substitutions] is a reference: the copy is taken
    when the generator starts.  In the list reference case the loop
    variable [used_substitutions] is rebound to each yielded dictionary,
    so the next entry starts from the last one yielded. *)
Fixpoint sample_expression_with_output (fuel : nat)
    (expression : Expression) (used_substitutions : loc)
    {A : Type} (yield_ : Triple -> A -> M A) (acc : A) {struct fuel}
    : M A :=
  match fuel with
  | O => out_of_fuel
  | S fuel' =>
    let* used := deepcopy used_substitutions in
    match expression with
    | TextChunk original_text =>
        let* u := read used in
        let* _ :=
          match curr_exp_rule u with
          | Some curr_exp_rule_name =>
              modify used (set_exp_rule curr_exp_rule_name original_text)
          | None => ret tt
          end in
        yield_ (original_text, Some original_text, used) acc
    | Sequence ALTERNATIVE items =>
        for_each items
          (fun item acc =>
             sample_expression_with_output fuel' item used yield_ acc)
          acc
    | Sequence GROUP items =>
        let* seq_sentences :=
          map_m (fun item =>
                   sample_expression_with_output fuel' item used collect [])
                items in
        for_each (product seq_sentences)
          (fun sentence_words acc =>
             let* merged := reduce_merge (map used_of sentence_words) in
             yield_
               (normalize_whitespace (join (map input_of sentence_words)),
                Some (normalize_whitespace
                        (join (omap output_of sentence_words))),
                merged)
               acc)
          acc
    | Sequence PERMUTATION _ => raise ValueError
    | ListReference list_name =>
        match slot_lists !! list_name with
        | None => raise (MissingListError list_name)
        | Some (TextSlotList values) =>
            let* r :=
              for_each values
                (fun text_value (st : loc * A) =>
                   let '(used, acc) := st in
                   if truthy (value_out text_value) then
                     let* r :=
                       sample_expression_with_output fuel'
                         (text_in text_value) used
                         (fun t (st : bool * loc * A) =>
                            let '(is_first_text, _, acc) := st in
                            let output_text :=
                              if is_first_text
                              then Some (default "" (value_out text_value))
                              else None in
                            let* _ :=
                              modify (used_of t)
                                (set_list list_name (value_out text_value)) in
                            let* acc' :=
                              yield_ (input_of t, output_text, used_of t)
                                acc in
                            ret (false, used_of t, acc'))
                         (true, used, acc) in
                     ret (r.1.2, r.2)
                   else
                     let* _ :=
                       modify used
                         (set_list list_name (value_out text_value)) in
                     let* acc' :=
                       sample_expression_with_output fuel'
                         (text_in text_value) used yield_ acc in
                     ret (used, acc'))
                (used, acc) in
            ret r.2
        | Some (RangeSlotList _ _) => raise ValueError
        end
    | RuleReference rule_name =>
        match expansion_rules !! rule_name with
        | None => raise (MissingRuleError rule_name)
        | Some rule_body =>
            let* _ := modify used (set_curr_exp_rule rule_name) in
            sample_expression_with_output fuel' rule_body used yield_ acc
        end
    end
  end.
End Sampler.

Definition outcome_map {A B} (f : A -> B) (o : outcome A) : outcome B :=
  match o with
  | Returned a => Returned (f a)
  | Raised e => Raised e
  | OutOfFuel => OutOfFuel
  end.

(** ** Calling the sampler with its default argument *)

(** The default value of [used_substitutions] is one dictionary, built
    when the module is loaded; it is the first object of the heap. *)
Definition default_used_substitutions : loc := 0.
Definition module_heap : heap := [empty_used].

(** What the body of a [for] loop over the generator sees: the texts and
    the content of the yielded dictionary at that moment. *)
Definition Seen := (string * option string * UsedSubstitutions)%type.

Definition seen_in (h : heap) (t : Triple) : Seen :=
  (input_of t, output_of t, h !!! used_of t).

Definition observe (t : Triple) (acc : list Seen) : M (list Seen) :=
  fun h => (Returned (acc ++ [seen_in h t]), h).

(** The triples as a consumer sees them that first drains the generator
    ([list(...)]) and only then looks at the dictionaries. *)
Definition drained (r : outcome (list Triple) * heap) : outcome (list Seen) :=
  outcome_map (map (seen_in r.2)) r.1.

(** ** The output resolver *)

Fixpoint starts_with (old s : string) : bool :=
  match old, s with
  | EmptyString, _ => true
  | String c old', String d s' => Ascii.eqb c d && starts_with old' s'
  | String _ _, EmptyString => false
  end.

Fixpoint drop_chars (n : nat) (s : string) : string :=
  match n, s with
  | S n', String _ s' => drop_chars n' s'
  | _, _ => s
  end.

(** [s.replace(old, new, 1)] *)
Fixpoint replace_first (old new s : string) : string :=
  if starts_with old s
  then String.append new (drop_chars (String.length old) s)
  else match s with
       | EmptyString => EmptyString
       | String c s' => String c (replace_first old new s')
       end.

Definition list_placeholder (list_name : string) : string :=
  String.append "{" (String.append list_name "}").

Definition rule_placeholder (exp_name : string) : string :=
  String.append "<" (String.append exp_name ">").

(** The first loop of [__substitute]; a value that is not a string makes
    [str.replace] raise [TypeError]. *)
Fixpoint substitute_lists (items : dict (option string))
    (out_sentence : string) : outcome string :=
  match items with
  | [] => Returned out_sentence
  | (list_name, Some list_item) :: items' =>
      substitute_lists items'
        (replace_first (list_placeholder list_name) list_item out_sentence)
  | (_, None) :: _ => Raised TypeError
  end.

(** The second loop of [__substitute]. *)
Fixpoint substitute_rules (items : dict string) (out_sentence : string)
    : string :=
  match items with
  | [] => out_sentence
  | (exp_name, exp_item) :: items' =>
      substitute_rules items'
        (replace_first (rule_placeholder exp_name) exp_item out_sentence)
  end.

Definition __substitute (out_sentence : string)
    (used_substitutions : UsedSubstitutions) : outcome string :=
  outcome_map (substitute_rules (exp_rules used_substitutions))
    (substitute_lists (lists used_substitutions) out_sentence).

(** ** The corpus builder *)

(** The two tables of the store. *)
Record Database := mkDatabase {
  sentences : list (string * string);
  words : list string
}.

(** A sentence template after [hassil.intents.is_template] and
    [hassil.parse_expression.parse_sentence], which are taken as given:
    plain text, or the expression parsed from a template. *)
Inductive InputTemplate :=
| NotTemplate (text : string)
| Template (input_expression : Expression).

(** One entry of [sentences:]; [output_text] is [template.get("out")]. *)
Record SentenceTemplate := mkSentenceTemplate {
  input_templates : list InputTemplate;
  output_text : option string
}.

(** Python's [a or b]. *)
Definition py_or (a b : option string) : option string :=
  if truthy a then a else b.

(** [text.split()]: the maximal runs of code points that are not white
    space. *)
Fixpoint split_words (current : string) (text : list string)
    : list string :=
  match text with
  | [] =>
      if String.eqb current EmptyString then [] else [current]
  | c :: text' =>
      if is_space c then
        if String.eqb current EmptyString then split_words EmptyString text'
        else current :: split_words EmptyString text'
      else split_words (String.append current c) text'
  end.

Definition split (text : string) : list string :=
  split_words EmptyString (code_points text).

(** [INSERT INTO sentences (input_text, output_text) VALUES (?, ?)] *)
Definition insert_sentence (row : string * string) (db : Database)
    : Database :=
  {| sentences := sentences db ++ [row]; words := words db |}.

(** [INSERT INTO words (word) VALUES (?)] *)
Definition insert_word (word : string) (db : Database) : Database :=
  {| sentences := sentences db; words := words db ++ [word] |}.

(** The state carried by the loops of [generate_sentences]: the store and
    the set [words]. *)
Definition BuildState := (Database * gset string)%type.

Definition add_sentence (input_text output : string) (st : BuildState)
    : BuildState :=
  (insert_sentence (input_text, output) st.1,
   st.2 ∪ list_to_set (split input_text)).

(** The body of the loop over the sampled triples.  The chosen text is
    never [None], the input text being a string. *)
Definition store_sampled (output_text : option string) (t : Triple)
    (st : BuildState) : M BuildState :=
  let* used := read (used_of t) in
  match py_or (py_or output_text (output_of t)) (Some (input_of t)) with
  | Some out_sentence =>
      match __substitute out_sentence used with
      | Returned substituted_output_text =>
          ret (add_sentence (input_of t) substituted_output_text st)
      | Raised err => raise err
      | OutOfFuel => out_of_fuel
      end
  | None => raise TypeError
  end.

Section Builder.
Variable slot_lists : gmap string SlotList.
Variable expansion_rules : gmap string Expression.
Variable fuel : nat.

(** The loop over the input templates of one entry. *)
Definition generate_template (template : SentenceTemplate)
    (st : BuildState) : M BuildState :=
  for_each (input_templates template)
    (fun input_template st =>
       match input_template with
       | Template input_expression =>
           sample_expression_with_output slot_lists expansion_rules fuel
             input_expression default_used_substitutions
             (store_sampled (output_text template)) st
       | NotTemplate text =>
           ret (add_sentence text
                  (default text (py_or (output_text template) (Some text)))
                  st)
       end)
    st.

(** [generate_sentences], from the loaded lists and rules on: all
    templates, then the words, in the order in which the set gives them.
    Commits are not modelled: the store is the state of the loops. *)
Definition generate_sentences (templates : list SentenceTemplate)
    (db_conn : Database) : M Database :=
  let* st := for_each templates generate_template (db_conn, ∅) in
  ret (fold_left (fun db word => insert_word word db) (elements st.2) st.1).
End Builder.

(** ** The corrector *)

(** A Python [float]: a rational, an infinity or not-a-number.  Only
    comparisons with integers are made, and those are exact. *)
Inductive PyFloat :=
| Finite (q : QArith_base.Q)
| PosInf
| NegInf
| NaN.

(** The float of an integer, as in [score_cutoff=5]. *)
Definition float_of_Z (n : Z) : PyFloat := Finite (QArith_base.inject_Z n).
Arguments float_of_Z n%_Z.

(** [x <= n] for a float [x] and an integer [n]. *)
Definition float_le_int (x : PyFloat) (n : Z) : bool :=
  match x with
  | Finite q => QArith_base.Qle_bool q (QArith_base.inject_Z n)
  | NegInf => true
  | PosInf | NaN => false
  end.

(** [n <= x] for an integer [n] and a float [x]. *)
Definition int_le_float (n : Z) (x : PyFloat) : bool :=
  match x with
  | Finite q => QArith_base.Qle_bool (QArith_base.inject_Z n) q
  | PosInf => true
  | NegInf | NaN => false
  end.

(** [rapidfuzz.distance.Levenshtein.distance(s1, s2, weights=(insertion,
    deletion, substitution))] on the code points of the two texts: the
    least total weight of edits that turn [s1] into [s2]. *)
Fixpoint weighted_distance (insertion deletion substitution : nat)
    (s1 : list string) : list string -> nat :=
  fix inner (s2 : list string) : nat :=
    match s1, s2 with
    | [], _ => insertion * List.length s2
    | _, [] => deletion * List.length s1
    | c1 :: s1', c2 :: s2' =>
        Nat.min
          (Nat.min
             (deletion
              + weighted_distance insertion deletion substitution s1' s2)
             (insertion + inner s2'))
          ((if String.eqb c1 c2 then 0 else substitution)
           + weighted_distance insertion deletion substitution s1' s2')
    end.

(** The scorer of [correct_sentence]: [weights=(1, 1, 3)]. *)
Definition distance (s1 s2 : string) : nat :=
  weighted_distance 1 1 3 (code_points s1) (code_points s2).

(** The loop of [rapidfuzz.process.extractOne] for a distance: a choice
    replaces the best one only if it scores strictly less, and a score of
    zero ends the scan.  [processor] takes the input text of a row. *)
Fixpoint extract_loop (query : string) (choices : list (string * string))
    (result : option (string * string * nat))
    : option (string * string * nat) :=
  match choices with
  | [] => result
  | choice :: choices' =>
      let score := distance query choice.1 in
      let better :=
        match result with
        | None => true
        | Some (_, best) => Nat.ltb score best
        end in
      if better then
        if Nat.eqb score 0 then Some (choice, score)
        else extract_loop query choices' (Some (choice, score))
      else extract_loop query choices' result
  end.

Definition extractOne (query : string) (choices : list (string * string))
    : option (string * string * nat) :=
  extract_loop query choices None.

(** A compiled pattern is taken as the test [pattern.match(text)]. *)
Record LanguageConfig := mkLanguageConfig {
  sentences_mtime_ns : Z;
  sentences_file_size : Z;
  database_path : string;
  no_correct_patterns : list (string -> bool);
  unknown_text : option string
}.

(** The database files, by path. *)
Abbreviation Files := (gmap string Database) (only parsing).

(** A connection: the content of the file and the content as changed by
    the statements run since the last commit. *)
Record Connection := mkConnection {
  committed : Database;
  pending : Database
}.

Definition connect (db : Database) : Connection :=
  {| committed := db; pending := db |}.

(** [SELECT input_text, output_text from sentences] *)
Definition select_sentences (db_conn : Connection)
    : list (string * string) :=
  sentences (pending db_conn).

(** Leaving [with db_conn:] commits when the block returned and rolls back
    when it raised; the file then holds the result. *)
Definition leave {A} (path : string) (db_conn : Connection)
    (result : outcome A) (files : Files) : Files :=
  match result with
  | Returned _ => <[path := pending db_conn]> files
  | _ => <[path := committed db_conn]> files
  end.

(** [correct_sentence]; the files are an argument and a result, so that
    what the call does to the store can be stated. *)
Definition correct_sentence (text : string) (config : LanguageConfig)
    (score_cutoff : PyFloat) (files : Files) : outcome string * Files :=
  match files !! database_path config with
  | None => (Returned text, files)
  | Some db =>
      if existsb (fun pattern => pattern text) (no_correct_patterns config)
      then (Returned text, files)
      else
        let db_conn := connect db in
        let cursor := select_sentences db_conn in
        let final_text :=
          match extractOne text cursor with
          | None => Raised TypeError
          | Some (fixed_row, score) =>
              if float_le_int score_cutoff 0
                 || int_le_float (Z.of_nat score) score_cutoff
              then Returned fixed_row.2
              else Returned text
          end in
        (final_text, leave (database_path config) db_conn final_text files)
  end.

(** A row is the best match for [text] among [rows]: no row is closer,
    and every row before it is farther. *)
Definition best_match (text : string) (rows : list (string * string))
    (row : string * string) (score : nat) : Prop :=
  score = distance text row.1 /\
  exists before after,
    rows = before ++ row :: after /\
    Forall (fun r => score < distance text r.1) before /\
    Forall (fun r => score <= distance text r.1) after.

(** ** Two runs of the sampler side by side

    The sampler's behaviour depends on the heap only through the content
    of the dictionaries it copies and updates.  This section relates two
    runs whose heaps, references and loop bodies correspond; the
    correspondence is a parameter, and the later sections instantiate it
    (a run with itself under a frame condition, a run on a longer heap, a
    run with another loop body). *)

Definition orel {A1 A2} (RA : A1 -> A2 -> Prop)
    (o1 : outcome A1) (o2 : outcome A2) : Prop :=
  match o1, o2 with
  | Returned a1, Returned a2 => RA a1 a2
  | Raised e1, Raised e2 => e1 = e2
  | OutOfFuel, OutOfFuel => True
  | _, _ => False
  end.

(** What the text chunk case does to its own copy. *)
Definition chunk_update (text : string) (u : UsedSubstitutions)
    : UsedSubstitutions :=
  match curr_exp_rule u with
  | Some name => set_exp_rule name text u
  | None => u
  end.

Lemma insert_lookup_total_id (h : heap) (l : loc) : <[l := h !!! l]> h = h.
Proof.
  destruct (decide (l < List.length h)) as [Hlt | Hge].
  - apply list_insert_id. by apply list_lookup_lookup_total_lt.
  - apply list_insert_ge. lia.
Qed.

Lemma chunk_step_modify {A} (l : loc) (text : string) (k : M A) (h : heap) :
  (let* u := read l in
   let* _ := match curr_exp_rule u with
             | Some name => modify l (set_exp_rule name text)
             | None => ret tt
             end in k) h
  = (let* _ := modify l (chunk_update text) in k) h.
Proof.
  unfold bind, read, modify, chunk_update, ret. simpl.
  destruct (curr_exp_rule (h !!! l)); simpl; [done |].
  by rewrite insert_lookup_total_id.
Qed.

Section Simulation.
Variable HR : heap -> heap -> Prop.
Variable LR : loc -> loc -> Prop.
Variable CR : UsedSubstitutions -> UsedSubstitutions -> Prop.

Hypothesis HR_read : forall h1 h2 l1 l2,
  HR h1 h2 -> LR l1 l2 -> CR (h1 !!! l1) (h2 !!! l2).
Hypothesis HR_write : forall h1 h2 l1 l2 c1 c2,
  HR h1 h2 -> LR l1 l2 -> CR c1 c2 ->
  HR (<[l1 := c1]> h1) (<[l2 := c2]> h2).
Hypothesis HR_alloc : forall h1 h2 c1 c2,
  HR h1 h2 -> CR c1 c2 ->
  HR (h1 ++ [c1]) (h2 ++ [c2]) /\ LR (List.length h1) (List.length h2).
Hypothesis CR_chunk : forall text u1 u2,
  CR u1 u2 -> CR (chunk_update text u1) (chunk_update text u2).
Hypothesis CR_set_list : forall name v u1 u2,
  CR u1 u2 -> CR (set_list name v u1) (set_list name v u2).
Hypothesis CR_set_curr : forall name u1 u2,
  CR u1 u2 -> CR (set_curr_exp_rule name u1) (set_curr_exp_rule name u2).
Hypothesis CR_merge : forall b1 b2 n1 n2,
  CR b1 b2 -> CR n1 n2 -> CR (merge_used b1 n1) (merge_used b2 n2).

  (** Related results and related computations. *)
Definition rrel {A1 A2} (RA : A1 -> A2 -> Prop)
    (r1 : outcome A1 * heap) (r2 : outcome A2 * heap) : Prop :=
  orel RA r1.1 r2.1 /\ HR r1.2 r2.2.

Definition mrel {A1 A2} (RA : A1 -> A2 -> Prop)
    (m1 : M A1) (m2 : M A2) : Prop :=
  forall h1 h2, HR h1 h2 -> rrel RA (m1 h1) (m2 h2).

  (** Related triples: the same texts, related references. *)
Definition TR (t1 t2 : Triple) : Prop :=
  input_of t1 = input_of t2 /\ output_of t1 = output_of t2 /\
  LR (used_of t1) (used_of t2).

  (** Related loop bodies. *)
Definition KR {A1 A2} (RA : A1 -> A2 -> Prop)
    (k1 : Triple -> A1 -> M A1) (k2 : Triple -> A2 -> M A2) : Prop :=
  forall t1 t2 a1 a2, TR t1 t2 -> RA a1 a2 -> mrel RA (k1 t1 a1) (k2 t2 a2).

Lemma rrel_bind {A1 A2 B1 B2} (RA : A1 -> A2 -> Prop)
    (RB : B1 -> B2 -> Prop) m1 m2 f1 f2 h1 h2 :
  rrel RB (m1 h1) (m2 h2) ->
  (forall b1 b2, RB b1 b2 -> mrel RA (f1 b1) (f2 b2)) ->
  rrel RA (bind m1 f1 h1) (bind m2 f2 h2).
Proof.
  unfold rrel, bind. intros [Ho Hh] Hf.
  destruct (m1 h1) as [[b1 | e1 |] h1'], (m2 h2) as [[b2 | e2 |] h2'];
    simpl in *; try done.
  by apply Hf.
Qed.

Lemma mrel_bind {A1 A2 B1 B2} (RA : A1 -> A2 -> Prop)
    (RB : B1 -> B2 -> Prop) m1 m2 f1 f2 :
  mrel RB m1 m2 ->
  (forall b1 b2, RB b1 b2 -> mrel RA (f1 b1) (f2 b2)) ->
  mrel RA (bind m1 f1) (bind m2 f2).
Proof. intros Hm Hf h1 h2 Hh. eapply rrel_bind; eauto. Qed.

Lemma mrel_ret {A1 A2} (RA : A1 -> A2 -> Prop) a1 a2 :
  RA a1 a2 -> mrel RA (ret a1) (ret a2).
Proof. intros Ha h1 h2 Hh. by split. Qed.

Lemma mrel_raise {A1 A2} (RA : A1 -> A2 -> Prop) e :
  mrel RA (raise e) (raise e).
Proof. intros h1 h2 Hh. by split. Qed.

Lemma mrel_read l1 l2 : LR l1 l2 -> mrel CR (read l1) (read l2).
Proof. intros Hl h1 h2 Hh. split; simpl; eauto. Qed.

Lemma mrel_modify l1 l2 f1 f2 :
  LR l1 l2 ->
  (forall u1 u2, CR u1 u2 -> CR (f1 u1) (f2 u2)) ->
  mrel (fun _ _ => True) (modify l1 f1) (modify l2 f2).
Proof.
  intros Hl Hf h1 h2 Hh. split; simpl; [done |].
  apply HR_write; eauto.
Qed.

Lemma rrel_deepcopy l1 l2 h1 h2 :
  HR h1 h2 -> CR (h1 !!! l1) (h2 !!! l2) ->
  rrel LR (deepcopy l1 h1) (deepcopy l2 h2).
Proof.
  intros Hh Hc. destruct (HR_alloc h1 h2 _ _ Hh Hc) as [Hh' Hl].
  by split.
Qed.

Lemma mrel_for_each {X1 X2 A1 A2} (XR : X1 -> X2 -> Prop)
    (RA : A1 -> A2 -> Prop) xs1 xs2 body1 body2 :
  Forall2 XR xs1 xs2 ->
  (forall x1 x2 a1 a2, XR x1 x2 -> RA a1 a2 ->
     mrel RA (body1 x1 a1) (body2 x2 a2)) ->
  forall a1 a2, RA a1 a2 ->
    mrel RA (for_each xs1 body1 a1) (for_each xs2 body2 a2).
Proof.
  intros Hxs Hbody. induction Hxs as [| x1 x2 xs1 xs2 Hx _ IH];
    intros a1 a2 Ha; simpl.
  - by apply mrel_ret.
  - eapply mrel_bind; [by apply Hbody | exact IH].
Qed.

Lemma mrel_for_each_same {X A1 A2} (RA : A1 -> A2 -> Prop)
    (xs : list X) body1 body2 :
  (forall x a1 a2, RA a1 a2 -> mrel RA (body1 x a1) (body2 x a2)) ->
  forall a1 a2, RA a1 a2 ->
    mrel RA (for_each xs body1 a1) (for_each xs body2 a2).
Proof.
  intros Hbody. apply (mrel_for_each eq).
  - by apply Forall2_same_length_lookup_2; [| intros; simplify_eq].
  - intros x1 x2 a1 a2 <-. apply Hbody.
Qed.

Lemma mrel_map_m {X Y1 Y2} (YR : Y1 -> Y2 -> Prop) (xs : list X) f1 f2 :
  (forall x, mrel YR (f1 x) (f2 x)) ->
  mrel (Forall2 YR) (map_m f1 xs) (map_m f2 xs).
Proof.
  intros Hf. induction xs as [| x xs IH]; simpl.
  - by apply mrel_ret.
  - eapply mrel_bind; [apply Hf |]. intros y1 y2 Hy.
    eapply mrel_bind; [apply IH |]. intros ys1 ys2 Hys.
    apply mrel_ret. by constructor.
Qed.

Lemma mrel_collect : KR (Forall2 TR) collect collect.
Proof.
  intros t1 t2 a1 a2 Ht Ha. apply mrel_ret.
  apply Forall2_app; [done | by constructor].
Qed.

Lemma product_related {X1 X2} (XR : X1 -> X2 -> Prop) pools1 pools2 :
  Forall2 (Forall2 XR) pools1 pools2 ->
  Forall2 (Forall2 XR) (product pools1) (product pools2).
Proof.
  induction 1 as [| p1 p2 ps1 ps2 Hp _ IH]; simpl.
  - by repeat constructor.
  - induction Hp as [| x1 x2 p1 p2 Hx _ IHp]; simpl; [constructor |].
    apply Forall2_app; [| exact IHp].
    clear -Hx IH. induction IH; simpl; constructor; auto.
Qed.

Lemma mrel_reduce_merge ls1 ls2 :
  Forall2 LR ls1 ls2 -> mrel LR (reduce_merge ls1) (reduce_merge ls2).
Proof.
  intros [| b1 b2 r1 r2 Hb Hr]; simpl; [apply mrel_raise |].
  eapply mrel_bind with (RB := fun _ _ => True); [| by intros; apply mrel_ret].
  apply (mrel_for_each LR); [done | | done].
  intros n1 n2 [] [] Hn _.
  eapply mrel_bind; [by apply mrel_read |].
  intros u1 u2 Hu. apply mrel_modify; [done |].
  intros c1 c2 Hc. by apply CR_merge.
Qed.

Lemma texts_related ws1 ws2 :
  Forall2 TR ws1 ws2 ->
  map input_of ws1 = map input_of ws2 /\
  omap output_of ws1 = omap output_of ws2 /\
  Forall2 LR (map used_of ws1) (map used_of ws2).
Proof.
  induction 1 as [| t1 t2 ws1 ws2 (Hi & Ho & Hl) _ (IHi & IHo & IHl)];
    [done |].
  split_and!.
  - simpl. by rewrite Hi, IHi.
  - change (omap output_of (t1 :: ws1)) with
      (match output_of t1 with
       | Some y => y :: omap output_of ws1
       | None => omap output_of ws1
       end).
    change (omap output_of (t2 :: ws2)) with
      (match output_of t2 with
       | Some y => y :: omap output_of ws2
       | None => omap output_of ws2
       end).
    by rewrite Ho, IHo.
  - simpl. by constructor.
Qed.

Variable slot_lists : gmap string SlotList.
Variable expansion_rules : gmap string Expression.

Local Abbreviation sample :=
  (sample_expression_with_output slot_lists expansion_rules).

Lemma sample_related (fuel : nat) :
  forall (e : Expression) (us1 us2 : loc) {A1 A2} (RA : A1 -> A2 -> Prop)
         k1 k2 a1 a2 h1 h2,
    KR RA k1 k2 -> RA a1 a2 ->
    HR h1 h2 -> CR (h1 !!! us1) (h2 !!! us2) ->
    rrel RA (sample fuel e us1 k1 a1 h1) (sample fuel e us2 k2 a2 h2).
Proof.
  induction fuel as [| fuel IH]; intros e us1 us2 A1 A2 RA k1 k2 a1 a2 h1 h2
    Hk Ha Hh Hc; simpl; [by split |].
  assert (IH' : forall e l1 l2 {B1 B2} (RB : B1 -> B2 -> Prop) j1 j2 b1 b2,
             KR RB j1 j2 -> RB b1 b2 -> LR l1 l2 ->
             mrel RB (sample fuel e l1 j1 b1) (sample fuel e l2 j2 b2)).
  { intros e' l1 l2 B1 B2 RB j1 j2 b1 b2 Hj Hb Hl g1 g2 Hg.
    apply IH; eauto. }
  clear IH.
  eapply rrel_bind; [by apply rrel_deepcopy |].
  clear h1 h2 Hh Hc. intros used1 used2 Hused.
  destruct e as [text | [ | | ] items | list_name | rule_name].
  - (* TextChunk *)
    intros h1 h2 Hh. rewrite !chunk_step_modify.
    revert h1 h2 Hh. eapply mrel_bind.
    + apply mrel_modify; [done | apply CR_chunk].
    + intros _ _ _. by apply Hk.
  - (* GROUP *)
    eapply mrel_bind.
    + apply (mrel_map_m (Forall2 TR)). intros item.
      apply IH'; [apply mrel_collect | constructor | done].
    + intros pools1 pools2 Hpools.
      apply (mrel_for_each (Forall2 TR)); [by apply product_related | | done].
      intros ws1 ws2 b1 b2 Hws Hb.
      destruct (texts_related _ _ Hws) as (Hi & Ho & Hl).
      eapply mrel_bind; [by apply mrel_reduce_merge |].
      intros m1 m2 Hm. rewrite Hi, Ho. by apply Hk.
  - (* ALTERNATIVE *)
    apply mrel_for_each_same; [| done].
    intros item b1 b2 Hb. by apply IH'.
  - (* PERMUTATION *)
    apply mrel_raise.
  - (* ListReference *)
    destruct (slot_lists !! list_name) as [[values | start stop] |];
      [| apply mrel_raise | apply mrel_raise].
    eapply mrel_bind with (RB := fun r1 r2 => LR r1.1 r2.1 /\ RA r1.2 r2.2).
    + apply mrel_for_each_same; [| by split].
      intros text_value [u1 b1] [u2 b2] [Hu Hb]; simpl in *.
      destruct (truthy (value_out text_value)).
      * eapply mrel_bind
          with (RB := fun r1 r2 =>
                        r1.1.1 = r2.1.1 /\ LR r1.1.2 r2.1.2 /\ RA r1.2 r2.2).
        -- apply IH'; [| by split_and! | done].
           intros t1 t2 [[f1 v1] c1] [[f2 v2] c2] (Hi & Ho & Hl)
             (Hf & Hv & Hcc); simpl in *. subst f2.
           eapply mrel_bind;
             [apply mrel_modify; [done | apply CR_set_list] |].
           intros _ _ _. eapply mrel_bind.
           ++ apply Hk; [| done]. by split_and!.
           ++ intros c1' c2' Hc'. by apply mrel_ret.
        -- intros [[f1 v1] c1] [[f2 v2] c2] (Hf & Hv & Hcc); simpl in *.
           by apply mrel_ret.
      * eapply mrel_bind;
          [apply mrel_modify; [done | apply CR_set_list] |].
        intros _ _ _. eapply mrel_bind; [by apply IH' |].
        intros c1 c2 Hcc. by apply mrel_ret.
    + intros [u1 b1] [u2 b2] [Hu Hb]. by apply mrel_ret.
  - (* RuleReference *)
    destruct (expansion_rules !! rule_name) as [rule_body |];
      [| apply mrel_raise].
    eapply mrel_bind; [apply mrel_modify; [done | apply CR_set_curr] |].
    intros _ _ _. by apply IH'.
Qed.
End Simulation.

Lemma orel_eq {A} (o1 o2 : outcome A) : orel eq o1 o2 -> o1 = o2.
Proof. destruct o1, o2; simpl; intros; by subst. Qed.

Lemma orel_refl {A} (o : outcome A) : orel eq o o.
Proof. by destruct o. Qed.

(** *** Objects that exist before a call are not written to *)

Section Frame.
Variable slot_lists : gmap string SlotList.
Variable expansion_rules : gmap string Expression.
Variable old : heap.

  (** [h] extends [old] and agrees with it on every object of [old]. *)
Definition preserves (h : heap) : Prop :=
  List.length old <= List.length h /\
  forall l, l < List.length old -> h !! l = old !! l.

Definition fresh (l : loc) : Prop := List.length old <= l.

Lemma preserves_insert h l c :
  preserves h -> fresh l -> preserves (<[l := c]> h).
Proof.
  intros [Hlen Hold] Hl. split.
  - by rewrite length_insert.
  - intros l' Hl'. rewrite list_lookup_insert_ne; [by apply Hold |].
    unfold fresh in Hl. lia.
Qed.

Lemma preserves_alloc h c :
  preserves h -> preserves (h ++ [c]) /\ fresh (List.length h).
Proof.
  intros [Hlen Hold]. split; [split |]; [| | done].
  - rewrite length_app. lia.
  - intros l Hl. rewrite lookup_app_l; [by apply Hold | lia].
Qed.

Lemma sample_preserves fuel e us {A} (k : Triple -> A -> M A) a h :
  (forall t b g, fresh (used_of t) -> preserves g -> preserves (k t b g).2) ->
  preserves h ->
  preserves (sample_expression_with_output slot_lists expansion_rules
               fuel e us k a h).2.
Proof.
  intros Hk Hh.
  pose (HR := fun h1 h2 : heap => h1 = h2 /\ preserves h1).
  pose (LR := fun l1 l2 : loc => l1 = l2 /\ fresh l1).
  assert (Hrel : rrel HR eq
            (sample_expression_with_output slot_lists expansion_rules
               fuel e us k a h)
            (sample_expression_with_output slot_lists expansion_rules
               fuel e us k a h)).
  { apply (sample_related HR LR eq); try done.
    - intros h1 h2 l1 l2 [-> _] [-> _]. done.
    - intros h1 h2 l1 l2 c1 c2 [-> Hp] [-> Hl] ->.
      split; [done | by apply preserves_insert].
    - intros h1 h2 c1 c2 [-> Hp] ->.
      destruct (preserves_alloc h2 c2 Hp) as [Hp' Hf].
      split; by split.
    - by intros text u1 u2 ->.
    - by intros name v u1 u2 ->.
    - by intros name u1 u2 ->.
    - by intros b1 b2 n1 n2 -> ->.
    - intros [[i1 o1] l1] [[i2 o2] l2] a1 a2 (Hi & Ho & [Hl Hf]) ->
        h1 h2 [-> Hp]; unfold input_of, output_of, used_of in *;
        simpl in *. subst i2 o2 l2.
      split; [apply orel_refl | split; [done |]]. by apply Hk. }
  by destruct Hrel as [_ [_ Hp]].
Qed.
End Frame.

(** *** The same call on another heap, with another loop body *)

Section Shift.
Variable slot_lists : gmap string SlotList.
Variable expansion_rules : gmap string Expression.
Variables n1 n2 : nat.

  (** The two heaps hold the same objects beyond their first [n1],
      respectively [n2], objects. *)
Definition shifted (h1 h2 : heap) : Prop :=
  exists p1 p2 s, h1 = p1 ++ s /\ h2 = p2 ++ s /\
                  List.length p1 = n1 /\ List.length p2 = n2.

Definition shifted_loc (l1 l2 : loc) : Prop :=
  exists i, l1 = n1 + i /\ l2 = n2 + i.

Lemma shifted_read h1 h2 l1 l2 :
  shifted h1 h2 -> shifted_loc l1 l2 -> h1 !!! l1 = h2 !!! l2.
Proof.
  intros (p1 & p2 & s & -> & -> & Hn1 & Hn2) (i & -> & ->).
  rewrite !lookup_total_app_r by lia. f_equal. lia.
Qed.

Lemma shifted_write h1 h2 l1 l2 c :
  shifted h1 h2 -> shifted_loc l1 l2 ->
  shifted (<[l1 := c]> h1) (<[l2 := c]> h2).
Proof.
  intros (p1 & p2 & s & -> & -> & Hn1 & Hn2) (i & -> & ->).
  exists p1, p2, (<[i := c]> s). subst n1 n2.
  by rewrite !insert_app_r.
Qed.

Lemma shifted_alloc h1 h2 c :
  shifted h1 h2 ->
  shifted (h1 ++ [c]) (h2 ++ [c]) /\
  shifted_loc (List.length h1) (List.length h2).
Proof.
  intros (p1 & p2 & s & -> & -> & Hn1 & Hn2). split.
  - exists p1, p2, (s ++ [c]). by rewrite <- !app_assoc.
  - exists (List.length s). rewrite !length_app. lia.
Qed.

Lemma sample_shifted fuel e us1 us2 {A1 A2} (RA : A1 -> A2 -> Prop)
    k1 k2 a1 a2 h1 h2 :
  KR shifted shifted_loc RA k1 k2 -> RA a1 a2 ->
  shifted h1 h2 -> h1 !!! us1 = h2 !!! us2 ->
  rrel shifted RA
    (sample_expression_with_output slot_lists expansion_rules
       fuel e us1 k1 a1 h1)
    (sample_expression_with_output slot_lists expansion_rules
       fuel e us2 k2 a2 h2).
Proof.
  intros Hk Ha Hh Hc.
  apply (sample_related shifted shifted_loc eq); try done.
  - apply shifted_read.
  - intros g1 g2 l1 l2 c1 c2 Hg Hl ->. by apply shifted_write.
  - intros g1 g2 c1 c2 Hg ->. by apply shifted_alloc.
  - by intros text u1 u2 ->.
  - by intros name v u1 u2 ->.
  - by intros name u1 u2 ->.
  - by intros b1 b2 m1 m2 -> ->.
Qed.
End Shift.

Section TwoRuns.
Variable slot_lists : gmap string SlotList.
Variable expansion_rules : gmap string Expression.

Local Abbreviation sample :=
  (sample_expression_with_output slot_lists expansion_rules).

Lemma sample_keeps_old_objects fuel e us {A} (k : Triple -> A -> M A) a h :
  (forall t b g, (k t b g).2 = g) ->
  forall l, l < List.length h -> (sample fuel e us k a h).2 !! l = h !! l.
Proof.
  intros Hk l Hl.
  destruct (sample_preserves slot_lists expansion_rules h fuel e us k a h)
    as [_ Hold]; [| by split |].
  - intros t b g _ Hg. by rewrite Hk.
  - by apply Hold.
Qed.

Lemma shifted_nil (h1 h2 : heap) :
  shifted (List.length h1) (List.length h2) h1 h2.
Proof. exists h1, h2, []. by rewrite !app_nil_r. Qed.

Lemma observe_related n1 n2 :
  KR (shifted n1 n2) (shifted_loc n1 n2) eq observe observe.
Proof.
  intros t1 t2 a1 a2 (Hi & Ho & Hl) -> h1 h2 Hh. split; [| done].
  simpl. unfold seen_in.
  by rewrite Hi, Ho, (shifted_read n1 n2 h1 h2 _ _ Hh Hl).
Qed.

Lemma seen_related n1 n2 h1 h2 ts1 ts2 :
  shifted n1 n2 h1 h2 -> Forall2 (TR (shifted_loc n1 n2)) ts1 ts2 ->
  map (seen_in h1) ts1 = map (seen_in h2) ts2.
Proof.
  intros Hh. induction 1 as [| t1 t2 ts1 ts2 (Hi & Ho & Hl) _ IH];
    simpl; [done |].
  rewrite IH. unfold seen_in.
  by rewrite Hi, Ho, (shifted_read n1 n2 h1 h2 _ _ Hh Hl).
Qed.

  (** A second call gives what the first one gave, whatever the first
      one left on the heap. *)
Lemma sample_again fuel e us h h' :
  h !!! us = h' !!! us ->
  (sample fuel e us observe [] h').1 = (sample fuel e us observe [] h).1 /\
  drained (sample fuel e us collect [] h')
  = drained (sample fuel e us collect [] h).
Proof.
  intros Hus. split.
  - symmetry. apply orel_eq.
    eapply (sample_shifted slot_lists expansion_rules
              (List.length h) (List.length h') fuel e us us eq);
      [apply observe_related | done | apply shifted_nil | done].
  - destruct (sample_shifted slot_lists expansion_rules
              (List.length h) (List.length h') fuel e us us
              (Forall2 (TR (shifted_loc (List.length h) (List.length h'))))
              collect collect [] [] h h') as [Ho Hh];
      [apply mrel_collect | constructor | apply shifted_nil | done |].
    unfold drained.
    destruct (sample fuel e us collect [] h) as [[ts1 | e1 |] g1],
             (sample fuel e us collect [] h') as [[ts2 | e2 |] g2];
      simpl in *; try done; [| by subst].
    f_equal. symmetry. by eapply seen_related.
Qed.
End TwoRuns.

(** ** The texts a call yields

    The input and output texts of the yielded triples do not depend on
    the heap or on the dictionary the call starts from. *)

Abbreviation Texts := (string * option string)%type (only parsing).

Definition texts_of (ts : list Triple) : list Texts :=
  map (fun t => (input_of t, output_of t)) ts.

(** The results of several steps run one after the other: the first one
    that does not return decides. *)
Fixpoint all_outcomes {Y} (os : list (outcome Y)) : outcome (list Y) :=
  match os with
  | [] => Returned []
  | Returned y :: os' => outcome_map (cons y) (all_outcomes os')
  | Raised e :: _ => Raised e
  | OutOfFuel :: _ => OutOfFuel
  end.

(** The texts of one combination of a concatenation. *)
Definition combine (ws : list Texts) : Texts :=
  (normalize_whitespace (join (map fst ws)),
   Some (normalize_whitespace (join (omap snd ws)))).

(** The outputs of the variants of a list entry with a declared output:
    the first one carries it, the others carry none. *)
Definition relabel (out : string) (ts : list Texts) : list Texts :=
  match ts with
  | [] => []
  | t :: rest => (t.1, Some out) :: map (fun t' => (t'.1, None)) rest
  end.

Lemma orel_outcome_map {A1 A2 B1 B2} (f : A1 -> B1) (g : A2 -> B2)
    (R : B1 -> B2 -> Prop) o1 o2 :
  orel (fun a1 a2 => R (f a1) (g a2)) o1 o2 ->
  orel R (outcome_map f o1) (outcome_map g o2).
Proof. by destruct o1, o2. Qed.

Lemma orel_outcome_map_r {A1 A2 B2} (g : A2 -> B2)
    (R : A1 -> B2 -> Prop) o1 o2 :
  orel (fun a1 a2 => R a1 (g a2)) o1 o2 -> orel R o1 (outcome_map g o2).
Proof. by destruct o1, o2. Qed.

Lemma orel_eq_map {A1 A2 B} (f : A1 -> B) (g : A2 -> B) o1 o2 :
  orel (fun a1 a2 => f a1 = g a2) o1 o2 ->
  outcome_map f o1 = outcome_map g o2.
Proof. intros H. apply orel_eq. by apply orel_outcome_map. Qed.

Lemma outcome_map_map {A B C} (f : A -> B) (g : B -> C) (o : outcome A) :
  outcome_map g (outcome_map f o) = outcome_map (fun a => g (f a)) o.
Proof. by destruct o. Qed.

Lemma outcome_map_ext {A B} (f g : A -> B) (o : outcome A) :
  (forall a, f a = g a) -> outcome_map f o = outcome_map g o.
Proof. intros H. destruct o; simpl; by rewrite ?H. Qed.

Lemma texts_of_app ts1 ts2 :
  texts_of (ts1 ++ ts2) = texts_of ts1 ++ texts_of ts2.
Proof. apply map_app. Qed.

Lemma relabel_snoc out ts t :
  relabel out (ts ++ [t])
  = relabel out ts ++ [(t.1, if ts is [] then Some out else None)].
Proof.
  destruct ts as [| t0 ts]; simpl; [done |].
  by rewrite map_app.
Qed.

Section Texts.
Variable slot_lists : gmap string SlotList.
Variable expansion_rules : gmap string Expression.

Local Abbreviation sample :=
  (sample_expression_with_output slot_lists expansion_rules).

(** The texts of the triples of a call that is drained. *)
Definition sample_texts (fuel : nat) (e : Expression)
    : outcome (list Texts) :=
  outcome_map texts_of
    (sample fuel e default_used_substitutions collect [] module_heap).1.

Local Abbreviation anyH := (fun _ _ : heap => True).
Local Abbreviation anyL := (fun _ _ : loc => True).

(** A loop over the generator whose body always returns ends as the
    drained call does, after one step of the body for each triple. *)
Lemma sample_as_fold fuel e us {A} (k : Triple -> A -> M A)
    (R : A -> list Texts -> Prop) a h :
  (forall t b ts g, R b ts ->
     exists b' g', k t b g = (Returned b', g') /\
                   R b' (ts ++ [(input_of t, output_of t)])) ->
  R a [] ->
  orel R (sample fuel e us k a h).1 (sample_texts fuel e).
Proof.
  intros Hk Ha. unfold sample_texts.
  apply orel_outcome_map_r.
  apply (sample_related anyH anyL (fun _ _ => True)); try done.
  intros t1 t2 b1 b2 (Hi & Ho & _) Hb g1 g2 _.
  destruct (Hk t1 b1 _ g1 Hb) as (b' & g' & -> & Hb').
  split; [| done]. simpl.
  rewrite texts_of_app. simpl. by rewrite <- Hi, <- Ho.
Qed.

Lemma sample_collect_texts fuel e us acc h :
  outcome_map texts_of (sample fuel e us collect acc h).1
  = outcome_map (app (texts_of acc)) (sample_texts fuel e).
Proof.
  apply orel_eq_map.
  apply (sample_as_fold fuel e us collect
           (fun b ts => texts_of b = texts_of acc ++ ts)).
  - intros t b ts g Hb. eexists _, _. split; [done |].
    by rewrite texts_of_app, Hb, <- app_assoc.
  - by rewrite app_nil_r.
Qed.

(** The texts do not depend on the heap or on the starting dictionary. *)
Lemma sample_texts_any fuel e us h :
  outcome_map texts_of (sample fuel e us collect [] h).1
  = sample_texts fuel e.
Proof.
  rewrite sample_collect_texts. by destruct (sample_texts fuel e).
Qed.
End Texts.

(** ** The texts of each kind of expression *)

Lemma bind_returned {A B} (m : M A) (f : A -> M B) h a h' :
  m h = (Returned a, h') -> bind m f h = f a h'.
Proof. unfold bind. by intros ->. Qed.

Lemma bind_raised {A B} (m : M A) (f : A -> M B) h e h' :
  m h = (Raised e, h') -> bind m f h = (Raised e, h').
Proof. unfold bind. by intros ->. Qed.

Lemma bind_out_of_fuel {A B} (m : M A) (f : A -> M B) h h' :
  m h = (OutOfFuel, h') -> bind m f h = (OutOfFuel, h').
Proof. unfold bind. by intros ->. Qed.

Lemma outcome_map_id {A} (o : outcome A) : outcome_map (fun a => a) o = o.
Proof. by destruct o. Qed.

(** A loop whose body appends, for each element, the texts [tx x]. *)
Lemma for_each_texts {X A} (proj : A -> list Triple) (xs : list X)
    (body : X -> A -> M A) (tx : X -> outcome (list Texts)) :
  (forall x acc h,
     outcome_map (fun a => texts_of (proj a)) (body x acc h).1
     = outcome_map (app (texts_of (proj acc))) (tx x)) ->
  forall acc h,
    outcome_map (fun a => texts_of (proj a)) (for_each xs body acc h).1
    = outcome_map (fun tss => texts_of (proj acc) ++ concat tss)
        (all_outcomes (map tx xs)).
Proof.
  intros Hbody. induction xs as [| x xs IH]; intros acc h; simpl.
  - by rewrite app_nil_r.
  - specialize (Hbody x acc h). unfold bind.
    destruct (body x acc h) as [[acc' | err |] h'], (tx x) as [ts | err' |];
      simpl in *; try by simplify_eq.
    injection Hbody as Hacc'. rewrite IH, outcome_map_map, Hacc'.
    apply outcome_map_ext. intros tss. simpl. by rewrite app_assoc.
Qed.

Lemma product_nonempty {X} (pool : list X) (pools : list (list X)) :
  Forall (fun ws => ws <> []) (product (pool :: pools)).
Proof.
  simpl. induction pool as [| x pool IH]; simpl; [constructor |].
  apply Forall_app. split; [| exact IH].
  apply Forall_forall. intros ws Hws.
  apply list_elem_of_In, in_map_iff in Hws as (ws' & <- & _). done.
Qed.

Lemma product_map {X Y} (f : X -> Y) (pools : list (list X)) :
  map (map f) (product pools) = product (map (map f) pools).
Proof.
  induction pools as [| pool pools IH]; simpl; [done |].
  rewrite <- IH. clear IH.
  induction pool as [| x pool IHp]; simpl; [done |].
  rewrite map_app, IHp. f_equal.
  rewrite !map_map. done.
Qed.

(** The number of combinations is the product of the sizes. *)
Lemma length_product {X} (pools : list (list X)) :
  List.length (product pools)
  = fold_right Nat.mul 1 (map (@List.length X) pools).
Proof.
  induction pools as [| pool pools IH]; simpl; [done |].
  rewrite <- IH. clear IH.
  induction pool as [| x pool IHp]; simpl; [done |].
  by rewrite length_app, length_map, IHp.
Qed.

Lemma texts_of_inputs ws : map fst (texts_of ws) = map input_of ws.
Proof. unfold texts_of. rewrite map_map. done. Qed.

Lemma texts_of_outputs ws : omap snd (texts_of ws) = omap output_of ws.
Proof.
  induction ws as [| w ws IH]; [done |].
  change (omap snd (texts_of (w :: ws))) with
    (match output_of w with
     | Some y => y :: omap snd (texts_of ws)
     | None => omap snd (texts_of ws)
     end).
  change (omap output_of (w :: ws)) with
    (match output_of w with
     | Some y => y :: omap output_of ws
     | None => omap output_of ws
     end).
  by rewrite IH.
Qed.

Lemma reduce_merge_returns (ctxs : list loc) (h : heap) :
  ctxs <> [] ->
  exists h', reduce_merge ctxs h = (Returned (List.hd 0 ctxs), h').
Proof.
  destruct ctxs as [| base rest]; [done | intros _]. simpl.
  assert (Hloop : forall g, exists g',
            for_each rest
              (fun nxt (_ : unit) =>
                 let* n := read nxt in
                 modify base (fun b => merge_used b n)) tt g
            = (Returned tt, g')).
  { induction rest as [| nxt rest IH]; intros g; simpl; [by eexists |].
    unfold bind at 1. simpl. apply IH. }
  destruct (Hloop h) as [h' Hh']. exists h'.
  by rewrite (bind_returned _ _ _ _ _ Hh').
Qed.

Lemma all_outcomes_length {Y} (os : list (outcome Y)) ys :
  all_outcomes os = Returned ys -> List.length ys = List.length os.
Proof.
  revert ys. induction os as [| [y | err |] os IH]; intros ys; simpl;
    [by intros [= <-] | | done | done].
  destruct (all_outcomes os) as [ys' | err |]; simpl; [| done | done].
  intros [= <-]. simpl. by rewrite (IH ys').
Qed.

Section Equations.
Variable slot_lists : gmap string SlotList.
Variable expansion_rules : gmap string Expression.

Local Abbreviation sample :=
  (sample_expression_with_output slot_lists expansion_rules).
Local Abbreviation texts := (sample_texts slot_lists expansion_rules).

Lemma texts_out_of_fuel e : texts 0 e = OutOfFuel.
Proof. done. Qed.

Lemma texts_chunk fuel text :
  texts (S fuel) (TextChunk text) = Returned [(text, Some text)].
Proof. done. Qed.

Lemma texts_permutation fuel items :
  texts (S fuel) (Sequence PERMUTATION items) = Raised ValueError.
Proof. done. Qed.

Lemma texts_alternative fuel items :
  texts (S fuel) (Sequence ALTERNATIVE items)
  = outcome_map (fun tss => concat tss)
      (all_outcomes (map (texts fuel) items)).
Proof.
  unfold sample_texts at 1. simpl. unfold bind at 1. simpl.
  rewrite (for_each_texts (fun a => a) _ _ (texts fuel)).
  - by apply outcome_map_ext.
  - intros item acc h. apply sample_collect_texts.
Qed.

Lemma texts_rule fuel rule_name :
  texts (S fuel) (RuleReference rule_name)
  = match expansion_rules !! rule_name with
    | None => Raised (MissingRuleError rule_name)
    | Some rule_body => texts fuel rule_body
    end.
Proof.
  unfold sample_texts at 1. simpl. unfold bind at 1. simpl.
  destruct (expansion_rules !! rule_name) as [rule_body |]; [| done].
  unfold bind. simpl. apply sample_texts_any.
Qed.

Lemma map_m_texts fuel items used h :
  outcome_map (map texts_of)
    (map_m (fun item => sample fuel item used collect []) items h).1
  = all_outcomes (map (texts fuel) items).
Proof.
  revert h. induction items as [| item items IH]; intros h; simpl; [done |].
  unfold bind at 1.
  pose proof (sample_texts_any slot_lists expansion_rules fuel item used h)
    as Hitem.
  destruct (sample fuel item used collect [] h) as [[ts | err |] h'],
           (texts fuel item) as [ts' | err' |]; simpl in *; try by simplify_eq.
  injection Hitem as <-. specialize (IH h'). unfold bind.
  destruct (map_m _ items h') as [[pools | err |] h''],
           (all_outcomes _) as [pools' | err' |]; simpl in *; by simplify_eq.
Qed.

Lemma texts_group fuel items :
  texts (S fuel) (Sequence GROUP items)
  = match all_outcomes (map (texts fuel) items) with
    | Returned pools =>
        match items with
        | [] => Raised TypeError
        | _ :: _ => Returned (map combine (product pools))
        end
    | Raised err => Raised err
    | OutOfFuel => OutOfFuel
    end.
Proof.
  destruct items as [| item items]; [done |].
  unfold sample_texts at 1.
  cbn [sample_expression_with_output].
  erewrite bind_returned by reflexivity.
  pose proof (map_m_texts fuel (item :: items) (List.length module_heap)
                (module_heap ++ [module_heap !!! default_used_substitutions]))
    as Hpools.
  destruct (map_m _ (item :: items) _) as [[pools | err |] h'] eqn:Hm;
    [erewrite bind_returned by exact Hm
    | erewrite bind_raised by exact Hm
    | erewrite bind_out_of_fuel by exact Hm];
    destruct (all_outcomes _) as [pools' | err' |] eqn:Hlen;
    simpl in Hpools; try by simplify_eq.
  injection Hpools as <-.
  apply all_outcomes_length in Hlen. rewrite length_map in Hlen.
  destruct pools as [| pool pools]; [done |].
  pose (tx := fun ws : list Triple =>
                if ws is [] then Raised TypeError
                else Returned [combine (texts_of ws)]).
  rewrite (for_each_texts (fun a => a) _ _ tx).
  - assert (Hall : forall combos : list (list Triple),
              Forall (fun ws => ws <> []) combos ->
              all_outcomes (map tx combos)
              = Returned (map (fun ws => [combine (texts_of ws)]) combos)).
    { induction 1 as [| ws combos Hws _ IHc]; simpl; [done |].
      rewrite IHc. by destruct ws. }
    rewrite Hall by apply product_nonempty.
    change (map texts_of (pool :: pools))
      with (map (map (fun t : Triple => (input_of t, output_of t)))
              (pool :: pools)).
    rewrite <- product_map.
    generalize (product (pool :: pools)). intros combos.
    simpl. f_equal.
    induction combos as [| ws combos IHc]; simpl; [done |].
    by rewrite IHc.
  - intros ws acc h. unfold tx.
    destruct ws as [| w ws]; [done |].
    destruct (reduce_merge_returns (map used_of (w :: ws)) h) as [g Hg];
      [done |].
    rewrite (bind_returned _ _ _ _ _ Hg). simpl.
    rewrite texts_of_app. simpl. unfold combine.
    by rewrite <- texts_of_inputs, <- texts_of_outputs.
Qed.
(** The texts of one entry of a slot list: an entry whose [value_out] is
    true in Python's sense gives its declared output to its first variant
    and none to the others; any other entry passes its texts through. *)
Definition entry_texts (fuel : nat) (v : TextSlotValue)
    : outcome (list Texts) :=
  if truthy (value_out v)
  then outcome_map (relabel (default EmptyString (value_out v)))
         (texts fuel (text_in v))
  else texts fuel (text_in v).

Lemma orel_mono {A1 A2} (R R' : A1 -> A2 -> Prop) o1 o2 :
  (forall a1 a2, R a1 a2 -> R' a1 a2) -> orel R o1 o2 -> orel R' o1 o2.
Proof. intros HR. destruct o1, o2; simpl; auto. Qed.

Lemma bind_ret_map {A B C} (m : M A) (g : A -> B) (f : B -> C) h :
  outcome_map f (bind m (fun r => ret (g r)) h).1
  = outcome_map (fun r => f (g r)) (m h).1.
Proof. unfold bind. by destruct (m h) as [[r | err |] h']. Qed.

Lemma texts_list fuel list_name :
  texts (S fuel) (ListReference list_name)
  = match slot_lists !! list_name with
    | None => Raised (MissingListError list_name)
    | Some (TextSlotList values) =>
        outcome_map (fun tss => concat tss)
          (all_outcomes (map (entry_texts fuel) values))
    | Some (RangeSlotList _ _) => Raised ValueError
    end.
Proof.
  unfold sample_texts at 1. cbn [sample_expression_with_output].
  erewrite bind_returned by reflexivity.
  destruct (slot_lists !! list_name) as [[values | start stop] |];
    [| done | done].
  rewrite bind_ret_map.
  rewrite (for_each_texts snd _ _ (entry_texts fuel)).
  { by apply outcome_map_ext. }
  intros v [u acc] h. unfold entry_texts. cbn [snd].
  destruct (truthy (value_out v)).
  - rewrite (bind_ret_map _ (fun r => (r.1.2, r.2)) (fun a => texts_of a.2)).
    cbn [snd]. rewrite outcome_map_map.
    apply orel_eq_map.
    set (out := default EmptyString (value_out v)).
    eapply orel_mono;
      [| eapply (sample_as_fold slot_lists expansion_rules fuel (text_in v)
                   u _
                   (fun st ts =>
                      st.1.1 = (if ts is [] then true else false) /\
                      texts_of st.2 = texts_of acc ++ relabel out ts))].
    + by intros st ts [_ Hst].
    + intros t [[is_first c] acc'] ts g [Hfirst Hacc]; simpl in *.
      eexists _, _. split; [reflexivity |]. simpl. split.
      * by destruct ts.
      * rewrite texts_of_app, Hacc, relabel_snoc, <- app_assoc. simpl.
        subst is_first. by destruct ts.
    + simpl. by rewrite app_nil_r.
  - erewrite bind_returned by reflexivity.
    rewrite (bind_ret_map _ (fun acc' => (u, acc')) (fun a => texts_of a.2)).
    cbn [snd]. apply sample_collect_texts.
Qed.
End Equations.

(** ** Occurrences of a placeholder in a text *)

Local Open Scope string_scope.

(** [old] occurs in [s] between [pre] and [post]. *)
Definition occurs_at (old s pre post : string) : Prop :=
  s = pre ++ old ++ post.

(** The occurrence after [pre] is the leftmost one. *)
Definition first_occurrence (old s pre post : string) : Prop :=
  occurs_at old s pre post /\
  forall pre' post', occurs_at old s pre' post' ->
                     String.length pre <= String.length pre'.

(** [s'] is [s] with the leftmost occurrence of [old], and only that one,
    replaced by [new]; a text without occurrence is unchanged. *)
Definition first_replaced (old new s s' : string) : Prop :=
  (exists pre post, first_occurrence old s pre post /\
                    s' = pre ++ new ++ post) \/
  ((forall pre post, ~ occurs_at old s pre post) /\ s' = s).

(** The recorded names, in the order of the two loops of
    [__substitute], each with its placeholder and its value. *)
Definition recorded (used : UsedSubstitutions)
    : list (string * option string) :=
  map (fun kv => (list_placeholder kv.1, kv.2)) (lists used)
  ++ map (fun kv => (rule_placeholder kv.1, Some kv.2)) (exp_rules used).

(** One replacement of the first occurrence per recorded name, one name
    after the other. *)
Inductive resolved : list (string * option string) -> string -> string
                     -> Prop :=
| resolved_nil s : resolved [] s s
| resolved_cons old new rest s s' s'' :
    first_replaced old new s s' ->
    resolved rest s' s'' ->
    resolved ((old, Some new) :: rest) s s''.

(** The split of [s] at the leftmost occurrence of [old]. *)
Fixpoint find_first (old s : string) : option (string * string) :=
  if starts_with old s
  then Some ("", drop_chars (String.length old) s)
  else match s with
       | EmptyString => None
       | String c s' =>
           match find_first old s' with
           | Some (pre, post) => Some (String c pre, post)
           | None => None
           end
       end.

Lemma append_cons (c : ascii) (s1 s2 : string) :
  String c s1 ++ s2 = String c (s1 ++ s2).
Proof. reflexivity. Qed.

Lemma append_nil_l (s : string) : "" ++ s = s.
Proof. reflexivity. Qed.

Lemma append_assoc (s1 s2 s3 : string) : (s1 ++ s2) ++ s3 = s1 ++ s2 ++ s3.
Proof.
  induction s1 as [| c s1 IH]; [done |].
  by rewrite !append_cons, IH.
Qed.

Lemma append_nil_r (s : string) : s ++ "" = s.
Proof.
  induction s as [| c s IH]; [done |].
  by rewrite append_cons, IH.
Qed.

Lemma starts_with_append old rest : starts_with old (old ++ rest) = true.
Proof.
  induction old as [| c old IH]; [done |].
  rewrite append_cons. simpl. by rewrite Ascii.eqb_refl, IH.
Qed.

Lemma starts_with_inv old s :
  starts_with old s = true -> s = old ++ drop_chars (String.length old) s.
Proof.
  revert s. induction old as [| c old IH]; intros s; simpl; [done |].
  destruct s as [| d s]; [done |]. intros H.
  apply andb_prop in H as [Hc Hs]. apply Ascii.eqb_eq in Hc as ->.
  rewrite append_cons. by rewrite <- (IH s Hs).
Qed.

Lemma find_first_spec old s :
  match find_first old s with
  | Some (pre, post) => first_occurrence old s pre post
  | None => forall pre post, ~ occurs_at old s pre post
  end.
Proof.
  induction s as [| c s IH]; simpl.
  - destruct (starts_with old "") eqn:Hstart.
    + split.
      * unfold occurs_at. rewrite append_nil_l. by apply starts_with_inv.
      * intros pre' post' _. simpl. lia.
    + intros pre post Hocc. unfold occurs_at in Hocc.
      destruct pre; [| done]. rewrite append_nil_l in Hocc.
      destruct old; [done | done].
  - destruct (starts_with old (String c s)) eqn:Hstart.
    + split.
      * unfold occurs_at. rewrite append_nil_l. by apply starts_with_inv.
      * intros pre' post' _. simpl. lia.
    + assert (Hpre : forall pre' post',
                occurs_at old (String c s) pre' post' ->
                exists pre'', pre' = String c pre'' /\
                              occurs_at old s pre'' post').
      { intros pre' post' Hocc. unfold occurs_at in Hocc.
        destruct pre' as [| d pre''].
        - rewrite append_nil_l in Hocc.
          rewrite Hocc, starts_with_append in Hstart. done.
        - rewrite append_cons in Hocc. injection Hocc as -> Hs.
          by exists pre''. }
      destruct (find_first old s) as [[pre post] |].
      * destruct IH as [Hocc Hmin]. split.
        -- unfold occurs_at in *. rewrite append_cons. by rewrite <- Hocc.
        -- intros pre' post' Hocc'.
           destruct (Hpre _ _ Hocc') as (pre'' & -> & Hocc'').
           simpl. apply Hmin in Hocc''. lia.
      * intros pre' post' Hocc'.
        destruct (Hpre _ _ Hocc') as (pre'' & -> & Hocc'').
        by apply (IH pre'' post').
Qed.

Lemma replace_first_find old new s :
  replace_first old new s
  = match find_first old s with
    | Some (pre, post) => pre ++ new ++ post
    | None => s
    end.
Proof.
  induction s as [| c s IH]; simpl.
  - by destruct (starts_with old "").
  - destruct (starts_with old (String c s)); [done |].
    rewrite IH. by destruct (find_first old s) as [[pre post] |].
Qed.

(** [str.replace(old, new, 1)] replaces the leftmost occurrence only. *)
Lemma replace_first_spec old new s :
  first_replaced old new s (replace_first old new s).
Proof.
  rewrite replace_first_find. pose proof (find_first_spec old s) as H.
  destruct (find_first old s) as [[pre post] |].
  - left. by exists pre, post.
  - by right.
Qed.

Lemma first_occurrence_unique old s pre post pre' post' :
  first_occurrence old s pre post -> first_occurrence old s pre' post' ->
  pre = pre' /\ post = post'.
Proof.
  intros [Hocc Hmin] [Hocc' Hmin'].
  pose proof (Hmin _ _ Hocc') as Hle. pose proof (Hmin' _ _ Hocc) as Hge.
  assert (Hlen : String.length pre = String.length pre') by lia.
  clear Hmin Hmin' Hle Hge. unfold occurs_at in *. subst s.
  revert pre' Hocc' Hlen. induction pre as [| c pre IH]; intros pre' Heq Hlen.
  - destruct pre'; [| done]. rewrite !append_nil_l in Heq.
    split; [done |]. by apply (String.app_inj old).
  - destruct pre' as [| c' pre']; [done |]. rewrite !append_cons in Heq.
    injection Heq as -> Heq. injection Hlen as Hlen.
    destruct (IH pre' Heq Hlen) as [-> ->]. done.
Qed.

Lemma replace_first_at old new s pre post :
  first_occurrence old s pre post ->
  replace_first old new s = pre ++ new ++ post.
Proof.
  intros Hfirst. rewrite replace_first_find.
  pose proof (find_first_spec old s) as H.
  destruct (find_first old s) as [[pre' post'] |].
  - by destruct (first_occurrence_unique _ _ _ _ _ _ H Hfirst) as [-> ->].
  - destruct Hfirst as [Hocc _]. by destruct (H pre post).
Qed.

Lemma substitute_rules_resolved items s :
  resolved (map (fun kv => (rule_placeholder kv.1, Some kv.2)) items) s
    (substitute_rules items s).
Proof.
  revert s. induction items as [| [name value] items IH]; intros s; simpl.
  - constructor.
  - econstructor; [apply replace_first_spec | apply IH].
Qed.

Lemma resolved_app l1 l2 s s' s'' :
  resolved l1 s s' -> resolved l2 s' s'' -> resolved (l1 ++ l2) s s''.
Proof.
  induction 1 as [| old new rest s0 s1 s2 Hfirst _ IH]; intros H2; simpl;
    [done |].
  econstructor; [exact Hfirst | by apply IH].
Qed.

Lemma substitute_lists_spec items s :
  match substitute_lists items s with
  | Returned s' =>
      resolved (map (fun kv => (list_placeholder kv.1, kv.2)) items) s s'
  | Raised err => err = TypeError /\ exists name, (name, None) ∈ items
  | OutOfFuel => False
  end.
Proof.
  revert s. induction items as [| [name [value |]] items IH]; intros s; simpl.
  - constructor.
  - specialize (IH (replace_first (list_placeholder name) value s)).
    destruct (substitute_lists items _) as [s' | err |]; [| | done].
    + econstructor; [apply replace_first_spec | exact IH].
    + destruct IH as [-> [name' Hin]]. split; [done |].
      exists name'. by right.
  - split; [done |]. exists name. by left.
Qed.

Local Close Scope string_scope.

(** ** The choice made by [extractOne] *)

(** What the loop knows after the rows [seen]. *)
Definition best_so_far (query : string) (seen : list (string * string))
    (result : option (string * string * nat)) : Prop :=
  match result with
  | None => seen = []
  | Some (row, score) => best_match query seen row score
  end.

Lemma best_match_later query seen row score later :
  best_match query seen row score ->
  Forall (fun r => score <= distance query r.1) later ->
  best_match query (seen ++ later) row score.
Proof.
  intros (Hscore & before & after & -> & Hbefore & Hafter) Hlater.
  split; [done |]. exists before, (after ++ later). split_and!.
  - by rewrite <- app_assoc.
  - done.
  - by apply Forall_app.
Qed.

Lemma best_match_all query seen row score :
  best_match query seen row score ->
  Forall (fun r => score <= distance query r.1) seen.
Proof.
  intros (Hscore & before & after & -> & Hbefore & Hafter).
  apply Forall_app. split.
  - eapply Forall_impl; [exact Hbefore |]. simpl. lia.
  - constructor; [lia | done].
Qed.

Lemma best_match_new query seen choice later :
  Forall (fun r => distance query choice.1 < distance query r.1) seen ->
  Forall (fun r => distance query choice.1 <= distance query r.1) later ->
  best_match query (seen ++ choice :: later) choice (distance query choice.1).
Proof. intros Hseen Hlater. split; [done |]. by exists seen, later. Qed.

Lemma extract_loop_spec query choices :
  forall seen result,
    best_so_far query seen result ->
    best_so_far query (seen ++ choices) (extract_loop query choices result).
Proof.
  induction choices as [| choice choices IH]; intros seen result Hbest.
  - by rewrite app_nil_r.
  - cbn [extract_loop]. cbv zeta.
    assert (Hzero : distance query choice.1 = 0 ->
              Forall (fun r => distance query choice.1 <= distance query r.1)
                choices).
    { intros ->. apply Forall_forall. intros. lia. }
    assert (Hnext : forall seen',
              seen' = seen ++ [choice] ->
              seen ++ choice :: choices = seen' ++ choices).
    { intros seen' ->. by rewrite <- app_assoc. }
    destruct result as [[row best] |]; simpl in Hbest.
    + destruct (Nat.ltb_spec (distance query choice.1) best) as [Hlt | Hge].
      * assert (Hseen : Forall (fun r => distance query choice.1
                                         < distance query r.1) seen).
        { eapply Forall_impl; [eapply best_match_all; exact Hbest |].
          simpl. lia. }
        destruct (Nat.eqb_spec (distance query choice.1) 0) as [H0 | Hn0].
        -- simpl. by apply best_match_new; [| apply Hzero].
        -- rewrite (Hnext _ eq_refl). apply IH. simpl.
           by apply best_match_new.
      * rewrite (Hnext _ eq_refl). apply IH. simpl.
        apply best_match_later; [done |]. by constructor.
    + subst seen. simpl.
      destruct (Nat.eqb_spec (distance query choice.1) 0) as [H0 | Hn0].
      * simpl. by apply (best_match_new query []); [| apply Hzero].
      * apply (IH [choice]). simpl. by apply (best_match_new query [] _ []).
Qed.

Lemma extractOne_spec query rows :
  match extractOne query rows with
  | None => rows = []
  | Some (row, score) => best_match query rows row score
  end.
Proof. apply (extract_loop_spec query rows [] None). done. Qed.

(** ** Grammars in which every referenced name is defined *)

Section Names.
Variable slot_lists : gmap string SlotList.
Variable expansion_rules : gmap string Expression.

(** Every list and rule that [e] refers to is defined. *)
Fixpoint names_defined (e : Expression) : bool :=
  match e with
  | TextChunk _ => true
  | Sequence _ items => forallb names_defined items
  | ListReference list_name => bool_decide (is_Some (slot_lists !! list_name))
  | RuleReference rule_name =>
      bool_decide (is_Some (expansion_rules !! rule_name))
  end.

(** The same for every rule body and every input of a list value. *)
Definition grammar_closed : bool :=
  forallb (fun kv => names_defined kv.2) (map_to_list expansion_rules)
  && forallb
       (fun kv =>
          match kv.2 with
          | TextSlotList values =>
              forallb (fun v => names_defined (text_in v)) values
          | RangeSlotList _ _ => true
          end)
       (map_to_list slot_lists).

(** The outcome is not one of the two errors for a missing name. *)
Definition no_missing_name {A} (o : outcome A) : Prop :=
  match o with
  | Raised (MissingListError _) | Raised (MissingRuleError _) => False
  | _ => True
  end.

Lemma grammar_closed_rule rule_name rule_body :
  grammar_closed = true ->
  expansion_rules !! rule_name = Some rule_body ->
  names_defined rule_body = true.
Proof.
  unfold grammar_closed. intros Hclosed Hrule.
  apply andb_prop in Hclosed as [Hrules _].
  rewrite forallb_forall in Hrules.
  apply (Hrules (rule_name, rule_body)).
  apply list_elem_of_In. by apply elem_of_map_to_list.
Qed.

Lemma grammar_closed_list list_name values v :
  grammar_closed = true ->
  slot_lists !! list_name = Some (TextSlotList values) ->
  In v values ->
  names_defined (text_in v) = true.
Proof.
  unfold grammar_closed. intros Hclosed Hlist Hv.
  apply andb_prop in Hclosed as [_ Hlists].
  rewrite forallb_forall in Hlists.
  specialize (Hlists (list_name, TextSlotList values)). simpl in Hlists.
  rewrite forallb_forall in Hlists. apply Hlists; [| done].
  apply list_elem_of_In. by apply elem_of_map_to_list.
Qed.

Lemma no_missing_name_map {A B} (f : A -> B) (o : outcome A) :
  no_missing_name o -> no_missing_name (outcome_map f o).
Proof. by destruct o. Qed.

Lemma no_missing_name_all {Y} (os : list (outcome Y)) :
  Forall no_missing_name os -> no_missing_name (all_outcomes os).
Proof.
  induction 1 as [| o os Ho _ IH]; simpl; [done |].
  destruct o as [y | err |]; [| done | done].
  by apply no_missing_name_map.
Qed.

Lemma texts_no_missing_name fuel :
  grammar_closed = true ->
  forall e, names_defined e = true ->
            no_missing_name (sample_texts slot_lists expansion_rules fuel e).
Proof.
  intros Hclosed. induction fuel as [| fuel IH]; intros e He; [done |].
  destruct e as [text | [ | | ] items | list_name | rule_name].
  - done.
  - rewrite texts_group.
    assert (Hall : no_missing_name
              (all_outcomes
                 (map (sample_texts slot_lists expansion_rules fuel) items))).
    { apply no_missing_name_all, Forall_forall. intros o Ho.
      apply list_elem_of_In, in_map_iff in Ho as (item & <- & Hitem).
      apply IH. simpl in He. rewrite forallb_forall in He. by apply He. }
    destruct (all_outcomes _) as [pools | err |]; [| done | done].
    by destruct items.
  - rewrite texts_alternative. apply no_missing_name_map.
    apply no_missing_name_all, Forall_forall. intros o Ho.
    apply list_elem_of_In, in_map_iff in Ho as (item & <- & Hitem).
    apply IH. simpl in He. rewrite forallb_forall in He. by apply He.
  - by rewrite texts_permutation.
  - rewrite texts_list. simpl in He. apply bool_decide_eq_true in He.
    destruct He as [slot_list Hlist]. rewrite Hlist.
    destruct slot_list as [values | start stop]; [| done].
    apply no_missing_name_map.
    apply no_missing_name_all, Forall_forall. intros o Ho.
    apply list_elem_of_In, in_map_iff in Ho as (v & <- & Hv).
    unfold entry_texts.
    assert (Hv' : no_missing_name
              (sample_texts slot_lists expansion_rules fuel (text_in v))).
    { apply IH. by eapply grammar_closed_list. }
    destruct (truthy (value_out v)); [by apply no_missing_name_map | done].
  - rewrite texts_rule. simpl in He. apply bool_decide_eq_true in He.
    destruct He as [rule_body Hrule]. rewrite Hrule.
    apply IH. by eapply grammar_closed_rule.
Qed.
End Names.

(** ** Grammars without recursion

    The sampler follows references into list values and rule bodies, so
    a rule that refers to itself makes it recurse for ever.  A grammar is
    stratified when every list and rule can be given a level above the
    depth of what it refers to; then a recursion budget above the depth
    of the expression is enough. *)

Section Termination.
Variable slot_lists : gmap string SlotList.
Variable expansion_rules : gmap string Expression.
Variable list_level rule_level : string -> nat.

(** The nesting depth of [e], a reference counting for the level of its
    name. *)
Fixpoint depth (e : Expression) : nat :=
  match e with
  | TextChunk _ => 0
  | Sequence _ items => S (list_max (map depth items))
  | ListReference list_name => S (list_level list_name)
  | RuleReference rule_name => S (rule_level rule_name)
  end.

Definition stratified : bool :=
  forallb (fun kv => Nat.leb (depth kv.2) (rule_level kv.1))
    (map_to_list expansion_rules)
  && forallb
       (fun kv =>
          match kv.2 with
          | TextSlotList values =>
              forallb
                (fun v => Nat.leb (depth (text_in v)) (list_level kv.1))
                values
          | RangeSlotList _ _ => true
          end)
       (map_to_list slot_lists).

Lemma stratified_rule rule_name rule_body :
  stratified = true ->
  expansion_rules !! rule_name = Some rule_body ->
  depth rule_body <= rule_level rule_name.
Proof.
  unfold stratified. intros Hs Hrule.
  apply andb_prop in Hs as [Hrules _].
  rewrite forallb_forall in Hrules.
  apply Nat.leb_le, (Hrules (rule_name, rule_body)).
  apply list_elem_of_In. by apply elem_of_map_to_list.
Qed.

Lemma stratified_list list_name values v :
  stratified = true ->
  slot_lists !! list_name = Some (TextSlotList values) ->
  In v values ->
  depth (text_in v) <= list_level list_name.
Proof.
  unfold stratified. intros Hs Hlist Hv.
  apply andb_prop in Hs as [_ Hlists].
  rewrite forallb_forall in Hlists.
  specialize (Hlists (list_name, TextSlotList values)). simpl in Hlists.
  rewrite forallb_forall in Hlists. apply Nat.leb_le, Hlists; [| done].
  apply list_elem_of_In. by apply elem_of_map_to_list.
Qed.

Lemma all_outcomes_in_fuel {Y} (os : list (outcome Y)) :
  Forall (fun o => o <> OutOfFuel) os -> all_outcomes os <> OutOfFuel.
Proof.
  induction 1 as [| o os Ho _ IH]; simpl; [done |].
  destruct o as [y | err |]; [| done | done].
  by destruct (all_outcomes os).
Qed.

Lemma outcome_map_in_fuel {A B} (f : A -> B) (o : outcome A) :
  o <> OutOfFuel -> outcome_map f o <> OutOfFuel.
Proof. by destruct o. Qed.

Lemma depth_item type items item :
  In item items -> depth item < depth (Sequence type items).
Proof.
  intros Hin. simpl.
  assert (H : Forall (fun k => k <= list_max (map depth items))
                (map depth items)) by by apply list_max_le.
  rewrite Forall_forall in H.
  specialize (H (depth item)). unfold lt. apply le_n_S, H.
  apply list_elem_of_In, in_map_iff. by exists item.
Qed.

(** With a budget above the depth, draining the generator ends: it
    returns the triples or raises. *)
Lemma texts_in_fuel fuel :
  stratified = true ->
  forall e, depth e < fuel ->
            sample_texts slot_lists expansion_rules fuel e <> OutOfFuel.
Proof.
  intros Hs. induction fuel as [| fuel IH]; intros e He; [lia |].
  assert (Hitems : forall type items,
            depth (Sequence type items) < S fuel ->
            all_outcomes
              (map (sample_texts slot_lists expansion_rules fuel) items)
            <> OutOfFuel).
  { intros type items Hd. apply all_outcomes_in_fuel, Forall_forall.
    intros o Ho.
    apply list_elem_of_In, in_map_iff in Ho as (item & <- & Hitem).
    apply IH. pose proof (depth_item type items item Hitem). lia. }
  destruct e as [text | [ | | ] items | list_name | rule_name].
  - done.
  - rewrite texts_group. specialize (Hitems _ _ He).
    destruct (all_outcomes _) as [pools | err |]; [| done | done].
    by destruct items.
  - rewrite texts_alternative. apply outcome_map_in_fuel. by eapply Hitems.
  - by rewrite texts_permutation.
  - rewrite texts_list.
    destruct (slot_lists !! list_name) as [[values | start stop] |] eqn:Hlist;
      [| done | done].
    apply outcome_map_in_fuel, all_outcomes_in_fuel, Forall_forall.
    intros o Ho.
    apply list_elem_of_In, in_map_iff in Ho as (v & <- & Hv).
    assert (Hv' : sample_texts slot_lists expansion_rules fuel (text_in v)
                  <> OutOfFuel).
    { apply IH. pose proof (stratified_list _ _ _ Hs Hlist Hv).
      simpl in He. lia. }
    unfold entry_texts.
    destruct (truthy (value_out v)); [by apply outcome_map_in_fuel | done].
  - rewrite texts_rule.
    destruct (expansion_rules !! rule_name) as [rule_body |] eqn:Hrule;
      [| done].
    apply IH. pose proof (stratified_rule _ _ Hs Hrule). simpl in He. lia.
Qed.

(** The same for a loop over the generator whose body always returns. *)
Lemma sample_in_fuel fuel e us {A} (k : Triple -> A -> M A) a h :
  stratified = true -> depth e < fuel ->
  (forall t b g, exists b' g', k t b g = (Returned b', g')) ->
  (sample_expression_with_output slot_lists expansion_rules fuel e us k a h).1
  <> OutOfFuel.
Proof.
  intros Hs He Hk Hout.
  pose proof (sample_as_fold slot_lists expansion_rules fuel e us k
                (fun _ _ => True) a h) as Hfold.
  rewrite Hout in Hfold.
  pose proof (texts_in_fuel fuel Hs e He) as Htexts.
  destruct (sample_texts slot_lists expansion_rules fuel e);
    simpl in Hfold; try done; apply Hfold; try done;
    intros t b ts g _; destruct (Hk t b g) as (b' & g' & ->); by eexists _, _.
Qed.
End Termination.

(** A larger budget does not change a result that a smaller one gave. *)

Lemma all_outcomes_stable {X Y} (g g' : X -> outcome Y) (xs : list X) :
  (forall x, In x xs -> g x <> OutOfFuel -> g' x = g x) ->
  all_outcomes (map g xs) <> OutOfFuel ->
  all_outcomes (map g' xs) = all_outcomes (map g xs).
Proof.
  induction xs as [| x xs IH]; intros Hg Hall; [done |]. simpl in *.
  destruct (g x) as [y | err |] eqn:Hx; [| | done].
  - rewrite (Hg x) by (auto; congruence). rewrite Hx. rewrite IH; [done | |].
    + intros x' Hx'. apply Hg. by right.
    + intros Hrest. by rewrite Hrest in Hall.
  - rewrite (Hg x) by (auto; congruence). by rewrite Hx.
Qed.

Lemma texts_fuel_mono slot_lists expansion_rules fuel :
  forall e,
    sample_texts slot_lists expansion_rules fuel e <> OutOfFuel ->
    sample_texts slot_lists expansion_rules (S fuel) e
    = sample_texts slot_lists expansion_rules fuel e.
Proof.
  induction fuel as [| fuel IH]; intros e He; [done |].
  destruct e as [text | [ | | ] items | list_name | rule_name].
  - done.
  - rewrite !texts_group in *.
    rewrite (all_outcomes_stable
               (sample_texts slot_lists expansion_rules fuel)); [done | |].
    + intros item _. apply IH.
    + intros Hall. by rewrite Hall in He.
  - rewrite !texts_alternative in *.
    rewrite (all_outcomes_stable
               (sample_texts slot_lists expansion_rules fuel)); [done | |].
    + intros item _. apply IH.
    + intros Hall. by rewrite Hall in He.
  - done.
  - rewrite !texts_list in *.
    destruct (slot_lists !! list_name) as [[values | start stop] |];
      [| done | done].
    rewrite (all_outcomes_stable
               (entry_texts slot_lists expansion_rules fuel)); [done | |].
    + intros v _. unfold entry_texts.
      destruct (truthy (value_out v)).
      * intros Hv. rewrite IH; [done |].
        intros Hout. by rewrite Hout in Hv.
      * apply IH.
    + intros Hall. by rewrite Hall in He.
  - rewrite !texts_rule in *.
    destruct (expansion_rules !! rule_name) as [rule_body |]; [| done].
    by apply IH.
Qed.

(** ** Examples of grammars *)

Definition text_value (text : string) : TextSlotValue :=
  {| text_in := TextChunk text; value_out := Some text |}.

(** [lists: {color: [red, blue], size: [big]}] *)
Definition color_size_lists : gmap string SlotList :=
  <["color" := TextSlotList [text_value "red"; text_value "blue"]]>
    (<["size" := TextSlotList [text_value "big"]]> ∅).

(** [the ({color}|{size})] *)
Definition the_color_or_size : Expression :=
  Sequence GROUP
    [TextChunk "the ";
     Sequence ALTERNATIVE [ListReference "color"; ListReference "size"]].

(** ** Properties of the sampler *)

(** Both views of two successive calls with the default argument. *)
Definition runs_identical (slot_lists : gmap string SlotList)
    (expansion_rules : gmap string Expression) (fuel : nat)
    (e : Expression) (h : heap) : Prop :=
  let sample {A} := @sample_expression_with_output slot_lists expansion_rules
                      fuel e default_used_substitutions A in
  let first := sample observe [] h in
  let second := sample observe [] first.2 in
  let first_drained := sample collect [] h in
  let second_drained := sample collect [] first_drained.2 in
  (forall l, l < List.length h ->
     first.2 !! l = h !! l /\ first_drained.2 !! l = h !! l) /\
  second.1 = first.1 /\
  drained second_drained = drained first_drained.

(** C9: two successive invocations of the sampler with the same
    expression, slot lists and expansion rules, both with the default
    substitution dictionary, produce the same sequence of triples (the
    texts and the content of the yielded dictionaries, seen at each yield
    or after draining the generator), or fail in the same way; the
    sequence is finite: in a grammar without recursion a budget above the
    depth of the expression is never exhausted.  No object that existed
    before an invocation, the default dictionary among them, is changed
    by it, whatever the loop that consumes the generator does to the
    dictionaries it is given. *)
Theorem sampler_two_runs_identical slot_lists expansion_rules fuel e
    (h : heap) :
  default_used_substitutions < List.length h ->
  runs_identical slot_lists expansion_rules fuel e h /\
  (forall list_level rule_level,
     stratified slot_lists expansion_rules list_level rule_level = true ->
     depth list_level rule_level e < fuel ->
     (sample_expression_with_output slot_lists expansion_rules fuel e
        default_used_substitutions observe [] h).1 <> OutOfFuel) /\
  (forall {A} (k : Triple -> A -> M A) a,
     (forall t b g, fresh h (used_of t) -> preserves h g ->
                    preserves h (k t b g).2) ->
     preserves h
       (sample_expression_with_output slot_lists expansion_rules fuel e
          default_used_substitutions k a h).2).
Proof.
  intros Hd.
  assert (Hold : forall {A} (k : Triple -> A -> M A) a,
             (forall t b g, (k t b g).2 = g) ->
             forall l, l < List.length h ->
               (sample_expression_with_output slot_lists expansion_rules
                  fuel e default_used_substitutions k a h).2 !! l = h !! l).
  { intros A k a Hk l Hl. by apply sample_keeps_old_objects. }
  split_and!.
  - unfold runs_identical. split_and!.
    + intros l Hl. split; by apply Hold.
    + apply sample_again. rewrite !list_lookup_total_alt.
      by rewrite Hold.
    + apply sample_again. rewrite !list_lookup_total_alt.
      by rewrite Hold.
  - intros list_level rule_level Hs He.
    eapply sample_in_fuel; [exact Hs | exact He |].
    intros t b g. by eexists _, _.
  - intros A k a Hk. by apply sample_preserves.
Qed.

Lemma sampler_two_runs_identical_witness :
  runs_identical color_size_lists ∅ 4 the_color_or_size module_heap /\
  (sample_expression_with_output color_size_lists ∅ 4 the_color_or_size
     default_used_substitutions observe [] module_heap).1 <> OutOfFuel.
Proof.
  destruct (sampler_two_runs_identical color_size_lists ∅ 4
              the_color_or_size module_heap) as (Hsame & Hfinite & _).
  - unfold default_used_substitutions. simpl. lia.
  - split; [exact Hsame |].
    apply (Hfinite (fun _ => 0) (fun _ => 0)); [reflexivity |].
    simpl. lia.
Defined.

(** C1 (what the code does instead): in [the ({color}|{size})] the
    dictionary yielded with "the big" also holds the colour chosen by the
    combination before it, because every combination that starts with
    the same first triple merges into that triple's dictionary; with the
    template output [{color}] the builder therefore stores "blue" as the
    output text of "the big". *)
Theorem concatenation_context_leaks :
  (sample_expression_with_output color_size_lists ∅ 4 the_color_or_size
     default_used_substitutions observe [] module_heap).1
  = Returned
      [("the red", Some "the red",
        {| lists := [("color", Some "red")];
           exp_rules := []; curr_exp_rule := None |});
       ("the blue", Some "the blue",
        {| lists := [("color", Some "blue")];
           exp_rules := []; curr_exp_rule := None |});
       ("the big", Some "the big",
        {| lists := [("color", Some "blue"); ("size", Some "big")];
           exp_rules := []; curr_exp_rule := None |})] /\
  outcome_map (fun st' : BuildState => sentences st'.1)
    (generate_template color_size_lists ∅ 4
       {| input_templates := [Template the_color_or_size];
          output_text := Some "{color}" |}
       ({| sentences := []; words := [] |}, ∅) module_heap).1
  = Returned [("the red", "red"); ("the blue", "blue"); ("the big", "blue")].
Proof. split; vm_compute; reflexivity. Qed.

(** *** C5: how many triples an alternation and a concatenation yield *)

Lemma all_outcomes_returned {X Y} (f : X -> outcome Y) xs ys :
  Forall2 (fun x y => f x = Returned y) xs ys ->
  all_outcomes (map f xs) = Returned ys.
Proof.
  induction 1 as [| x y xs ys Hx _ IH]; simpl; [done |].
  by rewrite Hx, IH.
Qed.

(** C5: an alternation of N literal children yields exactly N triples,
    one per child, in declaration order; a concatenation whose children
    yield the pools [pools] yields one triple per element of their
    Cartesian product, that is as many as the product of the sizes of
    the pools, the leftmost child varying slowest. *)
Theorem alternation_and_concatenation_counts slot_lists expansion_rules
    fuel us (h : heap) :
  (forall literals,
     outcome_map texts_of
       (sample_expression_with_output slot_lists expansion_rules
          (S (S fuel)) (Sequence ALTERNATIVE (map TextChunk literals))
          us collect [] h).1
     = Returned (map (fun text => (text, Some text)) literals)) /\
  (forall items pools,
     items <> [] ->
     Forall2 (fun item pool =>
                sample_texts slot_lists expansion_rules fuel item
                = Returned pool) items pools ->
     outcome_map texts_of
       (sample_expression_with_output slot_lists expansion_rules
          (S fuel) (Sequence GROUP items) us collect [] h).1
     = Returned (map combine (product pools)) /\
     List.length (product pools)
     = fold_right Nat.mul 1 (map (@List.length _) pools)) /\
  (forall (pool : list Texts) pools,
     product (pool :: pools)
     = flat_map (fun first => map (cons first) (product pools)) pool).
Proof.
  split_and!.
  - intros literals. rewrite sample_texts_any, texts_alternative.
    rewrite (all_outcomes_returned _ _
               (map (fun text => [(text, Some text)]) literals)).
    + simpl. f_equal. induction literals as [| text literals IH]; simpl;
        [done | by rewrite IH].
    + induction literals as [| text literals IH]; simpl; constructor;
        [apply texts_chunk | done].
  - intros items pools Hne Hpools. split; [| apply length_product].
    rewrite sample_texts_any, texts_group.
    rewrite (all_outcomes_returned _ _ pools Hpools).
    by destruct items.
  - done.
Qed.

Lemma alternation_and_concatenation_counts_witness :
  outcome_map texts_of
    (sample_expression_with_output color_size_lists ∅ 3
       (Sequence GROUP [TextChunk "the "; ListReference "color"])
       default_used_substitutions collect [] module_heap).1
  = Returned
      (map combine
         (product
            [[("the ", Some "the ")];
             [("red", Some "red"); ("blue", Some "blue")]])) /\
  List.length
    (product
       [[("the ", Some "the ")];
        [("red", Some "red"); ("blue", Some "blue")]])
  = fold_right Nat.mul 1 (map (@List.length _) [[("the ", Some "the ")];
        [("red", Some "red"); ("blue", Some "blue")]]).
Proof.
  apply (alternation_and_concatenation_counts color_size_lists ∅ 2
           default_used_substitutions module_heap).
  - done.
  - repeat constructor.
Defined.

(** *** C3: the outputs of the entries of a slot list *)

(** The texts of one entry as the claim words it: every entry that
    declares an output, the empty string included, gives it to its first
    variant. *)
Definition claimed_entry_texts (slot_lists : gmap string SlotList)
    (expansion_rules : gmap string Expression) (fuel : nat)
    (v : TextSlotValue) : outcome (list Texts) :=
  match value_out v with
  | Some out =>
      outcome_map (relabel out)
        (sample_texts slot_lists expansion_rules fuel (text_in v))
  | None => sample_texts slot_lists expansion_rules fuel (text_in v)
  end.

(** [lists: {answer: [{in: b, out: ""}]}] *)
Definition empty_output_lists : gmap string SlotList :=
  {["answer" := TextSlotList
                  [{| text_in := TextChunk "b"; value_out := Some "" |}]]}.

(** C3 (as amended): sampling a reference to a text slot list yields, entry
    after entry, the texts of the entry's input; for an entry whose
    declared output is a non-empty string the first variant carries that
    output and every later variant carries none, while an entry whose
    declared output is the empty string (or [None]) passes the sampled
    outputs through unchanged. *)
Theorem list_entry_outputs slot_lists expansion_rules fuel list_name values
    us (h : heap) :
  slot_lists !! list_name = Some (TextSlotList values) ->
  outcome_map texts_of
    (sample_expression_with_output slot_lists expansion_rules (S fuel)
       (ListReference list_name) us collect [] h).1
  = outcome_map (fun tss => concat tss)
      (all_outcomes (map (entry_texts slot_lists expansion_rules fuel) values))
  /\ (forall v out,
        value_out v = Some out -> out <> EmptyString ->
        entry_texts slot_lists expansion_rules fuel v
        = outcome_map (relabel out)
            (sample_texts slot_lists expansion_rules fuel (text_in v)))
  /\ (forall v,
        value_out v = Some EmptyString \/ value_out v = None ->
        entry_texts slot_lists expansion_rules fuel v
        = sample_texts slot_lists expansion_rules fuel (text_in v))
  /\ (forall out first rest,
        relabel out (first :: rest)
        = (first.1, Some out) :: map (fun t => (t.1, None)) rest).
Proof.
  intros Hlist. split_and!.
  - by rewrite sample_texts_any, texts_list, Hlist.
  - intros v out Hout Hne. unfold entry_texts. rewrite Hout. simpl.
    by apply String.eqb_neq in Hne as ->.
  - intros v [Hout | Hout]; unfold entry_texts; by rewrite Hout.
  - done.
Qed.

Lemma list_entry_outputs_witness :
  outcome_map texts_of
    (sample_expression_with_output color_size_lists ∅ 2
       (ListReference "color") default_used_substitutions collect []
       module_heap).1
  = outcome_map (fun tss => concat tss)
      (all_outcomes
         (map (entry_texts color_size_lists ∅ 1)
            [text_value "red"; text_value "blue"])).
Proof.
  apply (list_entry_outputs color_size_lists ∅ 1 "color"
           [text_value "red"; text_value "blue"]
           default_used_substitutions module_heap).
  reflexivity.
Defined.

(** C3 fails as stated: the entry [{in: b, out: ""}] yields ("b", "b"),
    not ("b", ""). *)
Lemma empty_declared_output_is_ignored :
  outcome_map texts_of
    (sample_expression_with_output empty_output_lists ∅ 2
       (ListReference "answer") default_used_substitutions collect []
       module_heap).1
  = Returned [("b", Some "b")] /\
  outcome_map (fun tss => concat tss)
    (all_outcomes
       (map (claimed_entry_texts empty_output_lists ∅ 1)
          [{| text_in := TextChunk "b"; value_out := Some "" |}]))
  = Returned [("b", Some "")] /\
  outcome_map texts_of
    (sample_expression_with_output empty_output_lists ∅ 2
       (ListReference "answer") default_used_substitutions collect []
       module_heap).1
  <> outcome_map (fun tss => concat tss)
       (all_outcomes
          (map (claimed_entry_texts empty_output_lists ∅ 1)
             [{| text_in := TextChunk "b"; value_out := Some "" |}])).
Proof. split_and!; [done | done | ]. vm_compute. discriminate. Qed.

(** *** C7: references to names that are not defined *)

(** C7: sampling a reference to a list that is not among the slot lists
    raises [MissingListError], sampling a reference to a rule that is not
    among the expansion rules raises [MissingRuleError], whatever the loop
    that consumes the generator; and when every referenced name is
    defined, in the expression, in the rule bodies and in the inputs of
    the list values, draining the generator raises neither. *)
Theorem missing_names_raise slot_lists expansion_rules :
  (forall fuel list_name us {A} (k : Triple -> A -> M A) a (h : heap),
     slot_lists !! list_name = None ->
     (sample_expression_with_output slot_lists expansion_rules (S fuel)
        (ListReference list_name) us k a h).1
     = Raised (MissingListError list_name)) /\
  (forall fuel rule_name us {A} (k : Triple -> A -> M A) a (h : heap),
     expansion_rules !! rule_name = None ->
     (sample_expression_with_output slot_lists expansion_rules (S fuel)
        (RuleReference rule_name) us k a h).1
     = Raised (MissingRuleError rule_name)) /\
  (forall fuel e us (h : heap) name,
     grammar_closed slot_lists expansion_rules = true ->
     names_defined slot_lists expansion_rules e = true ->
     (sample_expression_with_output slot_lists expansion_rules fuel e
        us collect [] h).1 <> Raised (MissingListError name) /\
     (sample_expression_with_output slot_lists expansion_rules fuel e
        us collect [] h).1 <> Raised (MissingRuleError name)).
Proof.
  split_and!.
  - intros fuel list_name us A k a h Hnone. simpl. unfold bind. simpl.
    by rewrite Hnone.
  - intros fuel rule_name us A k a h Hnone. simpl. unfold bind. simpl.
    by rewrite Hnone.
  - intros fuel e us h name Hclosed He.
    pose proof (texts_no_missing_name slot_lists expansion_rules fuel
                  Hclosed e He) as Hok.
    rewrite <- (sample_texts_any _ _ fuel e us h) in Hok.
    split; intros Hraised; by rewrite Hraised in Hok.
Qed.

Lemma missing_names_raise_witness :
  (sample_expression_with_output color_size_lists ∅ 1
     (ListReference "shape") default_used_substitutions collect []
     module_heap).1
  = Raised (MissingListError "shape") /\
  (sample_expression_with_output color_size_lists ∅ 1
     (RuleReference "greeting") default_used_substitutions collect []
     module_heap).1
  = Raised (MissingRuleError "greeting") /\
  (sample_expression_with_output color_size_lists ∅ 4 the_color_or_size
     default_used_substitutions collect [] module_heap).1
  <> Raised (MissingListError "color").
Proof.
  destruct (missing_names_raise color_size_lists ∅) as (Hlist & Hrule & Hok).
  split_and!.
  - apply Hlist. reflexivity.
  - apply Hrule. reflexivity.
  - apply (Hok 4 the_color_or_size default_used_substitutions module_heap
             "color"); reflexivity.
Defined.

(** ** Properties of the output resolver *)

(** C6: the resolver makes one replacement for each recorded name, list
    names first and rule names after, each in the order of recording,
    and each replaces the leftmost occurrence of the placeholder in the
    text as it then is and nothing else (it leaves a text without
    occurrence unchanged); it raises [TypeError] exactly when a recorded
    list value is not a string.  In particular, when only [name] is
    recorded, a template in which the placeholder of [name] occurs first
    after [pre] resolves to [pre], the value and the unchanged rest, so a
    second occurrence of the same placeholder stays unresolved. *)
Theorem substitute_replaces_first_occurrence_only template :
  (forall used,
     match __substitute template used with
     | Returned result => resolved (recorded used) template result
     | Raised err => err = TypeError /\ exists name, (name, None) ∈ lists used
     | OutOfFuel => False
     end) /\
  (forall name value pre post curr,
     first_occurrence (list_placeholder name) template pre post ->
     __substitute template
       {| lists := [(name, Some value)]; exp_rules := [];
          curr_exp_rule := curr |}
     = Returned (String.append pre (String.append value post))) /\
  (forall name value pre post curr,
     first_occurrence (rule_placeholder name) template pre post ->
     __substitute template
       {| lists := []; exp_rules := [(name, value)];
          curr_exp_rule := curr |}
     = Returned (String.append pre (String.append value post))).
Proof.
  split_and!.
  - intros used. unfold __substitute, recorded.
    pose proof (substitute_lists_spec (lists used) template) as Hlists.
    destruct (substitute_lists (lists used) template) as [s | err |];
      simpl; [| done | done].
    eapply resolved_app; [exact Hlists | apply substitute_rules_resolved].
  - intros name value pre post curr Hfirst. unfold __substitute. simpl.
    by rewrite (replace_first_at _ _ _ _ _ Hfirst).
  - intros name value pre post curr Hfirst. unfold __substitute. simpl.
    by rewrite (replace_first_at _ _ _ _ _ Hfirst).
Qed.

Lemma substitute_replaces_first_occurrence_only_witness :
  __substitute "{x} and {x}"
    {| lists := [("x", Some "red")]; exp_rules := [];
       curr_exp_rule := None |}
  = Returned "red and {x}" /\
  __substitute "<r> or <r>"
    {| lists := []; exp_rules := [("r", "go")]; curr_exp_rule := None |}
  = Returned "go or <r>".
Proof.
  split.
  - destruct (substitute_replaces_first_occurrence_only "{x} and {x}")
      as (_ & Hlist & _).
    apply (Hlist "x" "red" "" " and {x}" None).
    exact (find_first_spec "{x}" "{x} and {x}").
  - destruct (substitute_replaces_first_occurrence_only "<r> or <r>")
      as (_ & _ & Hrule).
    apply (Hrule "r" "go" "" " or <r>" None).
    exact (find_first_spec "<r>" "<r> or <r>").
Defined.

(** ** Properties of the corpus builder *)

(** The output text of a row before its placeholders are resolved: the
    explicit output of the template if it is a non-empty string, else the
    sampled output if it is a non-empty string, else the input text. *)
Definition final_output (output_text maybe_output_text : option string)
    (input_text : string) : string :=
  match output_text with
  | Some explicit =>
      if String.eqb explicit "" then
        match maybe_output_text with
        | Some sampled => if String.eqb sampled "" then input_text else sampled
        | None => input_text
        end
      else explicit
  | None =>
      match maybe_output_text with
      | Some sampled => if String.eqb sampled "" then input_text else sampled
      | None => input_text
      end
  end.

(** The same as the claim words it: whatever is present is taken. *)
Definition claimed_output (output_text maybe_output_text : option string)
    (input_text : string) : string :=
  match output_text with
  | Some explicit => explicit
  | None =>
      match maybe_output_text with
      | Some sampled => sampled
      | None => input_text
      end
  end.

(** The rows that a choice of output text gives, one per triple: the
    input text and the chosen text resolved through the dictionary
    yielded with the triple. *)
Definition collect_rows (choose : option string -> string -> string)
    (t : Triple) (rows : list (string * string))
    : M (list (string * string)) :=
  fun h =>
    match __substitute (choose (output_of t) (input_of t)) (h !!! used_of t)
    with
    | Returned out => (Returned (rows ++ [(input_of t, out)]), h)
    | Raised err => (Raised err, h)
    | OutOfFuel => (OutOfFuel, h)
    end.

Lemma py_or_final output_text maybe_output_text input_text :
  py_or (py_or output_text maybe_output_text) (Some input_text)
  = Some (final_output output_text maybe_output_text input_text).
Proof.
  unfold py_or, final_output, truthy.
  destruct output_text as [explicit |], maybe_output_text as [sampled |];
    simpl;
    repeat match goal with
           | |- context [String.eqb ?x ""] =>
               let E := fresh "E" in
               destruct (String.eqb x "") eqn:E; simpl; rewrite ?E; simpl
           end;
    done.
Qed.

Lemma bind_ret_r {A} (m : M A) h : bind m ret h = m h.
Proof. unfold bind, ret. by destruct (m h) as [[a | err |] h']. Qed.

(** C4 (as amended): for a templated sentence the builder inserts one row
    per triple of the sampler, in order; the row holds the input text and,
    as output text, the explicit output of the template if that is a
    non-empty string, else the sampled output if that is a non-empty
    string, else the input text, with the placeholders resolved through
    the dictionary yielded with the triple.  The build fails where the
    sampler or the resolver fails. *)
Theorem builder_rows slot_lists expansion_rules fuel input_expression
    explicit (st : BuildState) (h : heap) :
  outcome_map (fun st' : BuildState => sentences st'.1)
    (generate_template slot_lists expansion_rules fuel
       {| input_templates := [Template input_expression];
          output_text := explicit |} st h).1
  = outcome_map (app (sentences st.1))
      (sample_expression_with_output slot_lists expansion_rules fuel
         input_expression default_used_substitutions
         (collect_rows (final_output explicit)) [] h).1.
Proof.
  unfold generate_template. simpl. rewrite bind_ret_r.
  apply orel_eq_map.
  eapply (sample_shifted slot_lists expansion_rules
            (List.length h) (List.length h) fuel input_expression
            default_used_substitutions default_used_substitutions
            (fun (st' : BuildState) rows =>
               sentences st'.1 = sentences st.1 ++ rows));
    [| by rewrite app_nil_r | apply shifted_nil | done].
  intros t1 t2 st' rows (Hi & Ho & Hl) Hrows g1 g2 Hg.
  unfold store_sampled, collect_rows, bind, read. simpl.
  rewrite py_or_final, Hi, Ho, (shifted_read _ _ g1 g2 _ _ Hg Hl).
  destruct (__substitute _ _) as [out | err |]; split; unfold ret; simpl;
    try done.
  rewrite Hrows. by rewrite <- app_assoc.
Qed.

(** [lists: {answer: [{in: "(yes|yeah)", out: "YES"}]}], the input kept
    as an expression. *)
Definition yes_lists : gmap string SlotList :=
  {["answer" :=
      TextSlotList
        [{| text_in := Sequence ALTERNATIVE [TextChunk "yes"; TextChunk "yeah"];
            value_out := Some "YES" |}]]}.

(** C4 fails as stated.  For the template [{in: "(a|b)", out: ""}] the
    builder stores the rows ("a", "a") and ("b", "b"), where taking the
    explicit output because it is present gives ("a", "") and ("b", "").
    For the template [{answer}] the second variant of the list value has
    the empty string as sampled output, and the builder stores
    ("yeah", "yeah"), where taking the sampled output gives
    ("yeah", ""). *)
Lemma empty_output_is_ignored :
  (outcome_map (fun st' : BuildState => sentences st'.1)
     (generate_template ∅ ∅ 3
        {| input_templates :=
             [Template (Sequence ALTERNATIVE [TextChunk "a"; TextChunk "b"])];
           output_text := Some "" |}
        ({| sentences := []; words := [] |}, ∅) module_heap).1
   = Returned [("a", "a"); ("b", "b")] /\
   (sample_expression_with_output ∅ ∅ 3
      (Sequence ALTERNATIVE [TextChunk "a"; TextChunk "b"])
      default_used_substitutions
      (collect_rows (claimed_output (Some ""))) [] module_heap).1
   = Returned [("a", ""); ("b", "")]) /\
  (outcome_map (fun st' : BuildState => sentences st'.1)
     (generate_template yes_lists ∅ 4
        {| input_templates :=
             [Template (Sequence GROUP [ListReference "answer"])];
           output_text := None |}
        ({| sentences := []; words := [] |}, ∅) module_heap).1
   = Returned [("yes", "YES"); ("yeah", "yeah")] /\
   (sample_expression_with_output yes_lists ∅ 4
      (Sequence GROUP [ListReference "answer"])
      default_used_substitutions
      (collect_rows (claimed_output None)) [] module_heap).1
   = Returned [("yes", "YES"); ("yeah", "")]) /\
  outcome_map (fun st' : BuildState => sentences st'.1)
    (generate_template ∅ ∅ 3
       {| input_templates :=
            [Template (Sequence ALTERNATIVE [TextChunk "a"; TextChunk "b"])];
          output_text := Some "" |}
       ({| sentences := []; words := [] |}, ∅) module_heap).1
  <> outcome_map (app [])
       (sample_expression_with_output ∅ ∅ 3
          (Sequence ALTERNATIVE [TextChunk "a"; TextChunk "b"])
          default_used_substitutions
          (collect_rows (claimed_output (Some ""))) [] module_heap).1.
Proof.
  split_and!; try (vm_compute; reflexivity).
  vm_compute. discriminate.
Qed.

(** ** Properties of the corrector *)

(** [sentences: [{in: []}]] builds a store without rows. *)
Definition empty_store : Database := {| sentences := []; words := [] |}.

Definition english : LanguageConfig :=
  {| sentences_mtime_ns := 0; sentences_file_size := 0;
     database_path := "en.db"; no_correct_patterns := [];
     unknown_text := None |}.

(** C2 (what the code does instead): the grammar [sentences: [{in: []}]]
    builds a store without rows; on that store [extractOne] returns
    [None] and indexing it raises [TypeError]. *)
Theorem correction_raises_on_empty_store :
  (generate_sentences ∅ ∅ 1
     [{| input_templates := []; output_text := None |}]
     {| sentences := []; words := [] |} module_heap).1
  = Returned empty_store /\
  (correct_sentence "turn on the lite" english (float_of_Z 0)
     {["en.db" := empty_store]}).1
  = Raised TypeError.
Proof. split; reflexivity. Qed.


Definition light_store : Database :=
  {| sentences := [("light", "LIGHT")]; words := ["light"] |}.

(** The distance counts code points, not bytes: replacing [e] by [é],
    two bytes in UTF-8, is one deletion and one insertion. *)
Lemma distance_counts_code_points :
  code_points "café" = ["c"; "a"; "f"; "é"] /\
  distance "cafe" "café" = 2 /\ distance "café" "café" = 0.
Proof. split_and!; vm_compute; reflexivity. Qed.




(** C10: a call of [correct_sentence] leaves every database file as it
    was, whether it returns or raises: the connection runs one [SELECT]
    and has nothing to commit. *)
Theorem correction_keeps_store text config score_cutoff (files : Files) :
  (correct_sentence text config score_cutoff files).2 = files.
Proof.
  unfold correct_sentence.
  destruct (files !! database_path config) as [db |] eqn:Hfile; [| done].
  destruct (existsb _ _); [done |].
  unfold leave, connect. simpl.
  destruct (match extractOne text (select_sentences _) with
            | Some _ => _ | None => _ end);
    by apply insert_id.
Qed.

(** * Further properties

    The rest of this file states what the modelled functions do beyond the
    properties above: their errors and edge cases, what they keep, and how
    they compose. *)

(** ** The corrector *)

(** The code points of a text, put together again, are the text. *)
Lemma code_points_from_join (current s : string) :
  join (code_points_from current s) = String.append current s.
Proof.
  revert current. induction s as [| c s IH]; intros current; simpl.
  - done.
  - destruct (is_continuation c); simpl.
    + rewrite IH. by rewrite append_assoc.
    + rewrite IH. done.
Qed.

Lemma code_points_join (s : string) : join (code_points s) = s.
Proof.
  destruct s as [| c s]; [done |]. simpl. by rewrite code_points_from_join.
Qed.

(** The scorer: a distance of zero means the same text. *)
Lemma distance_same (s : string) : distance s s = 0.
Proof.
  unfold distance. induction (code_points s) as [| c cs IH]; [done |].
  cbn [weighted_distance]. rewrite String.eqb_refl, IH. lia.
Qed.

Lemma weighted_distance_zero (cs1 cs2 : list string) :
  weighted_distance 1 1 3 cs1 cs2 = 0 -> cs1 = cs2.
Proof.
  revert cs2. induction cs1 as [| c1 cs1 IH]; intros cs2.
  - destruct cs2 as [| c2 cs2]; [done |]. cbn. lia.
  - destruct cs2 as [| c2 cs2]; [cbn; lia |].
    cbn [weighted_distance]. intros H.
    destruct (String.eqb_spec c1 c2) as [-> | Hne]; [| lia].
    f_equal. apply IH. lia.
Qed.

Lemma distance_zero (s1 s2 : string) : distance s1 s2 = 0 -> s1 = s2.
Proof.
  intros H. apply weighted_distance_zero in H.
  by rewrite <- (code_points_join s1), <- (code_points_join s2), H.
Qed.

(** The first element with a property splits a list in one way only. *)
Lemma first_split_unique {X} (P : X -> Prop) (b1 b2 a1 a2 : list X) x1 x2 :
  b1 ++ x1 :: a1 = b2 ++ x2 :: a2 ->
  P x1 -> P x2 -> Forall (fun x => ~ P x) b1 -> Forall (fun x => ~ P x) b2 ->
  b1 = b2 /\ x1 = x2 /\ a1 = a2.
Proof.
  revert b2. induction b1 as [| y b1 IH]; intros b2 Heq H1 H2 Hb1 Hb2.
  - destruct b2 as [| z b2]; simpl in Heq; [by simplify_eq |].
    injection Heq as -> _. by inversion Hb2.
  - destruct b2 as [| z b2]; simpl in Heq.
    + injection Heq as -> _. by inversion Hb1.
    + injection Heq as -> Heq. inversion Hb1. inversion Hb2. subst.
      destruct (IH b2 Heq) as (-> & -> & ->); done.
Qed.

(** [score_cutoff <= 0 or 0 <= score_cutoff] holds for every float but
    NaN. *)
Lemma any_cutoff_accepts_zero (score_cutoff : PyFloat) :
  score_cutoff <> NaN ->
  float_le_int score_cutoff 0 || int_le_float 0 score_cutoff = true.
Proof.
  destruct score_cutoff as [[num den] | | |]; try done. intros _. simpl.
  unfold QArith_base.Qle_bool. simpl.
  destruct (Z.leb_spec (num * 1) 0), (Z.leb_spec 0 (num * 1)); simpl; lia.
Qed.

(** The best match for the input text of a stored row is the first row
    that has it as input text, at distance zero. *)
Lemma extractOne_exact text out (before after : list (string * string)) :
  Forall (fun row => row.1 <> text) before ->
  extractOne text (before ++ (text, out) :: after) = Some ((text, out), 0).
Proof.
  intros Hbefore.
  pose proof (extractOne_spec text (before ++ (text, out) :: after)) as Hbest.
  destruct (extractOne text _) as [[row score] |].
  2:{ by destruct before. }
  destruct Hbest as (Hscore & before' & after' & Hrows & Hfar & Hnear).
  assert (Hzero : score = 0).
  { assert (Hin : (text, out) ∈ before' ++ row :: after').
    { rewrite <- Hrows. set_solver. }
    apply elem_of_app in Hin as [Hin | Hin].
    - rewrite Forall_forall in Hfar. apply Hfar in Hin. simpl in Hin.
      rewrite distance_same in Hin. lia.
    - apply elem_of_cons in Hin as [<- | Hin].
      + simpl in Hscore. by rewrite distance_same in Hscore.
      + rewrite Forall_forall in Hnear. apply Hnear in Hin. simpl in Hin.
        rewrite distance_same in Hin. lia. }
  subst score.
  assert (Hrow : row.1 = text).
  { symmetry. by apply distance_zero. }
  destruct (first_split_unique (fun r : string * string => r.1 = text)
              before before' after after' (text, out) row Hrows)
    as (_ & <- & _);
    [done | done | | | simpl; by rewrite distance_same].
  - eapply Forall_impl; [exact Hbefore |]. done.
  - eapply Forall_impl; [exact Hfar |]. intros r Hr Heq.
    simpl in Hr. rewrite Heq, distance_same in Hr. lia.
Qed.

(** [sentences: [light, {in: lights, out: LIGHTS}]], with the first row
    given the output LIGHT. *)
Definition two_lights_store : Database :=
  {| sentences := [("light", "LIGHT"); ("lights", "LIGHTS")];
     words := ["light"; "lights"] |}.

(** When the scorer is there, [correct_sentence] raises in one situation
    only, and the error is the [TypeError] of indexing [None]. *)
Lemma correct_sentence_raises text config score_cutoff
    (files : Files) :
  (forall err,
     (correct_sentence text config score_cutoff files).1 = Raised err <->
     err = TypeError /\
     existsb (fun pattern => pattern text) (no_correct_patterns config)
     = false /\
     exists db, files !! database_path config = Some db /\ sentences db = []) /\
  (correct_sentence text config score_cutoff files).1 <> OutOfFuel.
Proof.
  unfold correct_sentence.
  destruct (files !! database_path config) as [db |] eqn:Hfile.
  2:{ split; [| done]. intros err. split; [done |].
      by intros (_ & _ & db & Hdb & _). }
  destruct (existsb _ _) eqn:Hbypass.
  { split; [| done]. intros err. split; [done |]. by intros (_ & ? & _). }
  unfold select_sentences, connect. simpl.
  pose proof (extractOne_spec text (sentences db)) as Hbest.
  destruct (extractOne text (sentences db)) as [[row score] |] eqn:Hext;
    simpl.
  - split; [| by destruct (_ || _)]. intros err. split.
    + by destruct (_ || _).
    + intros (_ & _ & db' & [= <-] & Hrows).
      rewrite Hrows in Hext. done.
  - split; [| done]. intros err. split.
    + intros [= <-]. split_and!; [done | done |]. by exists db.
    + by intros (-> & _).
Qed.

(** What a call comes to when the import of rapidfuzz is counted: the
    result of the call, or the [Exception] that asks for the package to
    be installed. *)
Inductive Attempt (A : Type) :=
| Ran (result : outcome A)
| InstallationNeeded.
Arguments Ran {A} result.
Arguments InstallationNeeded {A}.

(** [correct_sentence] with the import inside the [with] block;
    [rapidfuzz] tells whether the package can be imported.  The import
    is reached when the database file exists and no pattern matches. *)
Definition correct_sentence_importing (rapidfuzz : bool) (text : string)
    (config : LanguageConfig) (score_cutoff : PyFloat) (files : Files)
    : Attempt string :=
  match files !! database_path config with
  | None => Ran (Returned text)
  | Some _ =>
      if existsb (fun pattern => pattern text) (no_correct_patterns config)
      then Ran (Returned text)
      else if rapidfuzz
           then Ran (correct_sentence text config score_cutoff files).1
           else InstallationNeeded
  end.

(** X1: on a store that can be read, [correct_sentence] raises in two
    situations only, both with a database file that exists and a text
    that matches no pattern of [no_correct_patterns]: the [Exception]
    that asks for the installation when rapidfuzz cannot be imported, and
    the [TypeError] of indexing [None] when it can be imported and the
    sentences table has no rows.  In every other situation the call
    returns. *)
Theorem correction_raises_in_two_situations rapidfuzz text config
    score_cutoff (files : Files) :
  (correct_sentence_importing rapidfuzz text config score_cutoff files
   = InstallationNeeded <->
   rapidfuzz = false /\
   existsb (fun pattern => pattern text) (no_correct_patterns config)
   = false /\
   exists db, files !! database_path config = Some db) /\
  (forall err,
     correct_sentence_importing rapidfuzz text config score_cutoff files
     = Ran (Raised err) <->
     err = TypeError /\ rapidfuzz = true /\
     existsb (fun pattern => pattern text) (no_correct_patterns config)
     = false /\
     exists db, files !! database_path config = Some db /\ sentences db = []) /\
  correct_sentence_importing rapidfuzz text config score_cutoff files
  <> Ran OutOfFuel.
Proof.
  destruct (correct_sentence_raises text config score_cutoff files)
    as [Hraises Hfuel].
  unfold correct_sentence_importing.
  destruct (files !! database_path config) as [db |] eqn:Hfile.
  2:{ split_and!; [| | done].
      - split; [done |]. by intros (_ & _ & db & ?).
      - intros err. split; [done |]. by intros (_ & _ & _ & db & ? & _). }
  destruct (existsb _ _) eqn:Hbypass.
  { split_and!; [| | done].
    - split; [done |]. by intros (_ & ? & _).
    - intros err. split; [done |]. by intros (_ & _ & ? & _). }
  destruct rapidfuzz.
  - split_and!.
    + split; [done |]. by intros (? & _).
    + intros err. split.
      * intros [= Herr]. apply Hraises in Herr as (-> & _ & db' & Hdb & Hrows).
        split_and!; [done | done | done |]. by exists db'.
      * intros (-> & _ & _ & db' & Hdb & Hrows). f_equal.
        apply Hraises. split_and!; [done | done |]. by exists db'.
    + intros [= Hout]. by apply Hfuel.
  - split_and!; [| | done].
    + split; [| done]. intros _. split_and!; [done | done |]. by exists db.
    + intros err. split; [done |]. by intros (_ & ? & _).
Qed.

(** X2: a text that is the input text of a stored row, and matches no
    pattern of [no_correct_patterns], is corrected to the output text of
    the first row that has it as input text, for every cutoff that is not
    NaN, positive ones included. *)
Theorem correction_of_known_sentence text config score_cutoff
    (files : Files) db before out after :
  files !! database_path config = Some db ->
  existsb (fun pattern => pattern text) (no_correct_patterns config) = false ->
  sentences db = before ++ (text, out) :: after ->
  Forall (fun row => row.1 <> text) before ->
  score_cutoff <> NaN ->
  (correct_sentence text config score_cutoff files).1 = Returned out.
Proof.
  intros Hfile Hbypass Hrows Hbefore Hcut. unfold correct_sentence.
  rewrite Hfile, Hbypass. unfold select_sentences, connect. simpl.
  rewrite Hrows, (extractOne_exact text out before after Hbefore). simpl.
  change (Z.of_nat 0) with 0%Z.
  by rewrite any_cutoff_accepts_zero.
Qed.

Lemma correction_of_known_sentence_witness :
  (correct_sentence "lights" english (float_of_Z 2)
     {["en.db" := two_lights_store]}).1
  = Returned "LIGHTS".
Proof.
  apply (correction_of_known_sentence "lights" english (float_of_Z 2)
           {["en.db" := two_lights_store]} two_lights_store
           [("light", "LIGHT")] "LIGHTS" []).
  - reflexivity.
  - reflexivity.
  - reflexivity.
  - repeat constructor. simpl. discriminate.
  - discriminate.
Defined.

(** X3: what [correct_sentence] returns is the text it was given or the
    output text of a row of the store; it makes up no text of its own. *)
Theorem correction_returns_known_text text config score_cutoff
    (files : Files) result :
  (correct_sentence text config score_cutoff files).1 = Returned result ->
  result = text \/
  exists db row,
    files !! database_path config = Some db /\
    row ∈ sentences db /\ result = row.2.
Proof.
  unfold correct_sentence.
  destruct (files !! database_path config) as [db |] eqn:Hfile;
    [| intros [= <-]; by left].
  destruct (existsb _ _); [intros [= <-]; by left |].
  unfold select_sentences, connect. simpl.
  pose proof (extractOne_spec text (sentences db)) as Hbest.
  destruct (extractOne text (sentences db)) as [[row score] |]; simpl;
    [| done].
  destruct (_ || _); intros [= <-]; [right | by left].
  exists db, row. split_and!; [done | | done].
  destruct Hbest as (_ & before & after & -> & _). set_solver.
Qed.

Lemma correction_returns_known_text_witness :
  "LIGHT" = "lite" \/
  exists db row,
    ({["en.db" := two_lights_store]} : Files) !! database_path english
    = Some db /\
    row ∈ sentences db /\ "LIGHT" = row.2.
Proof.
  apply (correction_returns_known_text "lite" english (float_of_Z 5)
           {["en.db" := two_lights_store]} "LIGHT").
  vm_compute. reflexivity.
Defined.

(** ** The resolver *)

(** [c in s] *)
Fixpoint has_char (c : ascii) (s : string) : bool :=
  match s with
  | EmptyString => false
  | String d s' => Ascii.eqb c d || has_char c s'
  end.

Lemma replace_first_absent (c : ascii) (old' new s : string) :
  has_char c s = false -> replace_first (String c old') new s = s.
Proof.
  induction s as [| d s IH]; [done |]. simpl. intros H.
  apply orb_false_elim in H as [Hc Hs]. rewrite Hc. simpl.
  by rewrite IH.
Qed.

Lemma substitute_lists_absent items text :
  has_char "{" text = false ->
  Forall (fun kv : string * option string => kv.2 <> None) items ->
  substitute_lists items text = Returned text.
Proof.
  intros Htext. induction 1 as [| [name [value |]] items Hv _ IH]; simpl;
    [done | | done].
  unfold list_placeholder.
  change (String.append "{" (String.append name "}"))
    with (String "{" (String.append name "}")).
  by rewrite replace_first_absent.
Qed.

Lemma substitute_rules_absent items text :
  has_char "<" text = false -> substitute_rules items text = text.
Proof.
  intros Htext. induction items as [| [name value] items IH]; simpl; [done |].
  unfold rule_placeholder.
  change (String.append "<" (String.append name ">"))
    with (String "<" (String.append name ">")).
  by rewrite replace_first_absent.
Qed.

Lemma substitute_lists_none items text name :
  (name, None) ∈ items -> substitute_lists items text = Raised TypeError.
Proof.
  revert text. induction items as [| [name' [value |]] items IH];
    intros text Hin; simpl.
  - by apply elem_of_nil in Hin.
  - apply elem_of_cons in Hin as [[=] | Hin]. by apply IH.
  - done.
Qed.

(** X4: an output text without the characters [{] and [<] is returned as
    it is by [__substitute], whatever names the dictionary records,
    provided that every recorded list value is a string. *)
Theorem substitute_keeps_plain_text text used :
  has_char "{" text = false -> has_char "<" text = false ->
  Forall (fun kv : string * option string => kv.2 <> None) (lists used) ->
  __substitute text used = Returned text.
Proof.
  intros Hlist Hrule Hvalues. unfold __substitute.
  rewrite substitute_lists_absent by done. simpl.
  by rewrite substitute_rules_absent.
Qed.

Lemma substitute_keeps_plain_text_witness :
  __substitute "turn on the red light"
    {| lists := [("color", Some "red")]; exp_rules := [("verb", "turn on")];
       curr_exp_rule := None |}
  = Returned "turn on the red light".
Proof.
  apply (substitute_keeps_plain_text "turn on the red light"
           {| lists := [("color", Some "red")];
              exp_rules := [("verb", "turn on")];
              curr_exp_rule := None |}).
  - reflexivity.
  - reflexivity.
  - repeat constructor. simpl. discriminate.
Defined.

(** In the model, where a recorded list value is a string or [None]:
    [__substitute] raises exactly when some value is [None]. *)
Lemma substitute_raises text used :
  (forall err,
     __substitute text used = Raised err <->
     err = TypeError /\ exists name, (name, None) ∈ lists used) /\
  __substitute text used <> OutOfFuel.
Proof.
  unfold __substitute.
  pose proof (substitute_lists_spec (lists used) text) as Hspec.
  destruct (substitute_lists (lists used) text) as [s | err' |] eqn:Hs;
    simpl; [| | done].
  - split; [| done]. intros err. split; [done |].
    intros (_ & name & Hin).
    by rewrite (substitute_lists_none _ _ _ Hin) in Hs.
  - split; [| done]. intros err. destruct Hspec as [-> Hname]. split.
    + by intros [= <-].
    + by intros [-> _].
Qed.

(** X5: [__substitute] raises the [TypeError] of [str.replace] whenever
    the dictionary records [None] as the value of some list, whether or
    not the text mentions that list; and it returns whenever every
    recorded list value is a string. *)
Theorem substitute_fails_on_missing_value text used :
  ((exists name, (name, None) ∈ lists used) ->
   __substitute text used = Raised TypeError) /\
  (Forall (fun kv : string * option string => kv.2 <> None) (lists used) ->
   exists resolved, __substitute text used = Returned resolved).
Proof.
  destruct (substitute_raises text used) as [Hraises Hfuel]. split.
  - intros Hnone. by apply Hraises.
  - intros Hvalues.
    destruct (__substitute text used) as [resolved | err |] eqn:Hs;
      [by exists resolved | | done].
    destruct (Hraises err) as [Hnone _].
    destruct (Hnone eq_refl) as (_ & name & Hin).
    rewrite Forall_forall in Hvalues. by destruct (Hvalues _ Hin).
Qed.

Lemma substitute_fails_on_missing_value_witness :
  __substitute "the light"
    {| lists := [("color", None)]; exp_rules := []; curr_exp_rule := None |}
  = Raised TypeError /\
  exists resolved,
    __substitute "the {color} light"
      {| lists := [("color", Some "red")]; exp_rules := [];
         curr_exp_rule := None |}
    = Returned resolved.
Proof.
  split.
  - apply (proj1 (substitute_fails_on_missing_value "the light"
                    {| lists := [("color", None)]; exp_rules := [];
                       curr_exp_rule := None |})).
    exists "color". simpl. constructor.
  - apply (proj2 (substitute_fails_on_missing_value "the {color} light"
                    {| lists := [("color", Some "red")]; exp_rules := [];
                       curr_exp_rule := None |})).
    simpl. repeat constructor. simpl. discriminate.
Defined.

(** ** The sampler: texts *)

Lemma product_empty_pool {X} (pools : list (list X)) :
  [] ∈ pools -> product pools = [].
Proof.
  induction pools as [| pool pools IH]; intros Hin.
  - by apply elem_of_nil in Hin.
  - simpl. apply elem_of_cons in Hin as [<- | Hin]; [done |].
    rewrite IH by done. by induction pool.
Qed.

Lemma all_outcomes_Forall2 {X Y} (f : X -> outcome Y) xs ys :
  all_outcomes (map f xs) = Returned ys ->
  Forall2 (fun x y => f x = Returned y) xs ys.
Proof.
  revert ys. induction xs as [| x xs IH]; intros ys; simpl.
  - intros [= <-]. constructor.
  - destruct (f x) as [y | err |] eqn:Hx; [| done | done].
    destruct (all_outcomes (map f xs)) as [ys' | err |]; [| done | done].
    intros [= <-]. constructor; [done |]. by apply IH.
Qed.

Lemma all_outcomes_all_return {X Y} (f : X -> outcome Y) xs :
  Forall (fun x => exists y, f x = Returned y) xs ->
  exists ys, all_outcomes (map f xs) = Returned ys.
Proof.
  induction 1 as [| x xs [y Hx] _ [ys IH]]; simpl.
  - by eexists.
  - rewrite Hx, IH. by eexists.
Qed.

Lemma all_outcomes_first_raise {X Y} (f : X -> outcome Y) before x after err :
  Forall (fun x' => exists y, f x' = Returned y) before ->
  f x = Raised err ->
  all_outcomes (map f (before ++ x :: after)) = Raised err.
Proof.
  intros Hbefore Hx. induction Hbefore as [| x' before [y Hx'] _ IH]; simpl.
  - by rewrite Hx.
  - by rewrite Hx', IH.
Qed.

Lemma length_relabel out (ts : list (string * option string)) :
  List.length (relabel out ts) = List.length ts.
Proof. destruct ts; simpl; [done |]. by rewrite length_map. Qed.

Lemma counted_sum {X Y} (f : X -> outcome (list Y)) (n : X -> nat) xs yss :
  Forall2 (fun x ys => f x = Returned ys) xs yss ->
  (forall x ys, In x xs -> f x = Returned ys -> List.length ys = n x) ->
  List.length (concat yss) = sum_list (map n xs).
Proof.
  induction 1 as [| x ys xs yss Hx _ IH]; intros Hn; simpl; [done |].
  rewrite length_app. rewrite (Hn x ys) by (by auto || by left). f_equal.
  apply IH. intros x' ys' Hin. apply Hn. by right.
Qed.

Lemma counted_product {X Y} (f : X -> outcome (list Y)) (n : X -> nat)
    xs yss :
  Forall2 (fun x ys => f x = Returned ys) xs yss ->
  (forall x ys, In x xs -> f x = Returned ys -> List.length ys = n x) ->
  map (@List.length Y) yss = map n xs.
Proof.
  induction 1 as [| x ys xs yss Hx _ IH]; intros Hn; simpl; [done |].
  rewrite (Hn x ys) by (by auto || by left). f_equal.
  apply IH. intros x' ys' Hin. apply Hn. by right.
Qed.

Section More.
Variable slot_lists : gmap string SlotList.
Variable expansion_rules : gmap string Expression.

Local Abbreviation sample :=
  (sample_expression_with_output slot_lists expansion_rules).
Local Abbreviation texts := (sample_texts slot_lists expansion_rules).

(** X6: the input and output texts that a drained call yields are the
    same whatever dictionary the call is given as [used_substitutions]
    and whatever objects exist: only the yielded dictionaries depend on
    them. *)
Theorem texts_do_not_depend_on_context fuel e us1 us2 (h1 h2 : heap) :
  outcome_map texts_of (sample fuel e us1 collect [] h1).1
  = outcome_map texts_of (sample fuel e us2 collect [] h2).1.
Proof. by rewrite !sample_texts_any. Qed.

(** What a concatenation does with the pools of its children. *)
Lemma group_pools fuel items us {A} (k : Triple -> A -> M A) a (h : heap) :
  match all_outcomes (map (texts fuel) items) with
  | Returned tpools =>
      exists pools g,
        map texts_of pools = tpools /\
        sample (S fuel) (Sequence GROUP items) us k a h
        = for_each (product pools)
            (fun sentence_words acc =>
               let* merged := reduce_merge (map used_of sentence_words) in
               k (normalize_whitespace (join (map input_of sentence_words)),
                  Some (normalize_whitespace
                          (join (omap output_of sentence_words))),
                  merged)
                 acc)
            a g
  | Raised err =>
      (sample (S fuel) (Sequence GROUP items) us k a h).1 = Raised err
  | OutOfFuel =>
      (sample (S fuel) (Sequence GROUP items) us k a h).1 = OutOfFuel
  end.
Proof.
  cbn [sample_expression_with_output].
  erewrite bind_returned by reflexivity.
  pose proof (map_m_texts slot_lists expansion_rules fuel items
                (List.length h) (h ++ [h !!! us])) as Hpools.
  destruct (map_m _ items _) as [[pools | err |] g] eqn:Hm;
    [erewrite bind_returned by exact Hm
    | erewrite bind_raised by exact Hm
    | erewrite bind_out_of_fuel by exact Hm];
    destruct (all_outcomes _) as [tpools | err' |];
    simpl in Hpools; try done; try by simplify_eq.
  injection Hpools as <-. by exists pools, g.
Qed.

(** X7: a concatenation one of whose children yields no text yields
    nothing: when every child can be drained and one of them has no text,
    the loop over the concatenation ends without a single step, whatever
    its body is. *)
Theorem concatenation_with_empty_child_yields_nothing fuel items us {A}
    (k : Triple -> A -> M A) a (h : heap) :
  Forall (fun item => exists ts, texts fuel item = Returned ts) items ->
  Exists (fun item => texts fuel item = Returned []) items ->
  (sample (S fuel) (Sequence GROUP items) us k a h).1 = Returned a.
Proof.
  intros Hall Hempty.
  destruct (all_outcomes_all_return _ _ Hall) as [tpools Htpools].
  pose proof (group_pools fuel items us k a h) as Hgroup.
  rewrite Htpools in Hgroup. destruct Hgroup as (pools & g & <- & ->).
  rewrite product_empty_pool; [done |].
  apply all_outcomes_Forall2 in Htpools.
  apply Exists_exists in Hempty as (item & Hitem & Hnone).
  apply list_elem_of_lookup in Hitem as [i Hi].
  destruct (Forall2_lookup_l _ _ _ _ _ Htpools Hi) as (ts & Hts & Hret).
  rewrite Hnone in Hret. injection Hret as <-.
  rewrite list_lookup_fmap in Hts.
  destruct (pools !! i) as [pool |] eqn:Hpool; [| done].
  simpl in Hts. injection Hts as Hts. destruct pool; [| done].
  by eapply list_elem_of_lookup_2.
Qed.

(** X8: a concatenation fails before it yields anything: when a child
    raises while it is drained, and the children before it can be
    drained, the loop over the concatenation raises the same error
    without a single step, whatever its body is. *)
Theorem concatenation_fails_before_first_yield fuel before item after err us
    {A} (k : Triple -> A -> M A) a (h : heap) :
  Forall (fun item' => exists ts, texts fuel item' = Returned ts) before ->
  texts fuel item = Raised err ->
  (sample (S fuel) (Sequence GROUP (before ++ item :: after)) us k a h).1
  = Raised err.
Proof.
  intros Hbefore Hitem.
  pose proof (group_pools fuel (before ++ item :: after) us k a h) as Hgroup.
  by rewrite (all_outcomes_first_raise _ _ _ _ _ Hbefore Hitem) in Hgroup.
Qed.

(** The number of texts of an expression. *)
Fixpoint count_texts (fuel : nat) (e : Expression) : nat :=
  match fuel with
  | O => 0
  | S fuel' =>
      match e with
      | TextChunk _ => 1
      | Sequence ALTERNATIVE items =>
          sum_list (map (count_texts fuel') items)
      | Sequence GROUP items =>
          fold_right Nat.mul 1 (map (count_texts fuel') items)
      | Sequence PERMUTATION _ => 0
      | ListReference list_name =>
          match slot_lists !! list_name with
          | Some (TextSlotList values) =>
              sum_list (map (fun v => count_texts fuel' (text_in v)) values)
          | _ => 0
          end
      | RuleReference rule_name =>
          match expansion_rules !! rule_name with
          | Some rule_body => count_texts fuel' rule_body
          | None => 0
          end
      end
  end.

(** X9: when a call can be drained, the number of triples it yields is
    given by the expression alone: one for a text chunk, the sum over the
    alternatives, the product over the concatenated children, the sum
    over the values of a list, and the count of the body for a rule. *)
Theorem number_of_texts fuel e ts :
  texts fuel e = Returned ts -> List.length ts = count_texts fuel e.
Proof.
  revert e ts. induction fuel as [| fuel IH]; intros e ts; [done |].
  destruct e as [text | [ | | ] items | list_name | rule_name].
  - rewrite texts_chunk. by intros [= <-].
  - rewrite texts_group.
    destruct (all_outcomes _) as [pools | err |] eqn:Hall; [| done | done].
    destruct items as [| item items]; [done |]. intros [= <-].
    rewrite length_map, length_product. cbn [count_texts]. f_equal.
    eapply counted_product; [by apply all_outcomes_Forall2 |].
    intros x ys _. apply IH.
  - rewrite texts_alternative.
    destruct (all_outcomes _) as [tss | err |] eqn:Hall; [| done | done].
    intros [= <-]. cbn [count_texts].
    eapply counted_sum; [by apply all_outcomes_Forall2 |].
    intros x ys _. apply IH.
  - by rewrite texts_permutation.
  - rewrite texts_list. cbn [count_texts].
    destruct (slot_lists !! list_name) as [[values | start stop] |];
      [| done | done].
    destruct (all_outcomes _) as [tss | err |] eqn:Hall; [| done | done].
    intros [= <-].
    eapply counted_sum; [by apply all_outcomes_Forall2 |].
    intros v ys _. unfold entry_texts.
    destruct (truthy (value_out v)); [| apply IH].
    destruct (texts fuel (text_in v)) as [ts' | err |] eqn:Hv; [| done | done].
    intros [= <-]. rewrite length_relabel. by apply IH.
  - rewrite texts_rule. cbn [count_texts].
    destruct (expansion_rules !! rule_name) as [rule_body |]; [| done].
    apply IH.
Qed.
End More.

(** [lists: {color: [red, blue], none: []}], the second list as a call
    from other code can pass it: the loader skips a list without
    values. *)
Definition color_none_lists : gmap string SlotList :=
  <["color" := TextSlotList [text_value "red"; text_value "blue"]]>
    (<["none" := TextSlotList []]> ∅).

Lemma concatenation_with_empty_child_yields_nothing_witness :
  (sample_expression_with_output color_none_lists ∅ 3
     (Sequence GROUP [ListReference "color"; ListReference "none"])
     default_used_substitutions collect [] module_heap).1
  = Returned [].
Proof.
  apply (concatenation_with_empty_child_yields_nothing color_none_lists ∅ 2
           [ListReference "color"; ListReference "none"]
           default_used_substitutions collect [] module_heap).
  - repeat constructor; eexists; vm_compute; reflexivity.
  - apply Exists_cons_tl, Exists_cons_hd. vm_compute. reflexivity.
Defined.

Lemma concatenation_fails_before_first_yield_witness :
  (sample_expression_with_output color_size_lists ∅ 3
     (Sequence GROUP
        ([TextChunk "the "] ++ ListReference "shape" :: [TextChunk " one"]))
     default_used_substitutions collect [] module_heap).1
  = Raised (MissingListError "shape").
Proof.
  apply (concatenation_fails_before_first_yield color_size_lists ∅ 2
           [TextChunk "the "] (ListReference "shape") [TextChunk " one"]
           (MissingListError "shape")
           default_used_substitutions collect [] module_heap).
  - repeat constructor. eexists. vm_compute. reflexivity.
  - vm_compute. reflexivity.
Defined.

Lemma number_of_texts_witness :
  List.length
    [("the red", Some "the red"); ("the blue", Some "the blue");
     ("the big", Some "the big")]
  = count_texts color_size_lists ∅ 4 the_color_or_size.
Proof.
  apply (number_of_texts color_size_lists ∅ 4 the_color_or_size).
  vm_compute. reflexivity.
Defined.

(** ** What a loop over the generator keeps *)

(** [m] returns only values that satisfy [I]. *)
Definition keeps {A} (I : A -> Prop) (m : M A) : Prop :=
  forall h : heap,
    match (m h).1 with
    | Returned b => I b
    | _ => True
    end.

Lemma keeps_ret {A} (I : A -> Prop) a : I a -> keeps I (ret a).
Proof. by intros Ha h. Qed.

Lemma keeps_bind {A B} (I : A -> Prop) (J : B -> Prop) (m : M A)
    (f : A -> M B) :
  keeps I m -> (forall a, I a -> keeps J (f a)) -> keeps J (bind m f).
Proof.
  intros Hm Hf h. specialize (Hm h). unfold bind.
  destruct (m h) as [[a | err |] h']; simpl in *; [| done | done].
  by apply Hf.
Qed.

Lemma keeps_for_each {X A} (I : A -> Prop) (xs : list X)
    (body : X -> A -> M A) :
  (forall x a, I a -> keeps I (body x a)) ->
  forall a, I a -> keeps I (for_each xs body a).
Proof.
  intros Hbody. induction xs as [| x xs IH]; intros a Ha; simpl.
  - by apply keeps_ret.
  - eapply keeps_bind; [by apply Hbody | exact IH].
Qed.

(** An invariant of the body of a loop over the generator is an invariant
    of the loop. *)
Lemma sample_keeps slot_lists expansion_rules fuel e us {A}
    (I : A -> Prop) (k : Triple -> A -> M A) a :
  (forall t b, I b -> keeps I (k t b)) -> I a ->
  keeps I (sample_expression_with_output slot_lists expansion_rules fuel e
             us k a).
Proof.
  intros Hk Ha h.
  destruct (sample_related eq eq eq) with
    (slot_lists := slot_lists) (expansion_rules := expansion_rules)
    (fuel := fuel) (e := e) (us1 := us) (us2 := us)
    (RA := fun a1 a2 : A => a1 = a2 /\ I a1)
    (k1 := k) (k2 := k) (a1 := a) (a2 := a) (h1 := h) (h2 := h)
    as [Ho _]; try done; try (by intros; subst).
  - intros [[i1 o1] l1] [[i2 o2] l2] b1 b2 (Hi & Ho & Hl) [<- Hb] g1 g2 <-.
    unfold input_of, output_of, used_of in *. simpl in *. subst i2 o2 l2.
    split; [| done]. specialize (Hk (i1, o1, l1) b1 Hb g1).
    by destruct (k (i1, o1, l1) b1 g1) as [[b' | err |] g'].
  - destruct (sample_expression_with_output _ _ _ _ _ _ _ _).1; simpl in *;
      try done. by destruct Ho.
Qed.

(** ** The corpus builder: the two tables *)

(** The words of the input texts of the rows. *)
Definition vocabulary (rows : list (string * string)) : gset string :=
  list_to_set (flat_map (fun row => split row.1) rows).

Lemma vocabulary_snoc rows input_text output :
  vocabulary (rows ++ [(input_text, output)])
  = vocabulary rows ∪ list_to_set (split input_text).
Proof.
  unfold vocabulary. rewrite flat_map_app. simpl.
  by rewrite app_nil_r, list_to_set_app_L.
Qed.

Lemma elem_of_vocabulary rows word :
  word ∈ vocabulary rows <->
  exists row, row ∈ rows /\ word ∈ split row.1.
Proof.
  unfold vocabulary. rewrite elem_of_list_to_set, list_elem_of_In.
  rewrite in_flat_map. split.
  - intros (row & Hrow & Hword). exists row.
    by rewrite !list_elem_of_In.
  - intros (row & Hrow & Hword). exists row.
    by rewrite <- !list_elem_of_In.
Qed.

(** What the loops of the builder keep: the rows already stored, the words
    table, and [words] as the vocabulary of the rows added. *)
Definition built_on (db : Database) (st : BuildState) : Prop :=
  exists rows,
    sentences st.1 = sentences db ++ rows /\
    words st.1 = words db /\
    st.2 = vocabulary rows.

Lemma built_on_add db st input_text output :
  built_on db st -> built_on db (add_sentence input_text output st).
Proof.
  intros (rows & Hrows & Hwords & Hset).
  exists (rows ++ [(input_text, output)]). simpl. split_and!.
  - by rewrite Hrows, <- app_assoc.
  - done.
  - by rewrite vocabulary_snoc, Hset.
Qed.

Lemma store_sampled_built_on db explicit t st :
  built_on db st -> keeps (built_on db) (store_sampled explicit t st).
Proof.
  intros Hst h. unfold store_sampled, bind, read. simpl.
  destruct (py_or _ _) as [out_sentence |]; [| done].
  destruct (__substitute _ _) as [out | err |]; simpl; [| done | done].
  by apply built_on_add.
Qed.

Lemma generate_template_built_on slot_lists expansion_rules fuel db
    template st :
  built_on db st ->
  keeps (built_on db)
    (generate_template slot_lists expansion_rules fuel template st).
Proof.
  intros Hst. unfold generate_template.
  apply keeps_for_each; [| done].
  intros [text | input_expression] st' Hst'.
  - apply keeps_ret. by apply built_on_add.
  - apply sample_keeps; [| done].
    intros t b. apply store_sampled_built_on.
Qed.

Lemma insert_words_result (ws : list string) (db : Database) :
  sentences (fold_left (fun db word => insert_word word db) ws db)
  = sentences db /\
  words (fold_left (fun db word => insert_word word db) ws db)
  = words db ++ ws.
Proof.
  revert db. induction ws as [| w ws IH]; intros db; simpl.
  - by rewrite app_nil_r.
  - destruct (IH (insert_word w db)) as [-> ->]. simpl.
    by rewrite <- app_assoc.
Qed.

Lemma generate_sentences_result slot_lists expansion_rules fuel templates
    db_conn (h : heap) db :
  (generate_sentences slot_lists expansion_rules fuel templates db_conn h).1
  = Returned db ->
  exists rows,
    sentences db = sentences db_conn ++ rows /\
    words db = words db_conn ++ elements (vocabulary rows).
Proof.
  unfold generate_sentences, bind.
  pose proof (keeps_for_each (built_on db_conn) templates
                (generate_template slot_lists expansion_rules fuel)
                (generate_template_built_on slot_lists expansion_rules fuel
                   db_conn) (db_conn, ∅)) as Hkeeps.
  specialize (Hkeeps (ltac:(exists []; by rewrite app_nil_r)) h).
  destruct (for_each templates _ _ h) as [[st | err |] g]; simpl in *;
    [| done | done].
  intros [= <-]. destruct Hkeeps as (rows & Hrows & Hwords & Hset).
  exists rows.
  destruct (insert_words_result (elements st.2) st.1) as [-> ->].
  by rewrite Hrows, Hwords, Hset.
Qed.

(** [lists: {color: [red, blue], size: [big]}] with
    [sentences: [{in: ["the ({color}|{size})", "the light"]},
                 {in: "lights on", out: "ON"}]] *)
Definition lights_grammar : list SentenceTemplate :=
  [{| input_templates := [Template the_color_or_size; NotTemplate "the light"];
      output_text := None |};
   {| input_templates := [NotTemplate "lights on"];
      output_text := Some "ON" |}].

Definition lights_rows : list (string * string) :=
  [("the red", "the red"); ("the blue", "the blue"); ("the big", "the big");
   ("the light", "the light"); ("lights on", "ON")].

(** X10: built into new tables, the words table holds every word of the
    input texts of the stored rows once, and nothing else: a word is in
    the table exactly when [split] gives it for the input text of some
    row. *)
Theorem words_table_is_the_vocabulary slot_lists expansion_rules fuel
    templates (h : heap) db :
  (generate_sentences slot_lists expansion_rules fuel templates
     {| sentences := []; words := [] |} h).1
  = Returned db ->
  NoDup (words db) /\
  forall word,
    word ∈ words db <->
    exists row, row ∈ sentences db /\ word ∈ split row.1.
Proof.
  intros Hrun.
  destruct (generate_sentences_result _ _ _ _ _ _ _ Hrun)
    as (rows & -> & ->). simpl. split.
  - apply NoDup_elements.
  - intros word. by rewrite elem_of_elements, elem_of_vocabulary.
Qed.

Lemma words_table_is_the_vocabulary_witness :
  let db :=
    {| sentences := lights_rows;
       words := ["on"; "red"; "big"; "blue"; "lights"; "light"; "the"] |} in
  NoDup (words db) /\
  forall word,
    word ∈ words db <->
    exists row, row ∈ sentences db /\ word ∈ split row.1.
Proof.
  apply (words_table_is_the_vocabulary color_size_lists ∅ 4 lights_grammar
           module_heap).
  vm_compute. reflexivity.
Defined.

(** X11: the builder only appends: the rows and the words that the two
    tables held before the call are still there after it, in their
    places, before everything the call has added. *)
Theorem builder_only_appends slot_lists expansion_rules fuel templates
    db_conn (h : heap) db :
  (generate_sentences slot_lists expansion_rules fuel templates db_conn h).1
  = Returned db ->
  sentences db_conn `prefix_of` sentences db /\
  words db_conn `prefix_of` words db.
Proof.
  intros Hrun.
  destruct (generate_sentences_result _ _ _ _ _ _ _ Hrun)
    as (rows & -> & ->).
  split; by eexists.
Qed.

Lemma builder_only_appends_witness :
  let db :=
    {| sentences := ("light", "LIGHT") :: lights_rows;
       words :=
         ["light"; "on"; "red"; "big"; "blue"; "lights"; "light"; "the"] |} in
  sentences light_store `prefix_of` sentences db /\
  words light_store `prefix_of` words db.
Proof.
  apply (builder_only_appends color_size_lists ∅ 4 lights_grammar
           light_store module_heap).
  vm_compute. reflexivity.
Defined.

(** [any(c.isspace() for c in s)] *)
Definition has_space (s : string) : bool :=
  existsb is_space (code_points s).

(** A code point as [code_points] gives it: a first byte and
    continuation bytes. *)
Definition encoded (c : string) : Prop :=
  match c with
  | EmptyString => False
  | String _ rest => forallb is_continuation (list_ascii_of_string rest) = true
  end.

(** A code point that does not start with a continuation byte. *)
Definition leading (c : string) : Prop :=
  match c with
  | EmptyString => False
  | String b _ => is_continuation b = false
  end.

Lemma encoded_continued c b :
  encoded c -> is_continuation b = true ->
  encoded (String.append c (String b EmptyString)).
Proof.
  destruct c as [| b0 rest]; [done |]. simpl. intros Hrest Hb.
  induction rest as [| b1 rest IH]; simpl in *.
  - by rewrite Hb.
  - apply andb_prop in Hrest as [-> Hrest]. simpl. by apply IH.
Qed.

Lemma leading_continued c b :
  leading c -> leading (String.append c (String b EmptyString)).
Proof. by destruct c. Qed.

Lemma code_points_from_encoded current s :
  encoded current ->
  Forall encoded (code_points_from current s) /\
  Forall leading (tail (code_points_from current s)) /\
  (leading current -> Forall leading (code_points_from current s)).
Proof.
  revert current. induction s as [| b s IH]; intros current Hcurrent; simpl.
  - split_and!; [by constructor | done | by constructor].
  - destruct (is_continuation b) eqn:Hb.
    + destruct (IH _ (encoded_continued _ _ Hcurrent Hb)) as (He & Ht & Hl).
      split_and!; [done | done |]. intros Hlead. apply Hl.
      by apply leading_continued.
    + destruct (IH (String b EmptyString)) as (He & Ht & Hl); [done |].
      specialize (Hl Hb).
      split_and!; [by constructor | done | by constructor].
Qed.

Lemma code_points_encoded s :
  Forall encoded (code_points s) /\ Forall leading (tail (code_points s)).
Proof.
  destruct s as [| b s]; [done |]. simpl.
  by destruct (code_points_from_encoded (String b EmptyString) s)
    as (? & ? & _).
Qed.

Lemma code_points_from_continuation current conts s :
  forallb is_continuation (list_ascii_of_string conts) = true ->
  code_points_from current (String.append conts s)
  = code_points_from (String.append current conts) s.
Proof.
  revert current. induction conts as [| b conts IH]; intros current; simpl.
  - by rewrite append_nil_r.
  - intros [-> Hconts]%andb_prop. rewrite IH by done.
    by rewrite append_assoc.
Qed.

Lemma code_points_from_code_points current cs :
  Forall encoded cs -> Forall leading cs ->
  code_points_from current (join cs) = current :: cs.
Proof.
  revert current. induction cs as [| c cs IH]; intros current He Hl; [done |].
  apply Forall_cons in He as [Hc He]. apply Forall_cons in Hl as [Hb Hl].
  destruct c as [| b conts]; [done |]. simpl in Hc, Hb. simpl.
  rewrite Hb. f_equal.
  rewrite code_points_from_continuation by done. by apply IH.
Qed.

(** The code points of code points put together are these code
    points. *)
Lemma code_points_of_join cs :
  Forall encoded cs -> Forall leading (tail cs) ->
  code_points (join cs) = cs.
Proof.
  destruct cs as [| c cs]; [done |]. intros He Hl.
  apply Forall_cons in He as [Hc He].
  destruct c as [| b conts]; [done |]. simpl in Hc, Hl. simpl.
  rewrite code_points_from_continuation by done.
  by apply code_points_from_code_points.
Qed.

Lemma join_snoc cs c : join (cs ++ [c]) = String.append (join cs) c.
Proof.
  induction cs as [| c' cs IH]; simpl.
  - by rewrite append_nil_r.
  - by rewrite IH, append_assoc.
Qed.

Lemma join_encoded_empty cs :
  Forall encoded cs -> join cs = EmptyString -> cs = [].
Proof.
  destruct cs as [| c cs]; [done |]. intros [Hc _]%Forall_cons.
  by destruct c.
Qed.

Lemma split_words_clean current_cs text word :
  Forall encoded (current_cs ++ text) ->
  Forall leading (tail (current_cs ++ text)) ->
  Forall (fun c => is_space c = false) current_cs ->
  word ∈ split_words (join current_cs) text ->
  word <> EmptyString /\ has_space word = false.
Proof.
  assert (Hword : forall cs,
            Forall encoded cs -> Forall leading (tail cs) ->
            Forall (fun c => is_space c = false) cs ->
            join cs <> EmptyString ->
            join cs <> EmptyString /\ has_space (join cs) = false).
  { intros cs He Hl Hs Hne. split; [done |]. unfold has_space.
    rewrite code_points_of_join by done.
    apply not_true_is_false. intros (c & Hin & Hc)%existsb_exists.
    rewrite Forall_forall in Hs. apply list_elem_of_In in Hin.
    by rewrite (Hs _ Hin) in Hc. }
  assert (Htail : forall (cs1 cs2 : list string),
            Forall leading (tail (cs1 ++ cs2)) -> Forall leading (tail cs2)).
  { intros cs1 cs2 Hl. destruct cs1 as [| c1 cs1].
    - done.
    - simpl in Hl. apply Forall_app in Hl as [_ Hl].
      destruct cs2; [done |]. by apply Forall_cons in Hl as [_ Hl]. }
  assert (Hhead : forall (cs1 cs2 : list string),
            Forall leading (tail (cs1 ++ cs2)) -> Forall leading (tail cs1)).
  { intros cs1 cs2 Hl. destruct cs1 as [| c1 cs1]; [done |].
    simpl in Hl. by apply Forall_app in Hl as [Hl _]. }
  revert current_cs. induction text as [| c text IH];
    intros current_cs He Hl Hs; simpl.
  - rewrite app_nil_r in He, Hl.
    destruct (String.eqb_spec (join current_cs) EmptyString) as [Heq | Hne].
    + by intros ?%elem_of_nil.
    + intros ->%list_elem_of_singleton. by apply Hword.
  - pose proof He as He'. apply Forall_app in He' as [Hec Het].
    apply Forall_cons in Het as [Hc Het].
    destruct (is_space c) eqn:Hspace.
    + assert (Hrest : word ∈ split_words (join []) text ->
                      word <> EmptyString /\ has_space word = false).
      { apply IH; [done | | done]. simpl.
        apply Htail in Hl. destruct text as [| c' text]; [done |].
        simpl in Hl. by apply Forall_cons in Hl as [_ Hl]. }
      destruct (String.eqb_spec (join current_cs) EmptyString) as [Heq | Hne].
      * exact Hrest.
      * intros [-> | Hin]%elem_of_cons; [| by apply Hrest].
        apply Hword; [done | by eapply Hhead | done | done].
    + rewrite <- join_snoc. apply IH.
      * by rewrite <- app_assoc.
      * by rewrite <- app_assoc.
      * apply Forall_app. split; [done |]. by constructor.
Qed.

(** X12: built into new tables, the words table holds no empty word and
    no word with white space in it. *)
Theorem words_have_no_white_space slot_lists expansion_rules fuel templates
    (h : heap) db :
  (generate_sentences slot_lists expansion_rules fuel templates
     {| sentences := []; words := [] |} h).1
  = Returned db ->
  Forall (fun word => word <> EmptyString /\ has_space word = false)
    (words db).
Proof.
  intros Hrun.
  destruct (generate_sentences_result _ _ _ _ _ _ _ Hrun)
    as (rows & _ & ->). simpl.
  apply Forall_forall. intros word Hword.
  apply elem_of_elements, elem_of_vocabulary in Hword
    as (row & _ & Hword).
  destruct (code_points_encoded row.1) as [He Hl].
  by apply (split_words_clean [] (code_points row.1)).
Qed.

Lemma words_have_no_white_space_witness :
  Forall (fun word => word <> EmptyString /\ has_space word = false)
    (words
       {| sentences := lights_rows;
          words := ["on"; "red"; "big"; "blue"; "lights"; "light"; "the"] |}).
Proof.
  apply (words_have_no_white_space color_size_lists ∅ 4 lights_grammar
           module_heap).
  vm_compute. reflexivity.
Defined.

(** ** The corpus builder: the rows of each template *)

(** The rows of one input template with the explicit output
    [output_text], built alone from the state in which the module is
    loaded. *)
Definition input_rows (slot_lists : gmap string SlotList)
    (expansion_rules : gmap string Expression) (fuel : nat)
    (output_text : option string) (input_template : InputTemplate)
    : outcome (list (string * string)) :=
  match input_template with
  | NotTemplate text => Returned [(text, final_output output_text None text)]
  | Template input_expression =>
      (sample_expression_with_output slot_lists expansion_rules fuel
         input_expression default_used_substitutions
         (collect_rows (final_output output_text)) [] module_heap).1
  end.

(** The rows of one entry of [sentences:], input after input. *)
Definition template_rows (slot_lists : gmap string SlotList)
    (expansion_rules : gmap string Expression) (fuel : nat)
    (template : SentenceTemplate) : outcome (list (string * string)) :=
  outcome_map (fun rowss => concat rowss)
    (all_outcomes
       (map (input_rows slot_lists expansion_rules fuel
               (output_text template))
          (input_templates template))).

(** The default dictionary is as the module created it. *)
Definition default_intact (h : heap) : Prop :=
  h !! default_used_substitutions = module_heap !! default_used_substitutions.

Lemma for_each_rows {X} (xs : list X)
    (body : X -> BuildState -> M BuildState)
    (rows_of : X -> outcome (list (string * string))) :
  (forall x st h, default_intact h ->
     outcome_map (fun st' : BuildState => sentences st'.1) (body x st h).1
     = outcome_map (app (sentences st.1)) (rows_of x) /\
     default_intact (body x st h).2) ->
  forall st h, default_intact h ->
    outcome_map (fun st' : BuildState => sentences st'.1)
      (for_each xs body st h).1
    = outcome_map (fun rowss => sentences st.1 ++ concat rowss)
        (all_outcomes (map rows_of xs)) /\
    default_intact (for_each xs body st h).2.
Proof.
  intros Hbody. induction xs as [| x xs IH]; intros st h Hh; simpl.
  - by rewrite app_nil_r.
  - destruct (Hbody x st h Hh) as [Hrows Hh']. unfold bind.
    destruct (body x st h) as [[st' | err |] g], (rows_of x) as [rows | err' |];
      simpl in *; try done.
    injection Hrows as Hrows.
    destruct (IH st' g Hh') as [IHrows IHh]. split; [| done].
    rewrite IHrows, outcome_map_map, Hrows.
    apply outcome_map_ext. intros rowss. simpl. by rewrite app_assoc.
Qed.

Lemma store_sampled_heap explicit t st (g : heap) :
  (store_sampled explicit t st g).2 = g.
Proof.
  unfold store_sampled, bind, read. simpl.
  destruct (py_or _ _) as [out_sentence |]; [| done].
  by destruct (__substitute _ _).
Qed.

(** The rows that the loop over a template's triples adds are those of
    the template built alone, and the loop leaves the default dictionary
    as it was. *)
Lemma sampled_rows slot_lists expansion_rules fuel input_expression explicit
    (st : BuildState) (h : heap) :
  default_intact h ->
  outcome_map (fun st' : BuildState => sentences st'.1)
    (sample_expression_with_output slot_lists expansion_rules fuel
       input_expression default_used_substitutions
       (store_sampled explicit) st h).1
  = outcome_map (app (sentences st.1))
      (input_rows slot_lists expansion_rules fuel explicit
         (Template input_expression)) /\
  default_intact
    (sample_expression_with_output slot_lists expansion_rules fuel
       input_expression default_used_substitutions
       (store_sampled explicit) st h).2.
Proof.
  intros Hh. unfold default_intact in *. simpl in Hh.
  assert (Hlen : default_used_substitutions < List.length h).
  { by apply lookup_lt_is_Some; rewrite Hh. }
  split.
  - apply orel_eq_map.
    eapply (sample_shifted slot_lists expansion_rules
              (List.length h) (List.length module_heap) fuel input_expression
              default_used_substitutions default_used_substitutions
              (fun (st' : BuildState) rows =>
                 sentences st'.1 = sentences st.1 ++ rows));
      [| by rewrite app_nil_r | apply shifted_nil |].
    + intros t1 t2 st' rows (Hi & Ho & Hl) Hrows g1 g2 Hg.
      unfold store_sampled, collect_rows, bind, read. simpl.
      rewrite py_or_final, Hi, Ho, (shifted_read _ _ g1 g2 _ _ Hg Hl).
      destruct (__substitute _ _) as [out | err |]; split; unfold ret; simpl;
        try done.
      rewrite Hrows. by rewrite <- app_assoc.
    + rewrite !list_lookup_total_alt. by rewrite Hh.
  - rewrite sample_keeps_old_objects; [done | | done].
    intros t b g. apply store_sampled_heap.
Qed.

Lemma py_or_plain output_text text :
  default text (py_or output_text (Some text))
  = final_output output_text None text.
Proof.
  unfold py_or, final_output, truthy.
  destruct output_text as [explicit |]; [| done].
  by destruct (String.eqb explicit "").
Qed.

(** One entry of [sentences:] adds the rows of its input templates. *)
Lemma generate_template_rows slot_lists expansion_rules fuel template
    (st : BuildState) (h : heap) :
  default_intact h ->
  outcome_map (fun st' : BuildState => sentences st'.1)
    (generate_template slot_lists expansion_rules fuel template st h).1
  = outcome_map (app (sentences st.1))
      (template_rows slot_lists expansion_rules fuel template) /\
  default_intact
    (generate_template slot_lists expansion_rules fuel template st h).2.
Proof.
  intros Hh. unfold generate_template.
  destruct (for_each_rows (input_templates template)
              (fun input_template st =>
                 match input_template with
                 | Template input_expression =>
                     sample_expression_with_output slot_lists
                       expansion_rules fuel input_expression
                       default_used_substitutions
                       (store_sampled (output_text template)) st
                 | NotTemplate text =>
                     ret (add_sentence text
                            (default text
                               (py_or (output_text template) (Some text)))
                            st)
                 end)
              (input_rows slot_lists expansion_rules fuel
                 (output_text template))) with (st := st) (h := h)
    as [Hrows Hh']; [| done |].
  - clear st h Hh. intros [text | input_expression] st h Hh.
    + simpl. by rewrite py_or_plain.
    + by apply sampled_rows.
  - split; [| done]. rewrite Hrows. unfold template_rows.
    rewrite outcome_map_map. done.
Qed.

(** The loop over the entries of [sentences:] adds the rows of each. *)
Lemma templates_rows slot_lists expansion_rules fuel templates
    (st : BuildState) (h : heap) :
  default_intact h ->
  outcome_map (fun st' : BuildState => sentences st'.1)
    (for_each templates (generate_template slot_lists expansion_rules fuel)
       st h).1
  = outcome_map (fun rowss => sentences st.1 ++ concat rowss)
      (all_outcomes
         (map (template_rows slot_lists expansion_rules fuel) templates)).
Proof.
  intros Hh.
  destruct (for_each_rows templates
              (generate_template slot_lists expansion_rules fuel)
              (template_rows slot_lists expansion_rules fuel)) with
    (st := st) (h := h) as [Hrows _]; [| done | done].
  clear st h Hh. intros template st h Hh.
  by apply generate_template_rows.
Qed.

(** The sentences table after the words are added. *)
Lemma generate_sentences_sentences slot_lists expansion_rules fuel templates
    db_conn (h : heap) :
  outcome_map sentences
    (generate_sentences slot_lists expansion_rules fuel templates db_conn h).1
  = outcome_map (fun st' : BuildState => sentences st'.1)
      (for_each templates (generate_template slot_lists expansion_rules fuel)
         (db_conn, ∅) h).1.
Proof.
  unfold generate_sentences. rewrite (bind_ret_map _ _ sentences).
  apply outcome_map_ext.
  intros st. by destruct (insert_words_result (elements st.2) st.1).
Qed.

(** X13: the sentences table that the builder leaves is the table it
    was given followed by the rows of each template built alone, in the
    order of the grammar: the rows of a template depend neither on the
    templates before it nor on what they left behind, and the builder
    fails exactly when the first template that cannot be built alone
    fails, with the same error. *)
Theorem corpus_is_built_template_by_template slot_lists expansion_rules fuel
    templates db_conn (h : heap) :
  default_intact h ->
  outcome_map sentences
    (generate_sentences slot_lists expansion_rules fuel templates db_conn h).1
  = outcome_map (fun rowss => sentences db_conn ++ concat rowss)
      (all_outcomes
         (map (template_rows slot_lists expansion_rules fuel) templates)).
Proof.
  intros Hh. rewrite generate_sentences_sentences.
  by rewrite templates_rows.
Qed.

Lemma corpus_is_built_template_by_template_witness :
  outcome_map sentences
    (generate_sentences color_size_lists ∅ 4 lights_grammar light_store
       module_heap).1
  = outcome_map (fun rowss => sentences light_store ++ concat rowss)
      (all_outcomes
         (map (template_rows color_size_lists ∅ 4) lights_grammar)).
Proof.
  apply (corpus_is_built_template_by_template color_size_lists ∅ 4
           lights_grammar light_store module_heap).
  reflexivity.
Defined.


(** ** The sampler: the yielded dictionaries *)

Lemma dict_set_set {V} (k : string) (v w : V) (d : dict V) :
  dict_set k v (dict_set k w d) = dict_set k v d.
Proof.
  induction d as [| [k' v'] d IH]; simpl.
  - by rewrite String.eqb_refl.
  - destruct (String.eqb k' k) eqn:Hk; simpl; rewrite Hk; [done |].
    by rewrite IH.
Qed.

Lemma set_list_set_list name v w u :
  set_list name v (set_list name w u) = set_list name v u.
Proof. unfold set_list. simpl. by rewrite dict_set_set. Qed.

Lemma chunk_update_set_list text name v u :
  chunk_update text (set_list name v u) = set_list name v (chunk_update text u).
Proof. unfold chunk_update. simpl. by destruct (curr_exp_rule u). Qed.

Lemma chunk_update_twice text text' u :
  chunk_update text (chunk_update text' u) = chunk_update text u.
Proof.
  unfold chunk_update. destruct (curr_exp_rule u) as [r |] eqn:Hr; simpl.
  - rewrite Hr. unfold set_exp_rule. simpl. by rewrite dict_set_set.
  - by rewrite Hr.
Qed.

Lemma lookup_total_last (h : list UsedSubstitutions) c :
  (h ++ [c]) !!! List.length h = c.
Proof. by rewrite lookup_total_app_r, Nat.sub_diag. Qed.

Lemma insert_last (h : list UsedSubstitutions) c c' :
  <[List.length h := c']> (h ++ [c]) = h ++ [c'].
Proof. by rewrite insert_app_r_alt, Nat.sub_diag. Qed.

Section Contexts.
Variable slot_lists : gmap string SlotList.
Variable expansion_rules : gmap string Expression.

Local Abbreviation sample :=
  (sample_expression_with_output slot_lists expansion_rules).

(** A text chunk yields once, with a new dictionary. *)
Lemma sample_chunk fuel text us {A} (k : Triple -> A -> M A) a
    (h : list UsedSubstitutions) :
  sample (S fuel) (TextChunk text) us k a h
  = k (text, Some text, List.length h) a
      (h ++ [chunk_update text (h !!! us)]).
Proof.
  cbn [sample_expression_with_output].
  erewrite bind_returned by reflexivity.
  rewrite chunk_step_modify.
  erewrite bind_returned by reflexivity.
  by rewrite lookup_total_last, insert_last.
Qed.

(** The value of a slot list as [generate_sentences] builds it. *)
Definition literal_value (entry : string * option string) : TextSlotValue :=
  {| text_in := TextChunk entry.1; value_out := entry.2 |}.

(** What a loop over a reference to [list_name] sees for [entry] when the
    call started from the dictionary [u]. *)
Definition seen_of_entry (list_name : string) (u : UsedSubstitutions)
    (entry : string * option string) : Seen :=
  (entry.1,
   if truthy entry.2 then entry.2 else Some entry.1,
   set_list list_name entry.2 (chunk_update entry.1 u)).

(** The dictionary [c] gives what [u] gives once the list's name and the
    current rule's text are set. *)
Definition same_after (list_name : string) (c u : UsedSubstitutions) : Prop :=
  forall v text,
    set_list list_name v (chunk_update text c)
    = set_list list_name v (chunk_update text u).

Lemma same_after_truthy list_name c u v text :
  same_after list_name c u ->
  same_after list_name (set_list list_name v (chunk_update text c)) u.
Proof.
  intros Hsame v' text'.
  by rewrite chunk_update_set_list, set_list_set_list, chunk_update_twice.
Qed.

Lemma same_after_falsy list_name c u v :
  same_after list_name c u -> same_after list_name (set_list list_name v c) u.
Proof.
  intros Hsame v' text'.
  by rewrite chunk_update_set_list, set_list_set_list.
Qed.

(** X14: a reference to a list of literal values yields one triple per
    value, in the order of the list; its dictionary, read when the triple
    is yielded, is the dictionary of the caller with the value's output
    recorded under the list's name (and the value's text under the
    current rule, if there is one), whatever the values before it have
    recorded.  The output yielded is the value's output, or the value's
    text when that output is [None] or empty. *)
Theorem literal_list_records_the_value fuel list_name entries us acc
    (h : list UsedSubstitutions) :
  slot_lists !! list_name = Some (TextSlotList (map literal_value entries)) ->
  (sample (S (S fuel)) (ListReference list_name) us observe acc h).1
  = Returned (acc ++ map (seen_of_entry list_name (h !!! us)) entries).
Proof.
  intros Hlist. remember (S fuel) as fuel' eqn:Hfuel.
  cbn [sample_expression_with_output].
  erewrite bind_returned by reflexivity. rewrite Hlist.
  match goal with
  | |- context [for_each _ ?b _] => set (body := b)
  end.
  set (u := h !!! us).
  assert (Hloop : forall entries used acc (g : list UsedSubstitutions),
            used < List.length g ->
            same_after list_name (g !!! used) u ->
            exists used' g',
              for_each (map literal_value entries) body (used, acc) g
              = (Returned
                   (used', acc ++ map (seen_of_entry list_name u) entries),
                 g')).
  { clear Hlist. intros es.
    induction es as [| [text out] es IH];
      intros used acc' g Hused Hsame.
    - simpl. eexists _, _. by rewrite app_nil_r.
    - assert (Hstep : exists used1 g1,
                body (literal_value (text, out)) (used, acc') g
                = (Returned
                     (used1, acc' ++ [seen_of_entry list_name u (text, out)]),
                   g1) /\
                used1 < List.length g1 /\
                same_after list_name (g1 !!! used1) u).
      { unfold body, seen_of_entry. rewrite Hfuel.
        cbn [literal_value value_out text_in fst snd].
        destruct (truthy out) eqn:Hout.
        - exists (List.length g),
            (g ++ [set_list list_name out
                     (chunk_update text (g !!! used))]).
          split_and!.
          + unfold bind at 1. rewrite sample_chunk.
            unfold bind, modify, observe, ret, seen_in, used_of, input_of,
              output_of.
            cbn [fst snd]. rewrite lookup_total_last, insert_last.
            rewrite lookup_total_last. rewrite (Hsame out text).
            by destruct out.
          + rewrite length_app. simpl. lia.
          + rewrite lookup_total_last. by apply same_after_truthy.
        - set (g1 := <[used := set_list list_name out (g !!! used)]> g).
          assert (Hc : g1 !!! used = set_list list_name out (g !!! used)).
          { unfold g1. apply list_lookup_total_insert_eq. exact Hused. }
          exists used, (g1 ++ [chunk_update text (g1 !!! used)]).
          split_and!.
          + unfold bind at 1. unfold modify at 1. fold g1.
            unfold bind at 1. rewrite sample_chunk.
            unfold observe, ret, seen_in, used_of, input_of, output_of.
            cbn [fst snd]. rewrite lookup_total_last, Hc.
            by rewrite chunk_update_set_list, (Hsame out text).
          + unfold g1. rewrite length_app, length_insert. lia.
          + rewrite lookup_total_app_l
              by (unfold g1; by rewrite length_insert).
            rewrite Hc. by apply same_after_falsy. }
      destruct Hstep as (used1 & g1 & Hstep & Hused1 & Hsame1).
      destruct (IH used1 (acc' ++ [seen_of_entry list_name u (text, out)])
                  g1 Hused1 Hsame1) as (used' & g' & Hrest).
      exists used', g'. cbn [map for_each].
      rewrite (bind_returned _ _ _ _ _ Hstep), Hrest.
      by rewrite <- app_assoc. }
  destruct (Hloop entries (List.length h) acc (h ++ [h !!! us]))
    as (used' & g' & Hrun).
  - rewrite length_app. simpl. lia.
  - rewrite lookup_total_last. by intros v text.
  - by erewrite bind_returned by exact Hrun.
Qed.

(** What a loop over a reference to [rule_name] sees for the alternative
    [text] of the rule when the call started from the dictionary [u]. *)
Definition seen_of_alternative (rule_name : string) (u : UsedSubstitutions)
    (text : string) : Seen :=
  (text, Some text,
   set_exp_rule rule_name text (set_curr_exp_rule rule_name u)).

(** X15: a reference to a rule whose body is a choice between literal
    texts yields one triple per text, in order; its dictionary, read when
    the triple is yielded, is the dictionary of the caller with the rule
    made the current one and the chosen text recorded under the rule's
    name. *)
Theorem rule_records_the_chosen_text fuel rule_name literals us acc
    (h : list UsedSubstitutions) :
  expansion_rules !! rule_name
  = Some (Sequence ALTERNATIVE (map TextChunk literals)) ->
  (sample (S (S (S fuel))) (RuleReference rule_name) us observe acc h).1
  = Returned (acc ++ map (seen_of_alternative rule_name (h !!! us)) literals).
Proof.
  intros Hrule. remember (S (S fuel)) as fuel2 eqn:Hfuel2.
  cbn [sample_expression_with_output].
  erewrite bind_returned by reflexivity. rewrite Hrule.
  erewrite bind_returned by reflexivity.
  rewrite insert_last. subst fuel2.
  remember (S fuel) as fuel1 eqn:Hfuel1.
  cbn [sample_expression_with_output].
  erewrite bind_returned by reflexivity.
  rewrite lookup_total_last.
  set (c := set_curr_exp_rule rule_name (h !!! us)).
  set (used := List.length (h ++ [c])).
  assert (Hloop : forall texts acc' (g : list UsedSubstitutions),
            used < List.length g -> g !!! used = c ->
            exists g',
              for_each (map TextChunk texts)
                (fun item acc0 => sample fuel1 item used observe acc0) acc' g
              = (Returned
                   (acc' ++ map (seen_of_alternative rule_name (h !!! us))
                              texts),
                 g')).
  { intros texts. induction texts as [| text texts IH]; intros acc' g Hused Hc.
    - simpl. eexists. by rewrite app_nil_r.
    - cbn [map for_each].
      destruct (IH (acc' ++ [seen_of_alternative rule_name (h !!! us) text])
                  (g ++ [chunk_update text (g !!! used)])) as [g' Hrest].
      + rewrite length_app. simpl. lia.
      + by rewrite lookup_total_app_l.
      + exists g'. erewrite bind_returned.
        * rewrite Hrest. by rewrite <- app_assoc.
        * rewrite Hfuel1, sample_chunk. unfold observe, seen_in, used_of,
            input_of, output_of. cbn [fst snd].
          rewrite lookup_total_last, Hc. reflexivity. }
  destruct (Hloop literals acc ((h ++ [c]) ++ [c])) as [g' Hrun].
  - unfold used. rewrite !length_app. simpl. lia.
  - unfold used. by rewrite lookup_total_last.
  - rewrite lookup_total_last. by rewrite Hrun.
Qed.

(** The triple [t] was yielded for [entry] of the list [list_name] by a
    call that started from [u] on a heap of [n] objects, and its
    dictionary is as it was yielded. *)
Definition yielded_for (list_name : string) (u : UsedSubstitutions)
    (n : nat) (g : list UsedSubstitutions) (t : Triple)
    (entry : string * option string) : Prop :=
  input_of t = entry.1 /\ output_of t = entry.2 /\
  n <= used_of t /\ used_of t < List.length g /\
  g !!! used_of t = set_list list_name entry.2 (chunk_update entry.1 u).

Lemma yielded_for_later list_name u n g g' t entry :
  yielded_for list_name u n g t entry ->
  List.length g <= List.length g' ->
  (forall l, l < List.length g -> g' !!! l = g !!! l) ->
  yielded_for list_name u n g' t entry.
Proof.
  intros (Hi & Ho & Hn & Hl & Hc) Hlen Hframe. split_and!; try done.
  - lia.
  - by rewrite Hframe.
Qed.

(** Draining a reference to a list of literal values that all have an
    output: one new dictionary per value, nothing else is written. *)
Lemma literal_list_collected fuel list_name entries us
    (h : list UsedSubstitutions) :
  slot_lists !! list_name = Some (TextSlotList (map literal_value entries)) ->
  Forall (fun entry : string * option string => truthy entry.2 = true)
    entries ->
  exists ts g,
    sample (S (S fuel)) (ListReference list_name) us collect [] h
    = (Returned ts, g) /\
    Forall2 (yielded_for list_name (h !!! us) (S (List.length h)) g)
      ts entries /\
    List.length h < List.length g /\
    (forall l, l < List.length h -> g !!! l = h !!! l).
Proof.
  intros Hlist Htruthy. remember (S fuel) as fuel' eqn:Hfuel.
  cbn [sample_expression_with_output].
  erewrite bind_returned by reflexivity. rewrite Hlist.
  match goal with
  | |- context [for_each _ ?b _] => set (body := b)
  end.
  set (u := h !!! us). set (n := S (List.length h)).
  assert (Hloop : forall es used acc (g : list UsedSubstitutions),
            Forall (fun entry : string * option string =>
                      truthy entry.2 = true) es ->
            n <= List.length g ->
            used < List.length g ->
            same_after list_name (g !!! used) u ->
            exists used' ts g',
              for_each (map literal_value es) body (used, acc) g
              = (Returned (used', acc ++ ts), g') /\
              Forall2 (yielded_for list_name u n g') ts es /\
              List.length g <= List.length g' /\
              (forall l, l < List.length g -> g' !!! l = g !!! l)).
  { clear Hlist Htruthy. intros es.
    induction es as [| [text out] es IH];
      intros used acc g Htruthy Hn Hused Hsame.
    - simpl. exists used, [], g. rewrite app_nil_r.
      split_and!; [done | constructor | done | done].
    - apply Forall_cons in Htruthy as [Hout Hrest]. simpl in Hout.
      set (d := set_list list_name out (chunk_update text u)).
      assert (Hstep : body (literal_value (text, out)) (used, acc) g
                      = (Returned
                           (List.length g,
                            acc ++ [(text, out, List.length g)]),
                         g ++ [d])).
      { unfold body. rewrite Hfuel.
        cbn [literal_value value_out text_in fst snd]. rewrite Hout.
        unfold bind at 1. rewrite sample_chunk.
        unfold bind, modify, collect, ret, used_of, input_of, output_of.
        cbn [fst snd]. rewrite lookup_total_last, insert_last.
        rewrite (Hsame out text). fold d. by destruct out. }
      destruct (IH (List.length g) (acc ++ [(text, out, List.length g)])
                  (g ++ [d]) Hrest) as (used' & ts & g' & Hrun & Hts & Hlen
                                        & Hframe).
      + rewrite length_app. simpl. lia.
      + rewrite length_app. simpl. lia.
      + rewrite lookup_total_last. unfold d.
        intros v' text'.
        by rewrite chunk_update_set_list, set_list_set_list,
             chunk_update_twice.
      + rewrite length_app in Hlen, Hframe. simpl in Hlen, Hframe.
        exists used', ((text, out, List.length g) :: ts), g'.
        cbn [map for_each]. split_and!.
        * rewrite (bind_returned _ _ _ _ _ Hstep), Hrun.
          by rewrite <- app_assoc.
        * constructor; [| done].
          unfold yielded_for, used_of, input_of, output_of. cbn [fst snd].
          split_and!; [done | done | lia | lia |].
          rewrite Hframe by lia. by rewrite lookup_total_last.
        * lia.
        * intros l Hl. rewrite Hframe by lia.
          by rewrite lookup_total_app_l. }
  destruct (Hloop entries (List.length h) [] (h ++ [h !!! us]) Htruthy)
    as (used' & ts & g' & Hrun & Hts & Hlen & Hframe).
  - unfold n. rewrite length_app. simpl. lia.
  - rewrite length_app. simpl. lia.
  - rewrite lookup_total_last. by intros v text.
  - rewrite length_app in Hlen, Hframe. simpl in Hlen, Hframe.
    exists ts, g'. split_and!.
    + by rewrite (bind_returned _ _ _ _ _ Hrun).
    + done.
    + lia.
    + intros l Hl. rewrite Hframe by lia. by rewrite lookup_total_app_l.
Qed.

Lemma product_one_choice {X} (a b : X) (pool : list X) :
  product [[a]; pool; [b]] = map (fun x => [a; x; b]) pool.
Proof.
  simpl. rewrite app_nil_r.
  induction pool as [| x pool IH]; simpl; [done |]. by rewrite IH.
Qed.

(** The dictionary of a value of the list: only its name is recorded. *)
Definition value_context (list_name : string) (value : option string)
    : UsedSubstitutions :=
  set_list list_name value empty_used.

(** A dictionary that records at most a value of [list_name]. *)
Definition at_most_the_list (list_name : string) (u : UsedSubstitutions)
    : Prop :=
  (lists u = [] \/ exists v, lists u = [(list_name, v)]) /\
  exp_rules u = [] /\ curr_exp_rule u = None.

Lemma merge_value_context list_name u value :
  at_most_the_list list_name u ->
  merge_used u (value_context list_name value)
  = value_context list_name value.
Proof.
  intros ([Hl | [v Hl]] & He & Hc); unfold merge_used, value_context,
    set_list, dict_merge; simpl; rewrite Hl, He; simpl;
    [| rewrite String.eqb_refl]; by rewrite ?Hc.
Qed.

Lemma merge_empty_used u :
  curr_exp_rule u = None -> merge_used u empty_used = u.
Proof. intros Hc. destruct u. simpl in *. by subst. Qed.

(** The row that a template with one slot gives for an entry of the
    list. *)
Definition slot_row (list_name pre post : string)
    (explicit : option string) (entry : string * option string)
    : string * string :=
  let input_text := normalize_whitespace (join [pre; entry.1; post]) in
  let value := default EmptyString entry.2 in
  (input_text,
   replace_first (list_placeholder list_name) value
     (final_output explicit
        (Some (normalize_whitespace (join [pre; value; post])))
        input_text)).

Lemma one_slot_rows fuel list_name entries pre post explicit :
  slot_lists !! list_name = Some (TextSlotList (map literal_value entries)) ->
  Forall (fun entry : string * option string => truthy entry.2 = true)
    entries ->
  input_rows slot_lists expansion_rules (S (S (S fuel))) explicit
    (Template
       (Sequence GROUP
          [TextChunk pre; ListReference list_name; TextChunk post]))
  = Returned (map (slot_row list_name pre post explicit) entries).
Proof.
  intros Hlist Htruthy. unfold input_rows.
  remember (S (S fuel)) as fuel2 eqn:Hfuel2.
  cbn [sample_expression_with_output].
  erewrite bind_returned by reflexivity.
  set (h1 := module_heap ++ [module_heap !!! default_used_substitutions]).
  (* the three children *)
  assert (Hpre : sample fuel2 (TextChunk pre) (List.length module_heap)
                   collect [] h1
                 = (Returned [(pre, Some pre, 2)], h1 ++ [empty_used])).
  { rewrite Hfuel2, sample_chunk. reflexivity. }
  set (h2 := h1 ++ [empty_used]).
  destruct (literal_list_collected fuel list_name entries
              (List.length module_heap) h2 Hlist Htruthy)
    as (ts & h3 & Hmid & Hts & Hlen3 & Hframe3).
  rewrite <- Hfuel2 in Hmid.
  change (h2 !!! List.length module_heap) with empty_used in Hts.
  change (List.length h2) with 3 in Hts, Hlen3, Hframe3.
  assert (Hpost : sample fuel2 (TextChunk post) (List.length module_heap)
                    collect [] h3
                  = (Returned [(post, Some post, List.length h3)],
                     h3 ++ [empty_used])).
  { rewrite Hfuel2, sample_chunk. unfold collect, ret. simpl.
    rewrite (Hframe3 1) by lia. reflexivity. }
  cbn [map_m].
  erewrite bind_returned;
    [| erewrite bind_returned by exact Hpre;
       erewrite bind_returned;
         [| erewrite bind_returned by exact Hmid;
            erewrite bind_returned;
              [| erewrite bind_returned by exact Hpost;
                 erewrite bind_returned by reflexivity; reflexivity];
            reflexivity];
       reflexivity].
  rewrite product_one_choice.
  set (lp := List.length h3).
  set (G0 := h3 ++ [empty_used]).
  (* the loop over the combinations *)
  match goal with
  | |- context [for_each _ ?b _] => set (body := b)
  end.
  assert (Hloop : forall ts es rows (G : list UsedSubstitutions),
            Forall2 (fun t (entry : string * option string) =>
                       input_of t = entry.1 /\ output_of t = entry.2 /\
                       used_of t <> 2 /\
                       G !!! used_of t = value_context list_name entry.2)
              ts es ->
            Forall (fun entry : string * option string =>
                      truthy entry.2 = true) es ->
            2 < List.length G -> G !!! lp = empty_used -> lp <> 2 ->
            at_most_the_list list_name (G !!! 2) ->
            (for_each
               (map (fun x => [(pre, Some pre, 2); x;
                               (post, Some post, lp)]) ts)
               body rows G).1
            = Returned (rows ++ map (slot_row list_name pre post explicit)
                                  es)).
  { clear. intros ts.
    induction ts as [| t ts IH];
      intros es rows G Hcs Htruthy HG Hlp Hne Hbase.
    - apply Forall2_nil_inv_l in Hcs as ->. simpl. by rewrite app_nil_r.
    - apply Forall2_cons_inv_l in Hcs
        as ([text out] & es' & (Hi & Ho & Hl & Hc) & Hcs & ->).
      apply Forall_cons in Htruthy as [Hout Hrest]. simpl in Hout.
      cbn [fst snd] in Hi, Ho, Hc.
      destruct out as [value |]; [| done].
      destruct t as [[input_text output_text] l].
      unfold input_of, output_of, used_of in Hi, Ho, Hl, Hc.
      cbn [fst snd] in Hi, Ho, Hl, Hc. subst input_text output_text.
      set (d := value_context list_name (Some value)).
      set (G' := <[2 := d]> (<[2 := d]> G)).
      assert (Hstep :
                body [(pre, Some pre, 2); (text, Some value, l);
                      (post, Some post, lp)] rows G
                = (Returned
                     (rows ++ [slot_row list_name pre post explicit
                                 (text, Some value)]),
                   G')).
      { unfold body, reduce_merge.
        cbn [map used_of input_of output_of fst snd for_each].
        unfold bind, read, modify, ret. cbn [fst snd].
        rewrite Hc, (merge_value_context _ _ _ Hbase).
        rewrite list_lookup_total_insert_eq by done.
        rewrite list_lookup_total_insert_ne by done.
        rewrite Hlp, merge_empty_used by done.
        fold d. fold G'.
        unfold collect_rows, input_of, output_of, used_of. cbn [fst snd].
        assert (HG' : G' !!! 2 = d).
        { unfold G'. apply list_lookup_total_insert_eq.
          by rewrite length_insert. }
        rewrite HG'. unfold slot_row. cbn [fst snd default].
        reflexivity. }
      cbn [map for_each]. rewrite (bind_returned _ _ _ _ _ Hstep).
      rewrite (IH es').
      + cbn [map]. by rewrite <- app_assoc.
      + eapply Forall2_impl; [exact Hcs |].
        intros t' entry' (Hi' & Ho' & Hl' & Hc'). split_and!; try done.
        unfold G'. by rewrite !list_lookup_total_insert_ne.
      + done.
      + unfold G'. by rewrite !length_insert.
      + unfold G'. by rewrite !list_lookup_total_insert_ne.
      + done.
      + assert (HG' : G' !!! 2 = d).
        { unfold G'. apply list_lookup_total_insert_eq.
          by rewrite length_insert. }
        rewrite HG'. split_and!; [right; by eexists | done | done]. }
  apply (Hloop ts entries [] G0).
  - eapply Forall2_impl; [exact Hts |].
    intros t entry (Hi & Ho & Hn & Hl & Hc). split_and!; try done.
    + lia.
    + unfold G0. rewrite lookup_total_app_l by done. rewrite Hc.
      unfold value_context. f_equal.
  - done.
  - unfold G0. rewrite length_app. lia.
  - unfold G0, lp. apply lookup_total_last.
  - unfold lp. lia.
  - unfold G0. rewrite lookup_total_app_l by lia.
    rewrite (Hframe3 2) by lia. split_and!; try done. by left.
Qed.
End Contexts.

(** ** A template with one slot *)

(** X16: for a template made of a text, a reference to a list and a
    text, and a list of literal values that all have a non-empty output,
    the builder stores one row per value, in the order of the list.  The
    input text of the row is the text with the value's input in the
    slot.  Its output text is the explicit output of the template when
    that is a non-empty string, and the text with the value's output in
    the slot otherwise, with the first occurrence of the list's
    placeholder replaced by the value's output: each row gets the value
    of its own input, whatever the other values are. *)
Theorem one_slot_template_rows slot_lists expansion_rules fuel list_name
    entries pre post explicit db_conn (h : heap) :
  slot_lists !! list_name = Some (TextSlotList (map literal_value entries)) ->
  Forall (fun entry : string * option string => truthy entry.2 = true)
    entries ->
  default_intact h ->
  outcome_map sentences
    (generate_sentences slot_lists expansion_rules (S (S (S fuel)))
       [{| input_templates :=
             [Template
                (Sequence GROUP
                   [TextChunk pre; ListReference list_name; TextChunk post])];
           output_text := explicit |}]
       db_conn h).1
  = Returned
      (sentences db_conn
       ++ map (slot_row list_name pre post explicit) entries).
Proof.
  intros Hlist Htruthy Hh. rewrite generate_sentences_sentences.
  rewrite templates_rows by done.
  cbn [map all_outcomes]. unfold template_rows.
  cbn [input_templates output_text map all_outcomes].
  rewrite (one_slot_rows slot_lists expansion_rules fuel list_name entries
             pre post explicit Hlist Htruthy).
  simpl. by rewrite !app_nil_r.
Qed.

(** [expansion_rules: {verb: "(turn on|switch on)"}] *)
Definition verb_rules : gmap string Expression :=
  {["verb" :=
      Sequence ALTERNATIVE [TextChunk "turn on"; TextChunk "switch on"]]}.

(** [lists: {color: [{in: crimson, out: red}, {in: navy, out: blue}]}] *)
Definition shade_lists : gmap string SlotList :=
  {["color" :=
      TextSlotList
        [{| text_in := TextChunk "crimson"; value_out := Some "red" |};
         {| text_in := TextChunk "navy"; value_out := Some "blue" |}]]}.

Lemma literal_list_records_the_value_witness :
  (sample_expression_with_output shade_lists ∅ 2 (ListReference "color")
     default_used_substitutions observe [] module_heap).1
  = Returned
      ([] ++ map (seen_of_entry "color"
                    (module_heap !!! default_used_substitutions))
                 [("crimson", Some "red"); ("navy", Some "blue")]).
Proof.
  apply (literal_list_records_the_value shade_lists ∅ 0 "color"
           [("crimson", Some "red"); ("navy", Some "blue")]
           default_used_substitutions [] module_heap).
  reflexivity.
Defined.

Lemma rule_records_the_chosen_text_witness :
  (sample_expression_with_output ∅ verb_rules 3 (RuleReference "verb")
     default_used_substitutions observe [] module_heap).1
  = Returned
      ([] ++ map (seen_of_alternative "verb"
                    (module_heap !!! default_used_substitutions))
                 ["turn on"; "switch on"]).
Proof.
  apply (rule_records_the_chosen_text ∅ verb_rules 0 "verb"
           ["turn on"; "switch on"] default_used_substitutions []
           module_heap).
  reflexivity.
Defined.

Lemma one_slot_template_rows_witness :
  outcome_map sentences
    (generate_sentences shade_lists ∅ 3
       [{| input_templates :=
             [Template
                (Sequence GROUP
                   [TextChunk "the "; ListReference "color";
                    TextChunk " light"])];
           output_text := Some "light {color}" |}]
       light_store module_heap).1
  = Returned
      (sentences light_store
       ++ map (slot_row "color" "the " " light" (Some "light {color}"))
            [("crimson", Some "red"); ("navy", Some "blue")]).
Proof.
  apply (one_slot_template_rows shade_lists ∅ 0 "color"
           [("crimson", Some "red"); ("navy", Some "blue")]
           "the " " light" (Some "light {color}") light_store module_heap).
  - reflexivity.
  - repeat constructor.
  - reflexivity.
Defined.

(** ** A list value without output *)

Section NoOutput.
Variable slot_lists : gmap string SlotList.
Variable expansion_rules : gmap string Expression.

Local Abbreviation sample :=
  (sample_expression_with_output slot_lists expansion_rules).

(** The triple [t] was yielded for [entry] of the list [list_name] by a
    call that started from [u] and made its copy at [m]; [used] is the
    dictionary that the loop over the list now writes to.  The
    dictionary of the triple records some value for the list; it is the
    value of the entry, and is written no more, when the entry has no
    output. *)
Definition drained_for (list_name : string) (u : UsedSubstitutions)
    (m : nat) (g : heap) (used : nat) (t : Triple)
    (entry : string * option string) : Prop :=
  input_of t = entry.1 /\ m < used_of t /\ used_of t < List.length g /\
  exists v,
    g !!! used_of t = set_list list_name v (chunk_update entry.1 u) /\
    (truthy entry.2 = false -> v = entry.2 /\ used_of t <> used).

Lemma literal_list_drained fuel list_name entries us (h : heap) :
  slot_lists !! list_name = Some (TextSlotList (map literal_value entries)) ->
  exists ts g used,
    sample (S (S fuel)) (ListReference list_name) us collect [] h
    = (Returned ts, g) /\
    Forall2 (drained_for list_name (h !!! us) (List.length h) g used)
      ts entries /\
    List.length h < List.length g /\
    (forall l, l < List.length h -> g !!! l = h !!! l).
Proof.
  intros Hlist. remember (S fuel) as fuel' eqn:Hfuel.
  cbn [sample_expression_with_output].
  erewrite bind_returned by reflexivity. rewrite Hlist.
  match goal with
  | |- context [for_each _ ?b _] => set (body := b)
  end.
  set (u := h !!! us). set (m := List.length h).
  assert (Hloop : forall es done_es used acc (g : heap),
            m <= used -> used < List.length g ->
            same_after list_name (g !!! used) u ->
            Forall2 (drained_for list_name u m g used) acc done_es ->
            exists used' ts g',
              for_each (map literal_value es) body (used, acc) g
              = (Returned (used', ts), g') /\
              Forall2 (drained_for list_name u m g' used') ts
                (done_es ++ es) /\
              List.length g <= List.length g' /\
              (forall l, l < m -> g' !!! l = g !!! l)).
  { clear Hlist. intros es.
    induction es as [| [text out] es IH];
      intros done_es used acc g Hm Hused Hsame Hdone.
    - simpl. exists used, acc, g. rewrite app_nil_r. done.
    - set (d := set_list list_name out (chunk_update text u)).
      assert (Hstep : exists used1 g1,
                body (literal_value (text, out)) (used, acc) g
                = (Returned (used1, acc ++ [(text,
                                              (if truthy out then out
                                               else Some text),
                                              List.length g)]),
                   g1) /\
                m <= used1 /\ used1 < List.length g1 /\
                same_after list_name (g1 !!! used1) u /\
                Forall2 (drained_for list_name u m g1 used1)
                  (acc ++ [(text, (if truthy out then out else Some text),
                            List.length g)])
                  (done_es ++ [(text, out)]) /\
                List.length g <= List.length g1 /\
                (forall l, l < m -> g1 !!! l = g !!! l)).
      { unfold body. rewrite Hfuel.
        cbn [literal_value value_out text_in fst snd].
        destruct (truthy out) eqn:Hout.
        - exists (List.length g), (g ++ [d]). split_and!.
          + unfold bind at 1. rewrite sample_chunk.
            unfold bind, modify, collect, ret, used_of, input_of, output_of.
            cbn [fst snd]. rewrite lookup_total_last, insert_last.
            rewrite (Hsame out text). fold d. by destruct out.
          + lia.
          + rewrite length_app. simpl. lia.
          + rewrite lookup_total_last. unfold d. intros v' text'.
            by rewrite chunk_update_set_list, set_list_set_list,
                 chunk_update_twice.
          + apply Forall2_app.
            * eapply Forall2_impl; [exact Hdone |].
              intros t entry (Hi & Hlo & Hhi & v & Hv & Hfalsy).
              split_and!; [done | done | rewrite length_app; lia |].
              exists v. rewrite lookup_total_app_l by done.
              split; [done |]. intros Hf. destruct (Hfalsy Hf) as [-> _].
              split; [done | lia].
            * constructor; [| constructor].
              unfold drained_for, used_of, input_of. cbn [fst snd].
              split_and!; [done | lia | rewrite length_app; simpl; lia |].
              exists out. rewrite lookup_total_last. split; [done |].
              by rewrite Hout.
          + rewrite length_app. lia.
          + intros l Hl. rewrite lookup_total_app_l by lia. done.
        - remember (<[used := set_list list_name out (g !!! used)]> g)
            as g1 eqn:Hg1.
          assert (Hc : g1 !!! used = set_list list_name out (g !!! used)).
          { rewrite Hg1. apply list_lookup_total_insert_eq. exact Hused. }
          assert (Hlen : List.length g1 = List.length g).
          { rewrite Hg1. by rewrite length_insert. }
          assert (Hd : chunk_update text (g1 !!! used) = d).
          { rewrite Hc. unfold d.
            by rewrite chunk_update_set_list, (Hsame out text). }
          exists used, (g1 ++ [d]). split_and!.
          + unfold bind at 1. unfold modify at 1. rewrite <- Hg1.
            unfold bind at 1. rewrite sample_chunk.
            unfold collect, ret. rewrite Hd. by rewrite Hlen.
          + done.
          + rewrite length_app. lia.
          + rewrite lookup_total_app_l by lia. rewrite Hc.
            by apply same_after_falsy.
          + apply Forall2_app.
            * eapply Forall2_impl; [exact Hdone |].
              intros t [text0 out0] (Hi & Hlo & Hhi & v & Hv & Hfalsy).
              split_and!; [done | done | rewrite length_app; lia |].
              rewrite lookup_total_app_l by lia.
              destruct (decide (used_of t = used)) as [Heq | Hne].
              -- exists out. rewrite Heq, Hc, <- Heq, Hv.
                 split; [by rewrite set_list_set_list |].
                 intros Hf. by destruct (Hfalsy Hf).
              -- exists v. rewrite Hg1.
                 rewrite list_lookup_total_insert_ne by done.
                 split; [done |]. exact Hfalsy.
            * constructor; [| constructor].
              unfold drained_for, used_of, input_of. cbn [fst snd].
              split_and!; [done | lia | rewrite length_app; simpl; lia |].
              exists out. rewrite <- Hlen, lookup_total_last. split; [done |].
              intros _. split; [done | lia].
          + rewrite length_app. lia.
          + intros l Hl. rewrite lookup_total_app_l by lia. rewrite Hg1.
            apply list_lookup_total_insert_ne. lia. }
      destruct Hstep as (used1 & g1 & Hstep & Hm1 & Hused1 & Hsame1 & Hdone1
                         & Hlen1 & Hframe1).
      destruct (IH (done_es ++ [(text, out)]) used1 _ g1 Hm1 Hused1 Hsame1
                  Hdone1) as (used' & ts & g' & Hrun & Hts & Hlen & Hframe).
      exists used', ts, g'. cbn [map for_each]. split_and!.
      + by rewrite (bind_returned _ _ _ _ _ Hstep), Hrun.
      + by rewrite <- app_assoc in Hts.
      + lia.
      + intros l Hl. rewrite Hframe by done. by apply Hframe1. }
  destruct (Hloop entries [] (List.length h) [] (h ++ [h !!! us]))
    as (used' & ts & g' & Hrun & Hts & Hlen & Hframe).
  - done.
  - rewrite length_app. simpl. lia.
  - rewrite lookup_total_last. by intros v text.
  - constructor.
  - rewrite length_app in Hlen. simpl in Hlen.
    exists ts, g', used'. split_and!.
    + by rewrite (bind_returned _ _ _ _ _ Hrun).
    + done.
    + lia.
    + intros l Hl. rewrite Hframe by done. by rewrite lookup_total_app_l.
Qed.

Lemma one_slot_without_output fuel list_name entries pre post explicit :
  slot_lists !! list_name = Some (TextSlotList (map literal_value entries)) ->
  Exists (fun entry : string * option string => entry.2 = None) entries ->
  input_rows slot_lists expansion_rules (S (S (S fuel))) explicit
    (Template
       (Sequence GROUP
          [TextChunk pre; ListReference list_name; TextChunk post]))
  = Raised TypeError.
Proof.
  intros Hlist Hnone. unfold input_rows.
  remember (S (S fuel)) as fuel2 eqn:Hfuel2.
  cbn [sample_expression_with_output].
  erewrite bind_returned by reflexivity.
  set (h1 := module_heap ++ [module_heap !!! default_used_substitutions]).
  assert (Hpre : sample fuel2 (TextChunk pre) (List.length module_heap)
                   collect [] h1
                 = (Returned [(pre, Some pre, 2)], h1 ++ [empty_used])).
  { rewrite Hfuel2, sample_chunk. reflexivity. }
  set (h2 := h1 ++ [empty_used]).
  destruct (literal_list_drained fuel list_name
              entries (List.length module_heap) h2 Hlist)
    as (ts & h3 & used & Hmid & Hts & Hlen3 & Hframe3).
  rewrite <- Hfuel2 in Hmid.
  change (h2 !!! List.length module_heap) with empty_used in Hts.
  change (List.length h2) with 3 in Hts, Hlen3, Hframe3.
  assert (Hpost : sample fuel2 (TextChunk post) (List.length module_heap)
                    collect [] h3
                  = (Returned [(post, Some post, List.length h3)],
                     h3 ++ [empty_used])).
  { rewrite Hfuel2, sample_chunk. unfold collect, ret. simpl.
    rewrite (Hframe3 1) by lia. reflexivity. }
  cbn [map_m].
  erewrite bind_returned;
    [| erewrite bind_returned by exact Hpre;
       erewrite bind_returned;
         [| erewrite bind_returned by exact Hmid;
            erewrite bind_returned;
              [| erewrite bind_returned by exact Hpost;
                 erewrite bind_returned by reflexivity; reflexivity];
            reflexivity];
       reflexivity].
  rewrite product_one_choice.
  set (lp := List.length h3).
  set (G0 := h3 ++ [empty_used]).
  match goal with
  | |- context [for_each _ ?b _] => set (body := b)
  end.
  assert (Hloop : forall ts es rows (G : heap),
            Forall2 (fun t (entry : string * option string) =>
                       used_of t <> 2 /\
                       exists v,
                         G !!! used_of t = value_context list_name v /\
                         (entry.2 = None -> v = None))
              ts es ->
            Exists (fun entry : string * option string => entry.2 = None)
              es ->
            2 < List.length G -> G !!! lp = empty_used -> lp <> 2 ->
            at_most_the_list list_name (G !!! 2) ->
            (for_each
               (map (fun x => [(pre, Some pre, 2); x;
                               (post, Some post, lp)]) ts)
               body rows G).1
            = Raised TypeError).
  { clear. intros ts.
    induction ts as [| t ts IH];
      intros es rows G Hcs Hnone HG Hlp Hne Hbase.
    - apply Forall2_nil_inv_l in Hcs as ->. by apply Exists_nil in Hnone.
    - apply Forall2_cons_inv_l in Hcs
        as ([text out] & es' & (Hl & v & Hc & Hv) & Hcs & ->).
      cbn [fst snd] in Hv.
      destruct t as [[input_text output_text] l].
      unfold used_of in Hl, Hc. cbn [fst snd] in Hl, Hc.
      set (d := value_context list_name v).
      set (G' := <[2 := d]> (<[2 := d]> G)).
      assert (HG' : G' !!! 2 = d).
      { unfold G'. apply list_lookup_total_insert_eq.
        by rewrite length_insert. }
      assert (Hstep :
                exists o,
                  body [(pre, Some pre, 2); (input_text, output_text, l);
                        (post, Some post, lp)] rows G
                  = (o, G') /\
                  match v with
                  | Some _ => exists rows', o = Returned rows'
                  | None => o = Raised TypeError
                  end).
      { unfold body, reduce_merge.
        cbn [map used_of input_of output_of fst snd for_each].
        unfold bind, read, modify, ret. cbn [fst snd].
        rewrite Hc, (merge_value_context _ _ _ Hbase).
        rewrite list_lookup_total_insert_eq by done.
        rewrite list_lookup_total_insert_ne by done.
        rewrite Hlp, merge_empty_used by done.
        fold d. fold G'.
        unfold collect_rows, input_of, output_of, used_of. cbn [fst snd].
        rewrite HG'. unfold d, value_context.
        destruct v as [value |]; cbn.
        - eexists. split; [reflexivity |]. by eexists.
        - eexists. split; [reflexivity |]. done. }
      destruct Hstep as (o & Hstep & Ho).
      cbn [map for_each].
      destruct v as [value |].
      + destruct Ho as [rows' ->].
        rewrite (bind_returned _ _ _ _ _ Hstep).
        apply (IH es').
        * eapply Forall2_impl; [exact Hcs |].
          intros t' entry' (Hl' & v' & Hc' & Hv'). split; [done |].
          exists v'. unfold G'. by rewrite !list_lookup_total_insert_ne.
        * apply Exists_cons in Hnone as [Hhere | Hrest]; [| done].
          simpl in Hhere. by specialize (Hv Hhere).
        * unfold G'. by rewrite !length_insert.
        * unfold G'. by rewrite !list_lookup_total_insert_ne.
        * done.
        * rewrite HG'. split_and!; [right; by eexists | done | done].
      + subst o. by rewrite (bind_raised _ _ _ _ _ Hstep). }
  apply (Hloop ts entries [] G0).
  - eapply Forall2_impl; [exact Hts |].
    intros t entry (Hi & Hlo & Hhi & v & Hv & Hfalsy). split; [lia |].
    exists v. unfold G0. rewrite lookup_total_app_l by done. rewrite Hv.
    split; [done |]. intros Hentry.
    destruct Hfalsy as [-> _]; [by rewrite Hentry | done].
  - done.
  - unfold G0. rewrite length_app. lia.
  - unfold G0, lp. apply lookup_total_last.
  - unfold lp. lia.
  - unfold G0. rewrite lookup_total_app_l by lia.
    rewrite (Hframe3 2) by lia. split_and!; try done. by left.
Qed.

(** X17: a list value whose output is [None] (an [out:] left empty in
    the file) fails the build: for a template made of a text, a reference
    to a list of literal values and a text, the builder raises
    [TypeError] as soon as one value of the list has no output, whatever
    the other values, the texts and the explicit output of the template
    are. *)
Theorem value_without_output_fails_the_build fuel list_name entries pre post
    explicit db_conn (h : heap) :
  slot_lists !! list_name = Some (TextSlotList (map literal_value entries)) ->
  Exists (fun entry : string * option string => entry.2 = None) entries ->
  default_intact h ->
  (generate_sentences slot_lists expansion_rules (S (S (S fuel)))
     [{| input_templates :=
           [Template
              (Sequence GROUP
                 [TextChunk pre; ListReference list_name; TextChunk post])];
         output_text := explicit |}]
     db_conn h).1
  = Raised TypeError.
Proof.
  intros Hlist Hnone Hh.
  pose proof (generate_sentences_sentences slot_lists expansion_rules
                (S (S (S fuel)))
                [{| input_templates :=
                      [Template
                         (Sequence GROUP
                            [TextChunk pre; ListReference list_name;
                             TextChunk post])];
                    output_text := explicit |}] db_conn h) as Hs.
  rewrite templates_rows in Hs by done.
  cbn [map all_outcomes] in Hs. unfold template_rows in Hs.
  cbn [input_templates output_text map all_outcomes] in Hs.
  rewrite (one_slot_without_output fuel list_name entries pre post explicit
             Hlist Hnone) in Hs.
  simpl in Hs.
  destruct (generate_sentences _ _ _ _ _ _).1 as [db | err |];
    simpl in Hs; [done | | done].
  by injection Hs as ->.
Qed.
End NoOutput.

(** [lists: {color: [{in: crimson, out: red}, {in: navy, out: }]}] *)
Definition faded_lists : gmap string SlotList :=
  {["color" :=
      TextSlotList
        [{| text_in := TextChunk "crimson"; value_out := Some "red" |};
         {| text_in := TextChunk "navy"; value_out := None |}]]}.

Lemma value_without_output_fails_the_build_witness :
  (generate_sentences faded_lists ∅ 3
     [{| input_templates :=
           [Template
              (Sequence GROUP
                 [TextChunk "the "; ListReference "color";
                  TextChunk " light"])];
         output_text := None |}]
     light_store module_heap).1
  = Raised TypeError.
Proof.
  apply (value_without_output_fails_the_build faded_lists ∅ 0 "color"
           [("crimson", Some "red"); ("navy", None)]
           "the " " light" None light_store module_heap).
  - reflexivity.
  - apply Exists_cons_tl, Exists_cons_hd. reflexivity.
  - reflexivity.
Defined.

(** ** Loading the lists *)

(** A value of a list in the YAML file: a string, or a mapping with the
    keys [in] and [out].  The input of a mapping is taken after
    [hassil.intents.is_template] and
    [hassil.parse_expression.parse_sentence], as the inputs of the
    sentence templates are. *)
Inductive SlotValueYaml :=
| PlainValue (slot_value : string)
| InOutValue (value_in : InputTemplate) (value_out : option string).

(** The description of a list: a sequence of values; a string, which is
    a [Sequence] for Python too, the sequence of its code points; or a
    mapping, whose values are under the key [values] if it has that
    key. *)
Inductive SlotInfoYaml :=
| ValueSequence (slot_values : list SlotValueYaml)
| ValueString (slot_info : string)
| ValueMapping (slot_values : option (list SlotValueYaml)).

(** [slot_info.get("values")], after a sequence is wrapped into
    [{"values": slot_info}]. *)
Definition slot_values_of (slot_info : SlotInfoYaml)
    : option (list SlotValueYaml) :=
  match slot_info with
  | ValueSequence slot_values => Some slot_values
  | ValueString slot_info => Some (map PlainValue (code_points slot_info))
  | ValueMapping slot_values => slot_values
  end.

Section Loader.
(** [hassil.sample.sample_expression], called without lists and rules and
    drained; it is not part of this module. *)
Variable sample_expression : Expression -> outcome (list string).

(** The body of the loop over the values of a list: the values added for
    one value of the file. *)
Definition load_slot_value (slot_value : SlotValueYaml)
    : outcome (list TextSlotValue) :=
  let added (values_in : list string) (value_out : option string) :=
    map (fun value_in =>
           {| text_in := TextChunk value_in; value_out := value_out |})
      values_in in
  match slot_value with
  | PlainValue slot_value => Returned (added [slot_value] (Some slot_value))
  | InOutValue (NotTemplate value_in) value_out =>
      Returned (added [value_in] value_out)
  | InOutValue (Template input_expression) value_out =>
      outcome_map (fun values_in => added values_in value_out)
        (sample_expression input_expression)
  end.

Definition load_slot_values (slot_values : list SlotValueYaml)
    : outcome (list TextSlotValue) :=
  outcome_map (fun added => concat added)
    (all_outcomes (map load_slot_value slot_values)).

(** The loop over [sentences_yaml.get("lists", {}).items()]; a
    description without values is skipped. *)
Fixpoint load_slot_lists (lists : dict SlotInfoYaml)
    (slot_lists : gmap string SlotList) : outcome (gmap string SlotList) :=
  match lists with
  | [] => Returned slot_lists
  | (slot_name, slot_info) :: lists' =>
      match slot_values_of slot_info with
      | None | Some [] => load_slot_lists lists' slot_lists
      | Some slot_values =>
          match load_slot_values slot_values with
          | Returned slot_list_values =>
              load_slot_lists lists'
                (<[slot_name := TextSlotList slot_list_values]> slot_lists)
          | Raised err => Raised err
          | OutOfFuel => OutOfFuel
          end
      end
  end.

(** A description that gives the list no value. *)
Definition without_values (slot_info : SlotInfoYaml) : bool :=
  match slot_values_of slot_info with
  | None | Some [] => true
  | Some _ => false
  end.

(** Every list of [slot_lists] holds literal values only. *)
Definition all_literal (slot_lists : gmap string SlotList) : Prop :=
  forall list_name slot_list,
    slot_lists !! list_name = Some slot_list ->
    exists entries, slot_list = TextSlotList (map literal_value entries).

Lemma load_slot_value_literal slot_value values :
  load_slot_value slot_value = Returned values ->
  exists entries, values = map literal_value entries.
Proof.
  destruct slot_value as [text | [text | input_expression] out]; simpl.
  - intros [= <-]. by exists [(text, Some text)].
  - intros [= <-]. by exists [(text, out)].
  - destruct (sample_expression input_expression) as [texts | |];
      [| done | done].
    intros [= <-]. exists (map (fun text => (text, out)) texts).
    by rewrite map_map.
Qed.

Lemma load_slot_values_literal slot_values values :
  load_slot_values slot_values = Returned values ->
  exists entries, values = map literal_value entries.
Proof.
  unfold load_slot_values.
  destruct (all_outcomes _) as [added | |] eqn:Hall; [| done | done].
  intros [= <-]. apply all_outcomes_Forall2 in Hall.
  induction Hall as [| slot_value vs slot_values added Hv _ [entries IH]].
  - by exists [].
  - destruct (load_slot_value_literal _ _ Hv) as [entries' ->].
    exists (entries' ++ entries). simpl. by rewrite IH, map_app.
Qed.

Lemma load_slot_lists_literal lists acc slot_lists :
  all_literal acc -> load_slot_lists lists acc = Returned slot_lists ->
  all_literal slot_lists.
Proof.
  revert acc. induction lists as [| [slot_name slot_info] lists IH];
    intros acc Hacc; simpl.
  - by intros [= <-].
  - destruct (slot_values_of slot_info) as [[| v vs] |];
      [exact (IH acc Hacc) | | exact (IH acc Hacc)].
    destruct (load_slot_values (v :: vs)) as [values | |] eqn:Hvalues;
      [| done | done].
    apply IH. intros list_name slot_list.
    destruct (decide (slot_name = list_name)) as [-> | Hne].
    + rewrite lookup_insert_eq. intros [= <-].
      apply load_slot_values_literal in Hvalues as [entries ->].
      by exists entries.
    + rewrite lookup_insert_ne by done. apply Hacc.
Qed.

Lemma load_slot_lists_skipped lists acc slot_lists list_name :
  load_slot_lists lists acc = Returned slot_lists ->
  Forall (fun kv => kv.1 = list_name -> without_values kv.2 = true) lists ->
  slot_lists !! list_name = acc !! list_name.
Proof.
  revert acc. induction lists as [| [slot_name slot_info] lists IH];
    intros acc; simpl.
  - by intros [= <-].
  - intros Hload Hskip. apply Forall_cons in Hskip as [Hhere Hskip].
    simpl in Hhere. unfold without_values in Hhere.
    destruct (slot_values_of slot_info) as [[| v vs] |];
      [exact (IH acc Hload Hskip) | | exact (IH acc Hload Hskip)].
    destruct (load_slot_values (v :: vs)) as [values | |]; [| done | done].
    rewrite (IH _ Hload Hskip).
    apply lookup_insert_ne. intros ->. by specialize (Hhere eq_refl).
Qed.

(** The texts of a literal value. *)
Definition texts_of_entry (entry : string * option string) : Texts :=
  (entry.1, if truthy entry.2 then entry.2 else Some entry.1).

Lemma literal_list_texts slot_lists expansion_rules fuel list_name entries :
  slot_lists !! list_name = Some (TextSlotList (map literal_value entries)) ->
  sample_texts slot_lists expansion_rules (S (S fuel)) (ListReference list_name)
  = Returned (map texts_of_entry entries).
Proof.
  intros Hlist. rewrite texts_list, Hlist.
  assert (Hall : all_outcomes
                   (map (entry_texts slot_lists expansion_rules (S fuel))
                      (map literal_value entries))
                 = Returned (map (fun entry => [texts_of_entry entry])
                               entries)).
  { clear Hlist. induction entries as [| [text out] entries IH]; [done |].
    cbn [map all_outcomes]. rewrite IH. unfold entry_texts, texts_of_entry.
    cbn [literal_value value_out text_in fst snd].
    rewrite texts_chunk. destruct (truthy out) eqn:Hout; [| done].
    destruct out as [out |]; [| done]. done. }
  rewrite Hall. simpl. f_equal.
  clear. induction entries as [| entry entries IH]; [done |].
  simpl. by rewrite IH.
Qed.

(** X18: every list that the loader has loaded holds literal values
    only: a template given as the input of a value is expanded when the
    list is loaded.  A reference to a loaded list therefore yields exactly
    one text per loaded value, in order, and each carries the declared
    output of its value, or its own text when that output is [None] or
    empty. *)
Theorem loaded_values_keep_their_output lists slot_lists expansion_rules fuel
    list_name slot_list :
  load_slot_lists lists ∅ = Returned slot_lists ->
  slot_lists !! list_name = Some slot_list ->
  exists entries,
    slot_list = TextSlotList (map literal_value entries) /\
    sample_texts slot_lists expansion_rules (S (S fuel))
      (ListReference list_name)
    = Returned (map texts_of_entry entries).
Proof.
  intros Hload Hlist.
  destruct (load_slot_lists_literal lists ∅ slot_lists) with
    (list_name := list_name) (slot_list := slot_list) as [entries ->];
    [by intros ? ? ? | done | done |].
  exists entries. split; [done |]. by apply literal_list_texts.
Qed.

(** X19: a list described without values (an empty sequence, an empty
    string, a mapping without [values] or with empty [values]) is not
    loaded: when the lists have been loaded, a reference to such a list
    raises [MissingListError] as a reference to a list never described
    does, whatever the loop over the reference does. *)
Theorem list_without_values_is_missing lists slot_lists expansion_rules fuel
    list_name us {A} (k : Triple -> A -> M A) a (h : heap) :
  load_slot_lists lists ∅ = Returned slot_lists ->
  Forall (fun kv => kv.1 = list_name -> without_values kv.2 = true) lists ->
  (sample_expression_with_output slot_lists expansion_rules (S fuel)
     (ListReference list_name) us k a h).1
  = Raised (MissingListError list_name).
Proof.
  intros Hload Hskip.
  pose proof (load_slot_lists_skipped _ _ _ _ Hload Hskip) as Hnone.
  rewrite lookup_empty in Hnone.
  cbn [sample_expression_with_output].
  erewrite bind_returned by reflexivity. by rewrite Hnone.
Qed.
End Loader.

(** ** Loading a language *)

(** The YAML file after [yaml.safe_load]: a mapping.  A key that is not
    there reads as the empty value; the patterns are taken as compiled,
    and the rule bodies as parsed. *)
Record SentencesYaml := mkSentencesYaml {
  yaml_sentences : list SentenceTemplate;
  yaml_lists : dict SlotInfoYaml;
  yaml_expansion_rules : gmap string Expression;
  yaml_no_correct_patterns : list (string -> bool);
  yaml_unknown_text : option string
}.

(** A sentences file: what [stat] gives for it and what it holds, [None]
    for an empty document. *)
Record SentencesFile := mkSentencesFile {
  st_mtime_ns : Z;
  st_size : Z;
  sentences_yaml : option SentencesYaml
}.

(** What the module reads and writes: the sentences files and the
    database files by path, the cache of the module, and the
    dictionaries. *)
Record World := mkWorld {
  sentences_files : gmap string SentencesFile;
  database_files : Files;
  _CONFIG_CACHE : gmap string LanguageConfig;
  objects : heap
}.

(** The rows of the templates before the first one that cannot be built
    alone. *)
Fixpoint rows_before_failure (slot_lists : gmap string SlotList)
    (expansion_rules : gmap string Expression) (fuel : nat)
    (templates : list SentenceTemplate) : list (string * string) :=
  match templates with
  | [] => []
  | template :: templates' =>
      match template_rows slot_lists expansion_rules fuel template with
      | Returned rows =>
          rows ++ rows_before_failure slot_lists expansion_rules fuel
                    templates'
      | _ => []
      end
  end.

Lemma rows_before_failure_all slot_lists expansion_rules fuel templates
    rowss :
  all_outcomes (map (template_rows slot_lists expansion_rules fuel) templates)
  = Returned rowss ->
  rows_before_failure slot_lists expansion_rules fuel templates
  = concat rowss.
Proof.
  revert rowss. induction templates as [| template templates IH];
    intros rowss; simpl.
  - by intros [= <-].
  - destruct (template_rows _ _ _ template) as [rows | |]; [| done | done].
    destruct (all_outcomes _) as [rowss' | |]; [| done | done].
    intros [= <-]. simpl. by rewrite (IH rowss').
Qed.

Lemma generate_template_words slot_lists expansion_rules fuel template
    (st : BuildState) :
  keeps (fun st' : BuildState => words st'.1 = words st.1)
    (generate_template slot_lists expansion_rules fuel template st).
Proof.
  unfold generate_template.
  apply keeps_for_each; [| done].
  intros [text | input_expression] st' Hst'.
  - by apply keeps_ret.
  - apply sample_keeps; [| done].
    intros t b Hb h. unfold store_sampled, bind, read. simpl.
    destruct (py_or _ _) as [out_sentence |]; [| done].
    by destruct (__substitute _ _).
Qed.

Lemma generate_sentences_intact slot_lists expansion_rules fuel templates
    db_conn (h : heap) :
  default_intact h ->
  default_intact
    (generate_sentences slot_lists expansion_rules fuel templates db_conn h).2.
Proof.
  intros Hh. unfold generate_sentences, bind.
  destruct (for_each_rows templates
              (generate_template slot_lists expansion_rules fuel)
              (template_rows slot_lists expansion_rules fuel)) with
    (st := (db_conn, ∅ : gset string)) (h := h) as [_ Hh']; [| done |].
  - intros template st g Hg. by apply generate_template_rows.
  - by destruct (for_each templates _ _ h) as [[st | err |] g].
Qed.

Section Language.
Variable sample_expression : Expression -> outcome (list string).
(** [Path(dir) / name], as a string. *)
Variable path_join : string -> string -> string.
Variable fuel : nat.

(** The store at the last commit of the loop over the templates: the
    loop commits after each template. *)
Fixpoint last_commit (slot_lists : gmap string SlotList)
    (expansion_rules : gmap string Expression)
    (templates : list SentenceTemplate) (st : BuildState) (h : heap)
    : Database :=
  match templates with
  | [] => st.1
  | template :: templates' =>
      match generate_template slot_lists expansion_rules fuel template st h
      with
      | (Returned st', h') =>
          last_commit slot_lists expansion_rules templates' st' h'
      | _ => st.1
      end
  end.

(** [generate_sentences(sentences_yaml, db_conn)] inside [with db_conn:],
    on a connection that has nothing to commit: the result, what the
    database file holds when the block is left, and the dictionaries.
    When the call raises, what was done since the last commit is rolled
    back. *)
Definition generate_sentences_in_block (sentences_yaml : SentencesYaml)
    (db_conn : Database) (h : heap) : outcome unit * Database * heap :=
  match load_slot_lists sample_expression (yaml_lists sentences_yaml) ∅ with
  | Returned slot_lists =>
      let expansion_rules := yaml_expansion_rules sentences_yaml in
      let templates := yaml_sentences sentences_yaml in
      match generate_sentences slot_lists expansion_rules fuel templates
              db_conn h with
      | (Returned db, h') => (Returned tt, db, h')
      | (Raised err, h') =>
          (Raised err,
           last_commit slot_lists expansion_rules templates (db_conn, ∅) h,
           h')
      | (OutOfFuel, h') =>
          (OutOfFuel,
           last_commit slot_lists expansion_rules templates (db_conn, ∅) h,
           h')
      end
  | Raised err => (Raised err, db_conn, h)
  | OutOfFuel => (OutOfFuel, db_conn, h)
  end.

(** The cache has a configuration for these file statistics. *)
Definition cache_hit (config : option LanguageConfig)
    (sentences_stats : SentencesFile) : bool :=
  match config with
  | Some config =>
      (st_mtime_ns sentences_stats =? sentences_mtime_ns config)%Z
      && (st_size sentences_stats =? sentences_file_size config)%Z
  | None => false
  end.

(** [load_sentences_for_language]; errors of the file system, of the
    YAML parser and of SQLite are not modelled. *)
Definition load_sentences_for_language
    (sentences_dir language database_dir : string) (w : World)
    : outcome (option LanguageConfig) * World :=
  let sentences_path :=
    path_join sentences_dir (String.append language ".yaml") in
  match sentences_files w !! sentences_path with
  | None => (Returned None, w)
  | Some sentences_stats =>
      let config := _CONFIG_CACHE w !! language in
      if cache_hit config sentences_stats then (Returned config, w)
      else
        match sentences_yaml sentences_stats with
        | None => (Returned None, w)
        | Some sentences_yaml =>
            match yaml_sentences sentences_yaml with
            | [] => (Returned None, w)
            | _ =>
                let database_path :=
                  path_join database_dir (String.append language ".db") in
                let config :=
                  {| sentences_mtime_ns := st_mtime_ns sentences_stats;
                     sentences_file_size := st_size sentences_stats;
                     database_path := database_path;
                     no_correct_patterns :=
                       yaml_no_correct_patterns sentences_yaml;
                     unknown_text := yaml_unknown_text sentences_yaml |} in
                let '(result, db, h) :=
                  generate_sentences_in_block sentences_yaml
                    {| sentences := []; words := [] |} (objects w) in
                match result with
                | Returned _ =>
                    (Returned (Some config),
                     {| sentences_files := sentences_files w;
                        database_files :=
                          <[database_path := db]> (database_files w);
                        _CONFIG_CACHE :=
                          <[language := config]> (_CONFIG_CACHE w);
                        objects := h |})
                | Raised err =>
                    (Raised err,
                     {| sentences_files := sentences_files w;
                        database_files :=
                          <[database_path := db]> (database_files w);
                        _CONFIG_CACHE := _CONFIG_CACHE w;
                        objects := h |})
                | OutOfFuel =>
                    (OutOfFuel,
                     {| sentences_files := sentences_files w;
                        database_files :=
                          <[database_path := db]> (database_files w);
                        _CONFIG_CACHE := _CONFIG_CACHE w;
                        objects := h |})
                end
            end
        end
  end.

(** The rows that the sentences table of a language holds when the block
    that builds it is left. *)
Definition committed_rows (sentences_yaml : SentencesYaml)
    : list (string * string) :=
  match load_slot_lists sample_expression (yaml_lists sentences_yaml) ∅ with
  | Returned slot_lists =>
      rows_before_failure slot_lists (yaml_expansion_rules sentences_yaml)
        fuel (yaml_sentences sentences_yaml)
  | _ => []
  end.

Lemma last_commit_rows slot_lists expansion_rules templates
    (st : BuildState) (h : heap) :
  default_intact h ->
  sentences (last_commit slot_lists expansion_rules templates st h)
  = sentences st.1
    ++ rows_before_failure slot_lists expansion_rules fuel templates /\
  words (last_commit slot_lists expansion_rules templates st h)
  = words st.1.
Proof.
  revert st h. induction templates as [| template templates IH];
    intros st h Hh; simpl.
  - by rewrite app_nil_r.
  - destruct (generate_template_rows slot_lists expansion_rules fuel
                template st h Hh) as [Hrows Hh'].
    pose proof (generate_template_words slot_lists expansion_rules fuel
                  template st h) as Hwords.
    destruct (generate_template _ _ _ template st h) as [[st' | err |] h'],
      (template_rows _ _ _ template) as [rows | err' |];
      simpl in *; try done; try by rewrite app_nil_r.
    injection Hrows as Hrows.
    destruct (IH st' h' Hh') as [-> ->].
    by rewrite Hrows, Hwords, <- app_assoc.
Qed.

(** What the block leaves: the rows, the words, the dictionaries. *)
Lemma in_block_result sentences_yaml (h : heap) :
  default_intact h ->
  let '(result, db, h') :=
    generate_sentences_in_block sentences_yaml
      {| sentences := []; words := [] |} h in
  sentences db = committed_rows sentences_yaml /\
  default_intact h' /\
  match result with
  | Returned _ =>
      NoDup (words db) /\
      forall word,
        word ∈ words db <->
        exists row, row ∈ sentences db /\ word ∈ split row.1
  | _ => words db = []
  end.
Proof.
  intros Hh. unfold generate_sentences_in_block, committed_rows.
  destruct (load_slot_lists _ _ _) as [slot_lists | err |]; [| done | done].
  set (expansion_rules := yaml_expansion_rules sentences_yaml).
  set (templates := yaml_sentences sentences_yaml).
  set (new := {| sentences := []; words := [] |}).
  pose proof (generate_sentences_intact slot_lists expansion_rules fuel
                templates new h Hh) as Hh'.
  pose proof (generate_sentences_sentences slot_lists expansion_rules fuel
                templates new h) as Hs.
  rewrite templates_rows in Hs by done.
  pose proof (generate_sentences_result slot_lists expansion_rules fuel
                templates new h) as Hw.
  destruct (last_commit_rows slot_lists expansion_rules templates
              (new, ∅) h Hh) as [Hcs Hcw].
  destruct (generate_sentences _ _ _ _ _ h) as [[db | err |] h'];
    simpl in *.
  - destruct (all_outcomes _) as [rowss | |] eqn:Hall; [| done | done].
    simpl in Hs. injection Hs as Hs.
    split_and!; [by rewrite (rows_before_failure_all _ _ _ _ _ Hall) | done
                | |].
    + destruct (Hw db eq_refl) as (rows & _ & ->). apply NoDup_elements.
    + destruct (Hw db eq_refl) as (rows & -> & ->). simpl.
      intros word. by rewrite elem_of_elements, elem_of_vocabulary.
  - done.
  - done.
Qed.

(** X20: a load that has returned is repeated without effect: a second
    call for the same sentences directory and language returns the same
    result and changes nothing, whatever database directory it is given;
    it builds no database and does not look at the database files. *)
Theorem second_load_changes_nothing sentences_dir language database_dir
    database_dir' w result w' :
  load_sentences_for_language sentences_dir language database_dir w
  = (Returned result, w') ->
  load_sentences_for_language sentences_dir language database_dir' w'
  = (Returned result, w').
Proof.
  unfold load_sentences_for_language.
  destruct (sentences_files w !! _) as [sentences_stats |] eqn:Hfile.
  2:{ intros [= <- <-]. by rewrite Hfile. }
  destruct (cache_hit _ sentences_stats) eqn:Hhit.
  { intros [= <- <-]. by rewrite Hfile, Hhit. }
  destruct (sentences_yaml sentences_stats) as [yaml |] eqn:Hyaml.
  2:{ intros [= <- <-]. by rewrite Hfile, Hhit, Hyaml. }
  destruct (yaml_sentences yaml) as [| template templates] eqn:Htemplates.
  { intros [= <- <-]. by rewrite Hfile, Hhit, Hyaml, Htemplates. }
  destruct (generate_sentences_in_block _ _ _) as [[[[] | err |] db] h];
    [| done | done].
  intros [= <- <-]. simpl. rewrite Hfile, lookup_insert_eq.
  unfold cache_hit. simpl. by rewrite !Z.eqb_refl.
Qed.

(** X21: whether it returns or raises, a load never changes a sentences
    file, a cache entry of another language, or a database file other
    than the one of its language in the database directory given, and it
    leaves the default dictionary of the sampler as the module created
    it. *)
Theorem load_touches_one_language sentences_dir language database_dir w :
  sentences_files
    (load_sentences_for_language sentences_dir language database_dir w).2
  = sentences_files w /\
  (forall other,
     other <> language ->
     _CONFIG_CACHE
       (load_sentences_for_language sentences_dir language database_dir w).2
       !! other
     = _CONFIG_CACHE w !! other) /\
  (forall path,
     path <> path_join database_dir (String.append language ".db") ->
     database_files
       (load_sentences_for_language sentences_dir language database_dir w).2
       !! path
     = database_files w !! path) /\
  (default_intact (objects w) ->
   default_intact
     (objects
        (load_sentences_for_language sentences_dir language database_dir
           w).2)).
Proof.
  unfold load_sentences_for_language.
  destruct (sentences_files w !! _) as [sentences_stats |]; [| done].
  destruct (cache_hit _ sentences_stats); [done |].
  destruct (sentences_yaml sentences_stats) as [yaml |]; [| done].
  destruct (yaml_sentences yaml) as [| template templates] eqn:Htemplates;
    [done |].
  pose proof (in_block_result yaml (objects w)) as Hblock.
  destruct (generate_sentences_in_block _ _ _) as [[result db] h].
  assert (Hother : forall other (config : LanguageConfig)
                     (cache : gmap string LanguageConfig),
            other <> language ->
            <[language := config]> cache !! other = cache !! other).
  { intros other config cache Hne. by apply lookup_insert_ne. }
  assert (Hpath : forall path (files : Files),
            path <> path_join database_dir (String.append language ".db") ->
            <[path_join database_dir (String.append language ".db") := db]>
              files !! path = files !! path).
  { intros path files Hne. by apply lookup_insert_ne. }
  destruct result as [[] | err |]; simpl; split_and!; auto;
    intros Hh; by destruct (Hblock Hh) as (_ & ? & _).
Qed.

(** X22: when [generate_sentences] raises inside a load, while the lists
    are loaded or a template is built, the load raises the same error;
    the cache keeps what it held, a configuration loaded earlier
    included, but the database file of the language has been replaced:
    it holds an empty words table and, in the sentences table, only the
    rows of the templates before the first one that fails (none when
    loading the lists fails).  An error raised earlier in the load comes
    before the database is removed and is not the subject here. *)
Theorem failed_build_truncates_the_database sentences_dir language
    database_dir w err sentences_stats yaml :
  sentences_files w
    !! path_join sentences_dir (String.append language ".yaml")
  = Some sentences_stats ->
  cache_hit (_CONFIG_CACHE w !! language) sentences_stats = false ->
  sentences_yaml sentences_stats = Some yaml ->
  yaml_sentences yaml <> [] ->
  default_intact (objects w) ->
  (generate_sentences_in_block yaml {| sentences := []; words := [] |}
     (objects w)).1.1
  = Raised err ->
  (load_sentences_for_language sentences_dir language database_dir w).1
  = Raised err /\
  _CONFIG_CACHE
    (load_sentences_for_language sentences_dir language database_dir w).2
  = _CONFIG_CACHE w /\
  database_files
    (load_sentences_for_language sentences_dir language database_dir w).2
    !! path_join database_dir (String.append language ".db")
  = Some {| sentences := committed_rows yaml; words := [] |}.
Proof.
  unfold load_sentences_for_language.
  intros Hfile Hhit Hyaml Hsentences Hh Hraised.
  rewrite Hfile, Hhit, Hyaml.
  destruct (yaml_sentences yaml) as [| template templates] eqn:Htemplates;
    [done |].
  pose proof (in_block_result yaml (objects w) Hh) as Hblock.
  destruct (generate_sentences_in_block _ _ _) as [[result db] h].
  simpl in Hraised. subst result.
  simpl. split_and!; [done | done |]. rewrite lookup_insert_eq.
  destruct Hblock as (Hrows & _ & Hwords). destruct db as [rows ws].
  simpl in *. by subst.
Qed.

(** X23: a load that is not answered from the cache and returns a
    configuration records it in the cache; the configuration holds the
    statistics of the sentences file, the patterns and the unknown text
    of the grammar, and the path of the language's database inside the
    database directory given.  At that path the load leaves a database
    built from new tables: its rows are those of the grammar, whatever
    the file held before, and its words table holds each word of their
    input texts once. *)
Theorem fresh_load_replaces_the_database sentences_dir language database_dir
    w config sentences_stats yaml :
  (load_sentences_for_language sentences_dir language database_dir w).1
  = Returned (Some config) ->
  default_intact (objects w) ->
  sentences_files w
    !! path_join sentences_dir (String.append language ".yaml")
  = Some sentences_stats ->
  cache_hit (_CONFIG_CACHE w !! language) sentences_stats = false ->
  sentences_yaml sentences_stats = Some yaml ->
  _CONFIG_CACHE
    (load_sentences_for_language sentences_dir language database_dir w).2
    !! language
  = Some config /\
  config
  = {| sentences_mtime_ns := st_mtime_ns sentences_stats;
       sentences_file_size := st_size sentences_stats;
       database_path :=
         path_join database_dir (String.append language ".db");
       no_correct_patterns := yaml_no_correct_patterns yaml;
       unknown_text := yaml_unknown_text yaml |} /\
  exists db,
    database_files
      (load_sentences_for_language sentences_dir language database_dir w).2
      !! database_path config
    = Some db /\
    sentences db = committed_rows yaml /\
    NoDup (words db) /\
    forall word,
      word ∈ words db <->
      exists row, row ∈ sentences db /\ word ∈ split row.1.
Proof.
  unfold load_sentences_for_language. intros Hreturned Hh Hfile Hhit Hyaml.
  rewrite Hfile, Hhit, Hyaml in *.
  destruct (yaml_sentences yaml) as [| template templates] eqn:Htemplates;
    [done |].
  pose proof (in_block_result yaml (objects w) Hh) as Hblock.
  destruct (generate_sentences_in_block _ _ _) as [[result db] h].
  destruct result as [[] | err' |]; [| done | done].
  simpl in *. injection Hreturned as <-. simpl.
  rewrite !lookup_insert_eq. split_and!; [done | done |].
  exists db. by destruct Hblock as (? & _ & ? & ?).
Qed.

(** X24: loading then correcting: after a load that is not answered from
    the cache, correcting with the configuration returned an input text
    of the grammar that matches none of its [no_correct_patterns] gives
    the output text of the first row of the grammar with that input text,
    for every cutoff that is not NaN. *)
Theorem loaded_sentence_is_corrected sentences_dir language database_dir w
    config sentences_stats yaml text out before after score_cutoff :
  (load_sentences_for_language sentences_dir language database_dir w).1
  = Returned (Some config) ->
  default_intact (objects w) ->
  sentences_files w
    !! path_join sentences_dir (String.append language ".yaml")
  = Some sentences_stats ->
  cache_hit (_CONFIG_CACHE w !! language) sentences_stats = false ->
  sentences_yaml sentences_stats = Some yaml ->
  committed_rows yaml = before ++ (text, out) :: after ->
  Forall (fun row => row.1 <> text) before ->
  existsb (fun pattern => pattern text) (yaml_no_correct_patterns yaml)
  = false ->
  score_cutoff <> NaN ->
  (correct_sentence text config score_cutoff
     (database_files
        (load_sentences_for_language sentences_dir language database_dir
           w).2)).1
  = Returned out.
Proof.
  unfold load_sentences_for_language.
  intros Hreturned Hh Hfile Hhit Hyaml Hrows Hbefore Hbypass Hcut.
  rewrite Hfile, Hhit, Hyaml in *.
  destruct (yaml_sentences yaml) as [| template templates] eqn:Htemplates;
    [done |].
  pose proof (in_block_result yaml (objects w) Hh) as Hblock.
  destruct (generate_sentences_in_block _ _ _) as [[result db] h].
  destruct result as [[] | err' |]; [| done | done].
  simpl in *. injection Hreturned as <-.
  destruct Hblock as (Hdb & _).
  unfold correct_sentence. simpl. rewrite lookup_insert_eq, Hbypass.
  unfold select_sentences, connect. simpl.
  rewrite Hdb, Hrows, (extractOne_exact text out before after Hbefore).
  simpl. change (Z.of_nat 0) with 0%Z.
  by rewrite any_cutoff_accepts_zero.
Qed.
End Language.

(** ** A language, loaded *)

(** An instance of hassil's sampler for the examples: the input texts
    that the sampler of this module yields without lists and rules. *)
Definition sampled_inputs (e : Expression) : outcome (list string) :=
  outcome_map (map fst) (sample_texts ∅ ∅ 8 e).

Definition slash_join (dir name : string) : string :=
  String.append dir (String.append "/" name).

(** [lists: {color: [red, {in: "(navy|sky)", out: blue}], size: []}] *)
Definition lamp_lists_yaml : dict SlotInfoYaml :=
  [("color",
    ValueSequence
      [PlainValue "red";
       InOutValue
         (Template (Sequence ALTERNATIVE [TextChunk "navy"; TextChunk "sky"]))
         (Some "blue")]);
   ("size", ValueSequence [])].

Definition lamp_lists : gmap string SlotList :=
  {["color" :=
      TextSlotList
        [{| text_in := TextChunk "red"; value_out := Some "red" |};
         {| text_in := TextChunk "navy"; value_out := Some "blue" |};
         {| text_in := TextChunk "sky"; value_out := Some "blue" |}]]}.

(** [sentences: [{in: "the {color} lamp", out: "lamp {color}"},
                 {in: "lamp on", out: "ON"}]]
    with [no_correct_patterns: ["^yes$"]] *)
Definition lamp_yaml : SentencesYaml :=
  {| yaml_sentences :=
       [{| input_templates :=
             [Template
                (Sequence GROUP
                   [TextChunk "the "; ListReference "color";
                    TextChunk " lamp"])];
           output_text := Some "lamp {color}" |};
        {| input_templates := [NotTemplate "lamp on"];
           output_text := Some "ON" |}];
     yaml_lists := lamp_lists_yaml;
     yaml_expansion_rules := ∅;
     yaml_no_correct_patterns := [fun text => String.eqb text "yes"];
     yaml_unknown_text := None |}.

Definition lamp_file : SentencesFile :=
  {| st_mtime_ns := 17; st_size := 240; sentences_yaml := Some lamp_yaml |}.

(** Before the first load: the database file is left from an earlier
    grammar. *)
Definition lamp_world : World :=
  {| sentences_files := {["sentences/en.yaml" := lamp_file]};
     database_files := {["db/en.db" := light_store]};
     _CONFIG_CACHE := ∅;
     objects := module_heap |}.

Definition lamp_config : LanguageConfig :=
  {| sentences_mtime_ns := 17; sentences_file_size := 240;
     database_path := "db/en.db";
     no_correct_patterns := [fun text => String.eqb text "yes"];
     unknown_text := None |}.

Definition lamp_rows : list (string * string) :=
  [("the red lamp", "lamp red"); ("the navy lamp", "lamp blue");
   ("the sky lamp", "lamp blue"); ("lamp on", "ON")].

(** [sentences: [{in: "lamp on", out: "ON"}, "{size}"]]: the second
    template refers to a list without values. *)
Definition broken_yaml : SentencesYaml :=
  {| yaml_sentences :=
       [{| input_templates := [NotTemplate "lamp on"];
           output_text := Some "ON" |};
        {| input_templates := [Template (ListReference "size")];
           output_text := None |}];
     yaml_lists := lamp_lists_yaml;
     yaml_expansion_rules := ∅;
     yaml_no_correct_patterns := [];
     yaml_unknown_text := None |}.

Definition broken_file : SentencesFile :=
  {| st_mtime_ns := 18; st_size := 250; sentences_yaml := Some broken_yaml |}.

(** The grammar was loaded, then the file was replaced by the broken
    one. *)
Definition broken_world : World :=
  {| sentences_files := {["sentences/en.yaml" := broken_file]};
     database_files :=
       {["db/en.db" :=
           {| sentences := lamp_rows;
              words := ["on"; "sky"; "navy"; "red"; "lamp"; "the"] |}]};
     _CONFIG_CACHE := {["en" := lamp_config]};
     objects := module_heap |}.

Lemma loaded_values_keep_their_output_witness :
  exists entries,
    TextSlotList
      [{| text_in := TextChunk "red"; value_out := Some "red" |};
       {| text_in := TextChunk "navy"; value_out := Some "blue" |};
       {| text_in := TextChunk "sky"; value_out := Some "blue" |}]
    = TextSlotList (map literal_value entries) /\
    sample_texts lamp_lists ∅ 2 (ListReference "color")
    = Returned (map texts_of_entry entries).
Proof.
  apply (loaded_values_keep_their_output sampled_inputs lamp_lists_yaml
           lamp_lists ∅ 0 "color").
  - vm_compute. reflexivity.
  - vm_compute. reflexivity.
Defined.

Lemma list_without_values_is_missing_witness :
  (sample_expression_with_output lamp_lists ∅ 1 (ListReference "size")
     default_used_substitutions collect [] module_heap).1
  = Raised (MissingListError "size").
Proof.
  apply (list_without_values_is_missing sampled_inputs lamp_lists_yaml
           lamp_lists ∅ 0 "size" default_used_substitutions collect []
           module_heap).
  - vm_compute. reflexivity.
  - constructor; [simpl; discriminate |].
    constructor; [reflexivity | constructor].
Defined.

Lemma second_load_changes_nothing_witness :
  let w' :=
    (load_sentences_for_language sampled_inputs slash_join 3 "sentences"
       "en" "db" lamp_world).2 in
  load_sentences_for_language sampled_inputs slash_join 3 "sentences" "en"
    "elsewhere" w'
  = (Returned (Some lamp_config), w').
Proof.
  apply (second_load_changes_nothing sampled_inputs slash_join 3 "sentences"
           "en" "db" "elsewhere" lamp_world).
  vm_compute. reflexivity.
Defined.

Lemma failed_build_truncates_the_database_witness :
  (load_sentences_for_language sampled_inputs slash_join 3 "sentences" "en"
     "db" broken_world).1
  = Raised (MissingListError "size") /\
  _CONFIG_CACHE
    (load_sentences_for_language sampled_inputs slash_join 3 "sentences"
       "en" "db" broken_world).2
  = _CONFIG_CACHE broken_world /\
  database_files
    (load_sentences_for_language sampled_inputs slash_join 3 "sentences"
       "en" "db" broken_world).2
    !! slash_join "db" (String.append "en" ".db")
  = Some {| sentences := committed_rows sampled_inputs 3 broken_yaml;
            words := [] |}.
Proof.
  apply (failed_build_truncates_the_database sampled_inputs slash_join 3
           "sentences" "en" "db" broken_world (MissingListError "size")
           broken_file broken_yaml).
  - vm_compute. reflexivity.
  - vm_compute. reflexivity.
  - reflexivity.
  - simpl. discriminate.
  - reflexivity.
  - vm_compute. reflexivity.
Defined.

Lemma fresh_load_replaces_the_database_witness :
  _CONFIG_CACHE
    (load_sentences_for_language sampled_inputs slash_join 3 "sentences"
       "en" "db" lamp_world).2
    !! "en"
  = Some lamp_config /\
  lamp_config
  = {| sentences_mtime_ns := st_mtime_ns lamp_file;
       sentences_file_size := st_size lamp_file;
       database_path := slash_join "db" (String.append "en" ".db");
       no_correct_patterns := yaml_no_correct_patterns lamp_yaml;
       unknown_text := yaml_unknown_text lamp_yaml |} /\
  exists db,
    database_files
      (load_sentences_for_language sampled_inputs slash_join 3 "sentences"
         "en" "db" lamp_world).2
      !! database_path lamp_config
    = Some db /\
    sentences db = committed_rows sampled_inputs 3 lamp_yaml /\
    NoDup (words db) /\
    forall word,
      word ∈ words db <->
      exists row, row ∈ sentences db /\ word ∈ split row.1.
Proof.
  apply (fresh_load_replaces_the_database sampled_inputs slash_join 3
           "sentences" "en" "db" lamp_world lamp_config lamp_file lamp_yaml).
  - vm_compute. reflexivity.
  - reflexivity.
  - vm_compute. reflexivity.
  - reflexivity.
  - reflexivity.
Defined.

Lemma loaded_sentence_is_corrected_witness :
  (correct_sentence "the sky lamp" lamp_config (float_of_Z 3)
     (database_files
        (load_sentences_for_language sampled_inputs slash_join 3 "sentences"
           "en" "db" lamp_world).2)).1
  = Returned "lamp blue".
Proof.
  apply (loaded_sentence_is_corrected sampled_inputs slash_join 3
           "sentences" "en" "db" lamp_world lamp_config lamp_file lamp_yaml
           "the sky lamp" "lamp blue"
           [("the red lamp", "lamp red"); ("the navy lamp", "lamp blue")]
           [("lamp on", "ON")] (float_of_Z 3)).
  - vm_compute. reflexivity.
  - reflexivity.
  - vm_compute. reflexivity.
  - reflexivity.
  - reflexivity.
  - vm_compute. reflexivity.
  - repeat constructor; simpl; discriminate.
  - reflexivity.
  - discriminate.
Defined.
